(** * ra-https: the attested tunnel, embedded in Rocq

    A shallow embedding of the tunnel relay ([TunnelServer]) and of the
    tunnel client ([RA], src/tunnel/client.ts), with the properties of the
    control channel, of the virtual HTTP adapter and of the virtual
    WebSocket adapter proved over it.

    JavaScript values that cross the wire are terms of [value]; the
    libraries the code calls (libsodium, cbor-x, the host application) are
    the fields of type classes, so that every statement holds for any
    implementation of them. *)

From stdpp Require Import gmap strings list fin_maps.
From Stdlib Require Import ZArith Ascii String Decimal DecimalString DecimalN
  DecimalNat.
From Stdlib.Strings Require Import Byte.

Set Warnings "-register-all".

Local Open Scope string_scope.
Local Open Scope Z_scope.
Local Open Scope list_scope.

(** ** JavaScript values *)

Abbreviation bytes := (list byte).

(** The values that the CBOR and JSON codecs carry.  A number is written
    in decimal: [VNum z] is the integer [z], and [VFrac m e] is the number
    [m / 10^e] that is not an integer ([m] is no multiple of ten).  A
    [Uint8Array] is [VBytes]; an object lists its properties as the
    engine does: the array indices in ascending order, then the other
    names in the order of their creation. *)
Inductive value : Type :=
| VUndefined
| VNull
| VBool (b : bool)
| VNum (z : Z)
| VFrac (m : Z) (e : positive)
| VStr (s : string)
| VBytes (bs : bytes)
| VArr (vs : list value)
| VObj (props : list (string * value)).

(** [Boolean(v)]: the test behind [if (v)] and [a || b]. *)
Definition truthy (v : value) : bool :=
  match v with
  | VUndefined | VNull => false
  | VBool b => b
  | VNum z => negb (z =? 0)
  | VFrac m _ => negb (m =? 0)
  | VStr s => negb (String.eqb s "")
  | VBytes _ | VArr _ | VObj _ => true
  end.

Definition is_string (v : value) : bool :=
  match v with VStr _ => true | _ => false end.

(** [typeof v === "object"] and [v !== null]. *)
Definition is_object (v : value) : bool :=
  match v with VBytes _ | VArr _ | VObj _ => true | _ => false end.

Fixpoint assoc (k : string) (props : list (string * value)) : option value :=
  match props with
  | [] => None
  | (k', v) :: rest => if String.eqb k k' then Some v else assoc k rest
  end.

(** [v.k]: reading a property of [undefined] or [null] throws ([None]);
    a missing property reads as [undefined]. *)
Definition get_prop (v : value) (k : string) : option value :=
  match v with
  | VUndefined | VNull => None
  | VObj props => Some (default VUndefined (assoc k props))
  | _ => Some VUndefined
  end.

(** ** [JSON.stringify] and [JSON.parse]

    The two built-ins on [value], over the text itself.  A string holds
    the UTF-8 bytes of a JavaScript string; a surrogate that has no
    partner, which UTF-8 leaves out, is written as the three bytes of its
    code unit.  A number keeps the decimal it was written with: it is not
    rounded to a binary64, so that a literal of more than fifteen
    significant digits, or one beyond the range of a binary64, reads as
    itself where the engine reads the nearest number it has. *)
Module JSON.

Definition dquote : ascii := "034"%char.
Definition backslash : ascii := "092"%char.

Definition hex_digit (n : N) : ascii :=
  ascii_of_N (if (n <? 10)%N then 48 + n else 87 + n).

(** [UnicodeEscape]: [\uXXXX] in lower case. *)
Definition unicode_escape (n : N) : string :=
  String backslash
    (String "u"
       (String (hex_digit (n / 4096))
          (String (hex_digit ((n / 256) mod 16))
             (String (hex_digit ((n / 16) mod 16))
                (String (hex_digit (n mod 16)) ""))))).

(** [QuoteJSONString], for a character that is no surrogate. *)
Definition escape_char (c : ascii) : string :=
  let n := N_of_ascii c in
  if (n =? 8)%N then String backslash "b"
  else if (n =? 9)%N then String backslash "t"
  else if (n =? 10)%N then String backslash "n"
  else if (n =? 12)%N then String backslash "f"
  else if (n =? 13)%N then String backslash "r"
  else if (n =? 34)%N then String backslash (String dquote "")
  else if (n =? 92)%N then String backslash (String backslash "")
  else if (n <? 32)%N then unicode_escape n
  else String c "".

(** The code unit of the surrogate whose three bytes start the string. *)
Definition surrogate_at (s : string) : option N :=
  match s with
  | String a (String b (String c _)) =>
      let x := N_of_ascii a in
      let y := N_of_ascii b in
      let z := N_of_ascii c in
      if ((x =? 237) && (160 <=? y) && (y <=? 191) && (128 <=? z) && (z <=? 191))%N
      then Some (53248 + (y - 128) * 64 + (z - 128))%N
      else None
  | _ => None
  end.

(** A surrogate without partner is written as its escape; [skip] counts
    the bytes of it that are still to pass. *)
Fixpoint escape_from (skip : nat) (s : string) : string :=
  match s with
  | EmptyString => ""
  | String c rest =>
      match skip with
      | Datatypes.S k => escape_from k rest
      | O =>
          match surrogate_at s with
          | Some n => unicode_escape n +:+ escape_from 2 rest
          | None => escape_char c +:+ escape_from 0 rest
          end
      end
  end.

Definition escape (s : string) : string := escape_from 0 s.

Definition quote (s : string) : string :=
  String dquote (escape s +:+ String dquote "").

(** *** [Number::toString] *)
Definition decimal (n : N) : string := NilEmpty.string_of_uint (N.to_uint n).

Fixpoint zeros (n : nat) : string :=
  match n with O => "" | Datatypes.S n => String "0" (zeros n) end.

Fixpoint take_chars (n : nat) (s : string) : string :=
  match n, s with
  | Datatypes.S n, String c rest => String c (take_chars n rest)
  | _, _ => ""
  end.

Fixpoint drop_chars (n : nat) (s : string) : string :=
  match n, s with
  | Datatypes.S n, String _ rest => drop_chars n rest
  | _, _ => s
  end.

(** The digits without the zeros at their end, and the number of these. *)
Fixpoint strip_zeros (ds : string) : string * nat :=
  match ds with
  | EmptyString => ("", O)
  | String c rest =>
      let '(r, t) := strip_zeros rest in
      match r with
      | EmptyString => if Ascii.eqb c "0" then ("", Datatypes.S t) else (String c "", t)
      | String _ _ => (String c r, t)
      end
  end.

Definition exponent_text (e : Z) : string :=
  "e" +:+ (if e <? 0 then "-" else "+") +:+ decimal (Z.abs_N e).

(** The text of [m * 10^E]: with [s] the digits of [m] without the zeros
    at their end, [k] their number and [n] the place of the decimal point,
    the four forms of [Number::toString]. *)
Definition number_text (m E : Z) : string :=
  if m =? 0 then "0"
  else
    let '(r, t) := strip_zeros (decimal (Z.abs_N m)) in
    let k := Z.of_nat (String.length r) in
    let n := k + Z.of_nat t + E in
    (if m <? 0 then "-" else "") +:+
    (if (k <=? n) && (n <=? 21) then r +:+ zeros (Z.to_nat (n - k))
     else if (0 <? n) && (n <=? 21)
     then take_chars (Z.to_nat n) r +:+ "." +:+ drop_chars (Z.to_nat n) r
     else if (-6 <? n) && (n <=? 0) then "0." +:+ zeros (Z.to_nat (- n)) +:+ r
     else match r with
          | EmptyString => ""
          | String d EmptyString => String d (exponent_text (n - 1))
          | String d rest => String d ("." +:+ rest +:+ exponent_text (n - 1))
          end).

Fixpoint join (sep : string) (l : list string) : string :=
  match l with
  | [] => ""
  | [x] => x
  | x :: rest => x +:+ sep +:+ join sep rest
  end.

Definition member (k text : string) : string := quote k +:+ ":" +:+ text.

Fixpoint byte_members (i : N) (bs : bytes) : list string :=
  match bs with
  | [] => []
  | b :: rest =>
      member (decimal i) (number_text (Z.of_N (Byte.to_N b)) 0)
        :: byte_members (N.succ i) rest
  end.

(** [JSON.stringify(v)]; [None] is the result [undefined].  In an array
    an element without a text is written [null]; in an object its
    property is left out.  The properties of a [Uint8Array] are its
    indices, in order. *)
Fixpoint stringify (v : value) : option string :=
  match v with
  | VUndefined => None
  | VNull => Some "null"
  | VBool b => Some (if b then "true" else "false")
  | VNum z => Some (number_text z 0)
  | VFrac m e => Some (number_text m (Z.neg e))
  | VStr s => Some (quote s)
  | VBytes bs =>
      Some ("{" +:+ join "," (byte_members 0 bs) +:+ "}")
  | VArr vs =>
      Some ("[" +:+ join "," (map (fun x => default "null" (stringify x)) vs) +:+ "]")
  | VObj props =>
      Some ("{" +:+ join ","
              (omap (fun kv => member (fst kv) <$> stringify (snd kv)) props) +:+ "}")
  end.

(** *** The parser *)
Definition is_ws (c : ascii) : bool :=
  let n := N_of_ascii c in
  ((n =? 32) || (n =? 9) || (n =? 10) || (n =? 13))%N.

Fixpoint skip_ws (s : string) : string :=
  match s with
  | String c rest => if is_ws c then skip_ws rest else s
  | EmptyString => s
  end.

Definition is_digit (c : ascii) : bool :=
  let n := N_of_ascii c in ((48 <=? n) && (n <=? 57))%N.

Fixpoint span_digits (s : string) : string * string :=
  match s with
  | String c rest =>
      if is_digit c
      then let '(ds, r) := span_digits rest in (String c ds, r)
      else ("", s)
  | EmptyString => ("", "")
  end.

(** One digit or more. *)
Definition parse_digits (s : string) : option (string * string) :=
  match span_digits s with
  | (EmptyString, _) => None
  | (ds, rest) => Some (ds, rest)
  end.

Fixpoint digits_value (acc : N) (ds : string) : N :=
  match ds with
  | EmptyString => acc
  | String c rest => digits_value (10 * acc + (N_of_ascii c - 48))%N rest
  end.

Definition leading_zero (ds : string) : bool :=
  match ds with
  | String c (String _ _) => Ascii.eqb c "0"
  | _ => false
  end.

Definition parse_fraction (s : string) : option (string * string) :=
  match s with
  | String c rest => if Ascii.eqb c "." then parse_digits rest else Some ("", s)
  | EmptyString => Some ("", s)
  end.

Definition parse_exponent (s : string) : option (Z * string) :=
  match s with
  | String c rest =>
      if Ascii.eqb c "e" || Ascii.eqb c "E" then
        match rest with
        | String sign rest' =>
            if Ascii.eqb sign "-" then
              match parse_digits rest' with
              | Some (ds, r) => Some (- Z.of_N (digits_value 0 ds), r)
              | None => None
              end
            else
              match parse_digits (if Ascii.eqb sign "+" then rest' else rest) with
              | Some (ds, r) => Some (Z.of_N (digits_value 0 ds), r)
              | None => None
              end
        | EmptyString => None
        end
      else Some (0, s)
  | EmptyString => Some (0, s)
  end.

(** [m / 10^e] without the factors of ten that it shares. *)
Fixpoint reduce (e : nat) (m : N) : N * nat :=
  match e with
  | O => (m, O)
  | Datatypes.S e' => if (m mod 10 =? 0)%N then reduce e' (m / 10)%N else (m, e)
  end.

(** The number [m * 10^E], negated when [negative]. *)
Definition number_of (negative : bool) (m : N) (E : Z) : value :=
  let signed z := if negative : bool then - z else z in
  if (m =? 0)%N then VNum 0
  else if 0 <=? E then VNum (signed (Z.of_N m * 10 ^ E))
  else
    match reduce (Z.to_nat (- E)) m with
    | (m', O) => VNum (signed (Z.of_N m'))
    | (m', Datatypes.S e) => VFrac (signed (Z.of_N m')) (Pos.of_succ_nat e)
    end.

Definition parse_unsigned (negative : bool) (s : string) : option (value * string) :=
  match parse_digits s with
  | Some (int, r1) =>
      if leading_zero int then None
      else
        match parse_fraction r1 with
        | Some (frac, r2) =>
            match parse_exponent r2 with
            | Some (e, r3) =>
                Some (number_of negative (digits_value 0 (int +:+ frac))
                        (e - Z.of_nat (String.length frac)), r3)
            | None => None
            end
        | None => None
        end
  | None => None
  end.

Definition parse_number (s : string) : option (value * string) :=
  match s with
  | String c rest =>
      if Ascii.eqb c "-" then parse_unsigned true rest else parse_unsigned false s
  | EmptyString => None
  end.

Definition hex_value (c : ascii) : option N :=
  let n := N_of_ascii c in
  if ((48 <=? n) && (n <=? 57))%N then Some (n - 48)%N
  else if ((97 <=? n) && (n <=? 102))%N then Some (n - 87)%N
  else if ((65 <=? n) && (n <=? 70))%N then Some (n - 55)%N
  else None.

Definition unescape (c : ascii) : option ascii :=
  let n := N_of_ascii c in
  if (n =? 98)%N then Some (ascii_of_N 8)
  else if (n =? 116)%N then Some (ascii_of_N 9)
  else if (n =? 110)%N then Some (ascii_of_N 10)
  else if (n =? 102)%N then Some (ascii_of_N 12)
  else if (n =? 114)%N then Some (ascii_of_N 13)
  else if (n =? 34)%N then Some dquote
  else if (n =? 92)%N then Some backslash
  else if (n =? 47)%N then Some "/"%char
  else None.

Definition hex4 (a b c d : ascii) : option N :=
  match hex_value a, hex_value b, hex_value c, hex_value d with
  | Some x, Some y, Some z, Some w => Some (((x * 16 + y) * 16 + z) * 16 + w)%N
  | _, _, _, _ => None
  end.

(** The bytes of a code point in UTF-8. *)
Definition utf8 (n : N) : string :=
  if (n <? 128)%N then String (ascii_of_N n) ""
  else if (n <? 2048)%N then
    String (ascii_of_N (192 + n / 64)) (String (ascii_of_N (128 + n mod 64)) "")
  else if (n <? 65536)%N then
    String (ascii_of_N (224 + n / 4096))
      (String (ascii_of_N (128 + (n / 64) mod 64))
         (String (ascii_of_N (128 + n mod 64)) ""))
  else
    String (ascii_of_N (240 + n / 262144))
      (String (ascii_of_N (128 + (n / 4096) mod 64))
         (String (ascii_of_N (128 + (n / 64) mod 64))
            (String (ascii_of_N (128 + n mod 64)) ""))).

Definition is_high (n : N) : bool := ((55296 <=? n) && (n <=? 56319))%N.
Definition is_low (n : N) : bool := ((56320 <=? n) && (n <=? 57343))%N.

(** The code point of a surrogate pair. *)
Definition pair_point (hi lo : N) : N :=
  (65536 + (hi - 55296) * 1024 + (lo - 56320))%N.

(** A high surrogate waits for its partner in [pend]. *)
Definition flush (pend : option N) : string :=
  match pend with Some hi => utf8 hi | None => "" end.

Definition prepend (x : string) (r : option (string * string))
  : option (string * string) :=
  match r with Some (y, rest) => Some (x +:+ y, rest) | None => None end.

(** The characters of a string literal, after its opening quote. *)
Fixpoint parse_chars (pend : option N) (s : string) : option (string * string) :=
  match s with
  | EmptyString => None
  | String c rest =>
      if Ascii.eqb c dquote then Some (flush pend, rest)
      else if Ascii.eqb c backslash then
        match rest with
        | String e rest' =>
            if Ascii.eqb e "u" then
              match rest' with
              | String h1 (String h2 (String h3 (String h4 rest''))) =>
                  match hex4 h1 h2 h3 h4 with
                  | Some n =>
                      match pend with
                      | Some hi =>
                          if is_low n
                          then prepend (utf8 (pair_point hi n)) (parse_chars None rest'')
                          else if is_high n
                          then prepend (utf8 hi) (parse_chars (Some n) rest'')
                          else prepend (utf8 hi +:+ utf8 n) (parse_chars None rest'')
                      | None =>
                          if is_high n then parse_chars (Some n) rest''
                          else prepend (utf8 n) (parse_chars None rest'')
                      end
                  | None => None
                  end
              | _ => None
              end
            else
              match unescape e with
              | Some c' => prepend (flush pend +:+ String c' "") (parse_chars None rest')
              | None => None
              end
        | EmptyString => None
        end
      else if (N_of_ascii c <? 32)%N then None
      else prepend (flush pend +:+ String c "") (parse_chars None rest)
  end.

Fixpoint expect (word s : string) : option string :=
  match word, s with
  | EmptyString, _ => Some s
  | String w word', String c rest =>
      if Ascii.eqb w c then expect word' rest else None
  | String _ _, EmptyString => None
  end.

(** An array index: the decimal, without a zero in front, of a number
    below [2^32 - 1]. *)
Definition array_index (k : string) : option N :=
  match span_digits k with
  | (String c ds, EmptyString) =>
      if leading_zero k || (10 <? String.length k)%nat then None
      else
        let i := digits_value 0 k in
        if (i <? 4294967295)%N then Some i else None
  | _ => None
  end.

(** Property definition: a name that the object has keeps its place and
    takes the new value; a new array index goes among the indices, in
    ascending order; another new name goes to the end. *)
Fixpoint define_index (i : N) (k : string) (v : value) (props : list (string * value))
  : list (string * value) :=
  match props with
  | [] => [(k, v)]
  | (k', v') :: rest =>
      match array_index k' with
      | Some j =>
          if (i <? j)%N then (k, v) :: props
          else if (i =? j)%N then (k, v) :: rest
          else (k', v') :: define_index i k v rest
      | None => (k, v) :: props
      end
  end.

Fixpoint define_name (k : string) (v : value) (props : list (string * value))
  : list (string * value) :=
  match props with
  | [] => [(k, v)]
  | (k', v') :: rest =>
      if String.eqb k k' then (k, v) :: rest else (k', v') :: define_name k v rest
  end.

Definition define (k : string) (v : value) (props : list (string * value))
  : list (string * value) :=
  match array_index k with
  | Some i => define_index i k v props
  | None => define_name k v props
  end.

Definition object_of (members : list (string * value)) : value :=
  VObj (fold_left (fun props kv => define (fst kv) (snd kv) props) members []).

Definition starts_with (c : ascii) (s : string) : option string :=
  match s with
  | String c' rest => if Ascii.eqb c' c then Some rest else None
  | EmptyString => None
  end.

Fixpoint parse_value (fuel : nat) (s : string) : option (value * string) :=
  match fuel with
  | O => None
  | Datatypes.S fuel =>
      match skip_ws s with
      | EmptyString => None
      | String c rest =>
          if Ascii.eqb c "n" then
            match expect "ull" rest with Some r => Some (VNull, r) | None => None end
          else if Ascii.eqb c "t" then
            match expect "rue" rest with Some r => Some (VBool true, r) | None => None end
          else if Ascii.eqb c "f" then
            match expect "alse" rest with Some r => Some (VBool false, r) | None => None end
          else if Ascii.eqb c dquote then
            match parse_chars None rest with
            | Some (x, r) => Some (VStr x, r)
            | None => None
            end
          else if Ascii.eqb c "[" then
            match starts_with "]" (skip_ws rest) with
            | Some r => Some (VArr [], r)
            | None =>
                match parse_elements fuel rest with
                | Some (vs, r) => Some (VArr vs, r)
                | None => None
                end
            end
          else if Ascii.eqb c "{" then
            match starts_with "}" (skip_ws rest) with
            | Some r => Some (VObj [], r)
            | None =>
                match parse_members fuel rest with
                | Some (ms, r) => Some (object_of ms, r)
                | None => None
                end
            end
          else parse_number (String c rest)
      end
  end
with parse_elements (fuel : nat) (s : string) : option (list value * string) :=
  match fuel with
  | O => None
  | Datatypes.S fuel =>
      match parse_value fuel s with
      | Some (v, r) =>
          match starts_with "," (skip_ws r) with
          | Some r' =>
              match parse_elements fuel r' with
              | Some (vs, r'') => Some (v :: vs, r'')
              | None => None
              end
          | None =>
              match starts_with "]" (skip_ws r) with
              | Some r' => Some ([v], r')
              | None => None
              end
          end
      | None => None
      end
  end
with parse_members (fuel : nat) (s : string)
  : option (list (string * value) * string) :=
  match fuel with
  | O => None
  | Datatypes.S fuel =>
      match starts_with dquote (skip_ws s) with
      | Some rest =>
          match parse_chars None rest with
          | Some (k, r) =>
              match starts_with ":" (skip_ws r) with
              | Some r1 =>
                  match parse_value fuel r1 with
                  | Some (v, r2) =>
                      match starts_with "," (skip_ws r2) with
                      | Some r3 =>
                          match parse_members fuel r3 with
                          | Some (ms, r4) => Some ((k, v) :: ms, r4)
                          | None => None
                          end
                      | None =>
                          match starts_with "}" (skip_ws r2) with
                          | Some r3 => Some ([(k, v)], r3)
                          | None => None
                          end
                      end
                  | None => None
                  end
              | None => None
              end
          | None => None
          end
      | None => None
      end
  end.

(** [JSON.parse(text)]; [None] is a [SyntaxError]. *)
Definition parse (text : string) : option value :=
  match parse_value (Datatypes.S (String.length text)) text with
  | Some (v, rest) =>
      match skip_ws rest with
      | EmptyString => Some v
      | String _ _ => None
      end
  | None => None
  end.

(** *** The values that come back as they are

    No [undefined] and no typed array; a string in which no high
    surrogate stands before a low one, each in its three bytes (the pair
    is one character of four); an object that lists its properties as
    the engine does, each name once. *)
Fixpoint well_formed_from (skip : nat) (high : bool) (s : string) : bool :=
  match s with
  | EmptyString => true
  | String c rest =>
      match skip with
      | Datatypes.S k => well_formed_from k high rest
      | O =>
          match surrogate_at s with
          | Some n =>
              if high && is_low n then false else well_formed_from 2 (is_high n) rest
          | None => well_formed_from 0 false rest
          end
      end
  end.

Definition well_formed (s : string) : bool := well_formed_from 0 false s.

Fixpoint distinct (keys : list string) : bool :=
  match keys with
  | [] => true
  | k :: rest => negb (existsb (String.eqb k) rest) && distinct rest
  end.

Definition is_name (k : string) : bool :=
  match array_index k with Some _ => false | None => true end.

(** The indices in ascending order, above [bound], then the names. *)
Fixpoint ordered (bound : option N) (keys : list string) : bool :=
  match keys with
  | [] => true
  | k :: rest =>
      match array_index k with
      | Some i =>
          match bound with Some b => (b <? i)%N | None => true end
          && ordered (Some i) rest
      | None => forallb is_name rest && distinct keys
      end
  end.

Fixpoint plain (v : value) : bool :=
  match v with
  | VUndefined | VBytes _ | VFrac _ _ => false
  | VNull | VBool _ | VNum _ => true
  | VStr s => well_formed s
  | VArr vs => forallb plain vs
  | VObj props =>
      ordered None (map fst props) && forallb well_formed (map fst props)
      && forallb (fun kv => plain (snd kv)) props
  end.

(** A high surrogate is waiting. *)
Definition pending (pend : option N) : bool :=
  match pend with Some _ => true | None => false end.

Fixpoint digits_only (s : string) : bool :=
  match s with
  | EmptyString => true
  | String c rest => is_digit c && digits_only rest
  end.

(** *** What the parser meets after a value, and at the head of one *)
Definition no_digit (rest : string) : Prop :=
  match rest with
  | EmptyString => True
  | String c _ => is_digit c = false
  end.

Definition delimited (rest : string) : Prop :=
  match rest with
  | EmptyString => True
  | String c _ => c = ","%char \/ c = "]"%char \/ c = "}"%char
  end.

Definition value_head (c : ascii) : bool :=
  is_digit c || Ascii.eqb c "-" || Ascii.eqb c "n" || Ascii.eqb c "t"
  || Ascii.eqb c "f" || Ascii.eqb c dquote || Ascii.eqb c "[" || Ascii.eqb c "{".

(** The texts that [stringify] joins in an array and in an object. *)
Definition texts (vs : list value) : list string :=
  map (fun x => default "null" (stringify x)) vs.

Definition member_texts (props : list (string * value)) : list string :=
  omap (fun kv => member (fst kv) <$> stringify (snd kv)) props.
End JSON.

(** ** An insertion-ordered [Map<string, V>]

    The relay iterates over [webSocketConnections] when a control socket
    closes, so the map keeps the order of insertion, as a JavaScript [Map]
    does. *)
Module JsMap.
Section Ops.
Context {V : Type}.

Fixpoint get (k : string) (m : list (string * V)) : option V :=
  match m with
  | [] => None
  | (k', v) :: rest => if String.eqb k k' then Some v else get k rest
  end.

Definition has (k : string) (m : list (string * V)) : bool :=
  match get k m with Some _ => true | None => false end.

(** [m.set(k, v)]: an existing key keeps its place. *)
Fixpoint set (k : string) (v : V) (m : list (string * V)) : list (string * V) :=
  match m with
  | [] => [(k, v)]
  | (k', v') :: rest =>
      if String.eqb k k' then (k, v) :: rest else (k', v') :: set k v rest
  end.

Fixpoint delete (k : string) (m : list (string * V)) : list (string * V) :=
  match m with
  | [] => []
  | (k', v') :: rest =>
      if String.eqb k k' then delete k rest else (k', v') :: delete k rest
  end.
End Ops.
End JsMap.

(** ** The libraries

    libsodium and cbor-x are taken as they are documented: a function that
    throws returns [None].  [randombytes_buf n] is the [n]-th draw of the
    random source. *)
Class Sodium := {
  crypto_box_seal : bytes -> bytes -> bytes;
  crypto_box_seal_open : bytes -> bytes -> bytes -> option bytes;
  crypto_secretbox_easy : bytes -> bytes -> bytes -> bytes;
  crypto_secretbox_open_easy : bytes -> bytes -> bytes -> option bytes;
  crypto_secretbox_keygen : nat -> bytes;
  randombytes_buf : nat -> bytes;
  to_base64 : bytes -> string;
  from_base64 : string -> option bytes;
  from_string : string -> bytes;
  to_string : bytes -> option string
}.

(** What the library documents: a box opens under the key and nonce it was
    made with, and the two text codecs invert. *)
Class SodiumLaws (S : Sodium) := {
  secretbox_open_easy :
    forall m n k, crypto_secretbox_open_easy (crypto_secretbox_easy m n k) n k = Some m;
  from_to_base64 : forall b, from_base64 (to_base64 b) = Some b;
  to_from_string : forall s, to_string (from_string s) = Some s
}.

Class Cbor := {
  encode : value -> bytes;
  decode : bytes -> option value
}.

Class CborLaws (C : Cbor) := {
  decode_encode : forall v, decode (encode v) = Some v
}.

(** ** The relay: [TunnelServer] *)
Module Server.

Definition socket := nat.

(** The messages of the control channel, as the type guards narrow them. *)
Record ControlChannelKXConfirm := { sealedSymmetricKey : string }.

Record ControlChannelEncryptedMessage := { nonce : bytes; ciphertext : bytes }.

Record RAEncryptedHTTPRequest := {
  requestId : string;
  method : string;
  url : string;
  headers : value;
  body : value
}.

Record RAEncryptedClientConnectEvent := {
  connect_connectionId : string;
  connect_url : string;
  protocols : value
}.

Inductive ws_data := Text (s : string) | Binary (b : bytes).
Inductive data_type := DString | DArraybuffer.

Record RAEncryptedWSMessage := {
  message_connectionId : string;
  data : ws_data;
  dataType : data_type
}.

Record RAEncryptedClientCloseEvent := {
  close_connectionId : string;
  code : option Z;
  reason : option string
}.

(** A [ServerRAMockWebSocket]: the [n]-th socket the relay created, with
    the two variables its callbacks close over. *)
Record ServerRAMockWebSocket := {
  mock_id : nat;
  mock_connectionId : string;
  mock_controlWs : socket
}.

Record connection := { mockWs : ServerRAMockWebSocket; controlWs : socket }.

(** What the relay hands to the host application: a request for the
    Express app, or an event of a mock socket. *)
Inductive delivery :=
| DRequest (req : RAEncryptedHTTPRequest)
| DConnection (mock : ServerRAMockWebSocket)
| DMessage (mock : ServerRAMockWebSocket) (as_buffer : bool) (d : ws_data)
| DClose (mock : ServerRAMockWebSocket) (c : option Z) (r : option string).

Inductive thrown := ThrownError (message : string) | ThrownOther.

(** The events of a mock HTTP response. *)
Inductive res_event :=
| ResEnd (statusCode : Z) (statusMessage : string) (hdrs : value) (dat : value)
| ResError (message : string).

(** How the host reacts to a delivery: the response events it emits before
    it returns, and the exception it raises, if any. *)
Record reaction := { emitted : list res_event; raised : option thrown }.

(** The host application and the helpers of utils/server.js. *)
Class Host := {
  host_state : Type;
  deliver : host_state -> delivery -> host_state * reaction;
  getStatusText : Z -> string;
  sanitizeHeaders : value -> value
}.

(** The type guards of typeguards.js: [Some] when the guard holds, with the
    message at the type the guard narrows it to. *)
Class TypeGuards := {
  isControlChannelKXConfirm : value -> option ControlChannelKXConfirm;
  isControlChannelEncryptedMessage : value -> option ControlChannelEncryptedMessage;
  isRAEncryptedHTTPRequest : value -> option RAEncryptedHTTPRequest;
  isRAEncryptedClientConnectEvent : value -> option RAEncryptedClientConnectEvent;
  isRAEncryptedWSMessage : value -> option RAEncryptedWSMessage;
  isRAEncryptedClientCloseEvent : value -> option RAEncryptedClientCloseEvent
}.

Inductive upgrade_action := HandleUpgrade | SocketDestroy.

(** What leaves the relay. *)
Inductive effect :=
| Accept (ws : socket)
| Destroy (ws : socket)
| Send (ws : socket) (frame : bytes)
| Deliver (d : delivery)
| Console (msg : string).

Section Relay.
Context {S : Sodium} {C : Cbor} {G : TypeGuards} {H : Host}.

Record state := {
  x25519PublicKey : bytes;
  x25519PrivateKey : bytes;
  quote : bytes;
  webSocketConnections : list (string * connection);
  symmetricKeyBySocket : gmap socket bytes;
  clients : list ServerRAMockWebSocket;
  created : nat;
  draws : nat;
  host : host_state
}.

Definition set_connections f (s : state) : state :=
  {| x25519PublicKey := x25519PublicKey s; x25519PrivateKey := x25519PrivateKey s;
     quote := quote s; webSocketConnections := f (webSocketConnections s);
     symmetricKeyBySocket := symmetricKeyBySocket s; clients := clients s;
     created := created s; draws := draws s; host := host s |}.

Definition set_keys f (s : state) : state :=
  {| x25519PublicKey := x25519PublicKey s; x25519PrivateKey := x25519PrivateKey s;
     quote := quote s; webSocketConnections := webSocketConnections s;
     symmetricKeyBySocket := f (symmetricKeyBySocket s); clients := clients s;
     created := created s; draws := draws s; host := host s |}.

Definition set_clients f (s : state) : state :=
  {| x25519PublicKey := x25519PublicKey s; x25519PrivateKey := x25519PrivateKey s;
     quote := quote s; webSocketConnections := webSocketConnections s;
     symmetricKeyBySocket := symmetricKeyBySocket s; clients := f (clients s);
     created := created s; draws := draws s; host := host s |}.

Definition set_created f (s : state) : state :=
  {| x25519PublicKey := x25519PublicKey s; x25519PrivateKey := x25519PrivateKey s;
     quote := quote s; webSocketConnections := webSocketConnections s;
     symmetricKeyBySocket := symmetricKeyBySocket s; clients := clients s;
     created := f (created s); draws := draws s; host := host s |}.

Definition set_draws f (s : state) : state :=
  {| x25519PublicKey := x25519PublicKey s; x25519PrivateKey := x25519PrivateKey s;
     quote := quote s; webSocketConnections := webSocketConnections s;
     symmetricKeyBySocket := symmetricKeyBySocket s; clients := clients s;
     created := created s; draws := f (draws s); host := host s |}.

Definition set_host (h : host_state) (s : state) : state :=
  {| x25519PublicKey := x25519PublicKey s; x25519PrivateKey := x25519PrivateKey s;
     quote := quote s; webSocketConnections := webSocketConnections s;
     symmetricKeyBySocket := symmetricKeyBySocket s; clients := clients s;
     created := created s; draws := draws s; host := h |}.

(** *** Statements: state, output and exceptions *)
Definition M (A : Type) : Type := state -> (thrown + A) * state * list effect.

Definition ret {A} (a : A) : M A := fun s => (inr a, s, []).

Definition bind {A B} (m : M A) (k : A -> M B) : M B := fun s =>
  match m s with
  | (inl e, s1, out) => (inl e, s1, out)
  | (inr a, s1, out) =>
      match k a s1 with (r, s2, out') => (r, s2, out ++ out') end
  end.

Definition throw {A} (e : thrown) : M A := fun s => (inl e, s, []).

(** [try { m } catch (e) { h e }] *)
Definition try_catch {A} (m : M A) (h : thrown -> M A) : M A := fun s =>
  match m s with
  | (inl e, s1, out) =>
      match h e s1 with (r, s2, out') => (r, s2, out ++ out') end
  | r => r
  end.

Definition tell (e : effect) : M unit := fun s => (inr tt, s, [e]).
Definition gets {A} (f : state -> A) : M A := fun s => (inr (f s), s, []).
Definition modify (f : state -> state) : M unit := fun s => (inr tt, f s, []).

(** A library call that throws when it returns [None]. *)
Definition lift {A} (o : option A) : M A :=
  match o with Some a => ret a | None => throw ThrownOther end.

Fixpoint for_each {A} (l : list A) (f : A -> M unit) : M unit :=
  match l with
  | [] => ret tt
  | a :: rest => bind (f a) (fun _ => for_each rest f)
  end.

Notation "x <- m ;; k" := (bind m (fun x => k))
  (at level 100, m at next level, right associativity).
Notation "m ;;; k" := (bind m (fun _ => k))
  (at level 100, right associativity).

(** [logWebSocketConnections]: the [debug] lines print nothing that the
    relay depends on; the warning about stray keys is kept. *)
Definition logWebSocketConnections : M unit :=
  entries <- gets webSocketConnections ;;
  keys <- gets symmetricKeyBySocket ;;
  let trackedSockets := map (fun e => controlWs (snd e)) entries in
  let strayKeys :=
    filter (fun ws => ws ∉ trackedSockets) (map fst (map_to_list keys)) in
  if (0 <? List.length strayKeys)%nat
  then tell (Console "symmetric key(s) not associated with a tracked connection")
  else ret tt.

Definition encryptForSocket (ws : socket) (payload : value)
  : M ControlChannelEncryptedMessage :=
  key <- gets (fun s => symmetricKeyBySocket s !! ws) ;;
  match key with
  | None =>
      logWebSocketConnections ;;;
      throw (ThrownError "Missing symmetric key for socket (outbound)")
  | Some key =>
      n <- gets draws ;;
      modify (set_draws Datatypes.S) ;;;
      let nonce := randombytes_buf n in
      let plaintext := encode payload in
      let ciphertext := crypto_secretbox_easy plaintext nonce key in
      ret {| nonce := nonce; ciphertext := ciphertext |}
  end.

Definition decryptEnvelopeForSocket (ws : socket)
    (envelope : ControlChannelEncryptedMessage) : M value :=
  key <- gets (fun s => symmetricKeyBySocket s !! ws) ;;
  match key with
  | None =>
      logWebSocketConnections ;;;
      throw (ThrownError "Missing symmetric key for socket (inbound)")
  | Some key =>
      plaintext <-
        lift (crypto_secretbox_open_easy (ciphertext envelope) (nonce envelope) key) ;;
      lift (decode plaintext)
  end.

(** The envelope as the object literal [{ type: "enc", nonce, ciphertext }]. *)
Definition envelope_value (env : ControlChannelEncryptedMessage) : value :=
  VObj [("type", VStr "enc"); ("nonce", VBytes (nonce env));
        ("ciphertext", VBytes (ciphertext env))].

(** The envelope of [payload] under [key] with the [n]-th draw as nonce,
    and the frame that carries it. *)
Definition sealed (key : bytes) (n : nat) (payload : value)
  : ControlChannelEncryptedMessage :=
  {| nonce := randombytes_buf n;
     ciphertext := crypto_secretbox_easy (encode payload) (randombytes_buf n) key |}.

Definition frame (key : bytes) (n : nat) (payload : value) : bytes :=
  encode (envelope_value (sealed key n payload)).

Definition sendEncrypted (ws : socket) (payload : value) : M unit :=
  env <- encryptForSocket ws payload ;;
  tell (Send ws (encode (envelope_value env))).

(** *** The mock WebSocket and its server *)

(** What the host's listeners make of an event: the new state of the
    host, the events its response emits and what it raises. *)
Definition hand (d : delivery) : M reaction := fun s =>
  let '(h, r) := deliver (host s) d in (inr r, set_host h s, [Deliver d]).

Definition listeners (d : delivery) : M unit :=
  r <- hand d ;;
  match raised r with Some e => throw e | None => ret tt end.

(** Modelled from the spec: ServerRAWebSocket.js is not among the
    sources.  The mock socket hands a message to the listeners of the
    host socket, as text or as a buffer; a listener that raises makes the
    call raise. *)
Definition emitMessage (mock : ServerRAMockWebSocket) (as_buffer : bool)
    (d : ws_data) : M unit :=
  listeners (DMessage mock as_buffer d).

(** Modelled from the spec: ServerRAWebSocket.js is not among the
    sources.  The mock socket hands a close, with its code and reason, to
    the listeners of the host socket. *)
Definition emitClose (mock : ServerRAMockWebSocket) (c : option Z)
    (r : option string) : M unit :=
  listeners (DClose mock c r).

(** Modelled from the spec: ServerRAWebSocket.js is not among the
    sources.  The mock server registers the socket and announces the
    connection to the host. *)
Definition addClient (mock : ServerRAMockWebSocket) : M unit :=
  modify (set_clients (fun l => l ++ [mock])) ;;;
  listeners (DConnection mock).

(** Modelled from the spec: ServerRAWebSocket.js is not among the
    sources.  The mock server forgets the socket. *)
Definition deleteClient (mock : ServerRAMockWebSocket) : M unit :=
  modify (set_clients (filter (fun m => mock_id m ≠ mock_id mock))).

(** *** The connection handler of [#setupControlChannel] *)
Definition serverKxMessage (s : state) : value :=
  VObj [("type", VStr "server_kx");
        ("x25519PublicKey", VStr (to_base64 (x25519PublicKey s)));
        ("quote", VStr (to_base64 (quote s)))].

Definition on_connection (ws : socket) : M unit :=
  msg <- gets serverKxMessage ;;
  tell (Send ws (encode msg)).

(** The first loop of the close listener; it returns [toRemove]. *)
Fixpoint cleanup (ws : socket) (entries : list (string * connection))
  : M (list string) :=
  match entries with
  | [] => ret []
  | (connId, conn) :: rest =>
      removed <-
        (if bool_decide (controlWs conn = ws) then
           try_catch
             (emitClose (mockWs conn) (Some 1006) (Some "tunnel closed") ;;;
              deleteClient (mockWs conn) ;;;
              modify (set_keys (delete (controlWs conn))) ;;;
              ret [connId])
             (fun _ =>
                tell (Console "Unexpected error cleaning up control ws") ;;;
                ret [])
         else ret []) ;;
      more <- cleanup ws rest ;;
      ret (removed ++ more)
  end.

(** [controlWs.on("close", ...)] *)
Definition on_close (ws : socket) : M unit :=
  modify (set_keys (delete ws)) ;;;
  entries <- gets webSocketConnections ;;
  toRemove <- cleanup ws entries ;;
  for_each toRemove (fun id => modify (set_connections (JsMap.delete id))).

(** *** [#handleTunnelHttpRequest] *)
Definition errorResponse (rid : string) (msg : string) : value :=
  VObj [("type", VStr "http_response"); ("requestId", VStr rid);
        ("status", VNum 500); ("statusText", VStr "Internal Server Error");
        ("headers", VObj []); ("body", VStr ""); ("error", VStr msg)].

Definition response (rid : string) (statusCode : Z) (statusMessage : string)
    (hdrs dat : value) : value :=
  VObj [("type", VStr "http_response"); ("requestId", VStr rid);
        ("status", VNum statusCode);
        ("statusText",
          VStr (if String.eqb statusMessage "" then getStatusText statusCode
                else statusMessage));
        ("headers", sanitizeHeaders hdrs); ("body", dat)].

(** The listeners [res.on("end", ...)] and [res.on("error", ...)]. *)
Definition on_res_event (ws : socket) (rid : string) (ev : res_event) : M unit :=
  match ev with
  | ResEnd statusCode statusMessage hdrs dat =>
      try_catch (sendEncrypted ws (response rid statusCode statusMessage hdrs dat))
        (fun _ => tell (Console "Failed to send encrypted http_response"))
  | ResError message =>
      try_catch (sendEncrypted ws (errorResponse rid message))
        (fun _ => tell (Console "Failed to send encrypted error http_response"))
  end.

(** The [try] block builds the mock request and response and runs the
    Express app on them; what it raises, and the events the response
    emits meanwhile, are the host's [reaction]. *)
Definition handleTunnelHttpRequest (ws : socket) (tunnelReq : RAEncryptedHTTPRequest)
  : M unit :=
  try_catch
    (r <- hand (DRequest tunnelReq) ;;
     for_each (emitted r) (on_res_event ws (requestId tunnelReq)) ;;;
     match raised r with Some e => throw e | None => ret tt end)
    (fun error =>
       let msg := match error with
                  | ThrownError message => message
                  | ThrownOther => "Unknown error"
                  end in
       try_catch (sendEncrypted ws (errorResponse (requestId tunnelReq) msg))
         (fun _ => tell (Console "Failed to send encrypted catch http_response"))).

(** *** The virtual WebSocket handlers *)
Definition ws_event (cid eventType : string) (extra : list (string * value)) : value :=
  VObj ([("type", VStr "ws_event"); ("connectionId", VStr cid);
         ("eventType", VStr eventType)] ++ extra).

Definition handleTunnelWebSocketConnect (ws : socket)
    (connectReq : RAEncryptedClientConnectEvent) : M unit :=
  let cid := connect_connectionId connectReq in
  try_catch
    (n <- gets created ;;
     modify (set_created Datatypes.S) ;;;
     let mock := {| mock_id := n; mock_connectionId := cid; mock_controlWs := ws |} in
     modify (set_connections (JsMap.set cid {| mockWs := mock; controlWs := ws |})) ;;;
     addClient mock ;;;
     try_catch (sendEncrypted ws (ws_event cid "open" []))
       (fun _ => tell (Console "Failed to send encrypted ws_event(open)")))
    (fun error =>
       tell (Console "Error creating WebSocket connection") ;;;
       let msg := match error with
                  | ThrownError message => message
                  | ThrownOther => "Connection failed"
                  end in
       try_catch (sendEncrypted ws (ws_event cid "error" [("error", VStr msg)]))
         (fun _ => tell (Console "Failed to send encrypted ws_event(error catch)"))).

Definition handleTunnelWebSocketMessage (messageReq : RAEncryptedWSMessage) : M unit :=
  conn <- gets (fun s => JsMap.get (message_connectionId messageReq)
                           (webSocketConnections s)) ;;
  match conn with
  | Some connection =>
      try_catch
        (emitMessage (mockWs connection)
           (match dataType messageReq with DArraybuffer => true | DString => false end)
           (data messageReq))
        (fun _ => tell (Console "Error sending message to WebSocket"))
  | None => ret tt
  end.

Definition handleTunnelWebSocketClose (closeReq : RAEncryptedClientCloseEvent) : M unit :=
  conn <- gets (fun s => JsMap.get (close_connectionId closeReq)
                           (webSocketConnections s)) ;;
  match conn with
  | Some connection =>
      try_catch (emitClose (mockWs connection) (code closeReq) (reason closeReq))
        (fun _ => tell (Console "Error closing WebSocket")) ;;;
      try_catch (deleteClient (mockWs connection)) (fun _ => ret tt) ;;;
      modify (set_connections (JsMap.delete (close_connectionId closeReq)))
  | None => ret tt
  end.

(** The callbacks a mock socket was built with: the host sends or closes. *)
Inductive payload := PString (s : string) | PBuffer (b : bytes) (isTextData : bool)
                   | POther (rendered : string).

Definition ws_message (cid : string) (p : payload) : value :=
  let '(messageData, dataType) :=
    match p with
    | PString s => (VStr s, "string")
    | PBuffer b true => (VStr (default "" (to_string b)), "string")
    | PBuffer b false => (VBytes b, "arraybuffer")
    | POther rendered => (VStr rendered, "string")
    end in
  VObj [("type", VStr "ws_message"); ("connectionId", VStr cid);
        ("data", messageData); ("dataType", VStr dataType)].

Definition onSend (mock : ServerRAMockWebSocket) (p : payload) : M unit :=
  try_catch
    (sendEncrypted (mock_controlWs mock) (ws_message (mock_connectionId mock) p))
    (fun _ => tell (Console "Failed to send encrypted ws_message")).

Definition opt_num (o : option Z) : value :=
  match o with Some z => VNum z | None => VUndefined end.
Definition opt_str (o : option string) : value :=
  match o with Some z => VStr z | None => VUndefined end.

Definition onClose (mock : ServerRAMockWebSocket) (c : option Z) (r : option string)
  : M unit :=
  try_catch
    (sendEncrypted (mock_controlWs mock)
       (ws_event (mock_connectionId mock) "close"
          [("code", opt_num c); ("reason", opt_str r)]))
    (fun _ => tell (Console "Failed to send encrypted ws_event(close)")).

(** *** The patched [controlWs.emit] *)

(** The calls after decryption, in the order of the [if] chain. *)
Definition dispatch (ws : socket) (message : value) : M unit :=
  match isRAEncryptedHTTPRequest message with
  | Some req =>
      logWebSocketConnections ;;;
      handleTunnelHttpRequest ws req
  | None =>
  match isRAEncryptedClientConnectEvent message with
  | Some req => handleTunnelWebSocketConnect ws req
  | None =>
  match isRAEncryptedWSMessage message with
  | Some req => handleTunnelWebSocketMessage req
  | None =>
  match isRAEncryptedClientCloseEvent message with
  | Some req => handleTunnelWebSocketClose req
  | None => tell (Console "Received message after close")
  end end end end.

Definition client_kx (ws : socket) (message : ControlChannelKXConfirm) : M unit :=
  try_catch
    (keys <- gets symmetricKeyBySocket ;;
     match keys !! ws with
     | None =>
         sealed <- lift (from_base64 (sealedSymmetricKey message)) ;;
         pk <- gets x25519PublicKey ;;
         sk <- gets x25519PrivateKey ;;
         opened <- lift (crypto_box_seal_open sealed pk sk) ;;
         modify (set_keys (insert ws opened))
     | Some _ =>
         tell (Console "client_kx received after key already set; ignoring")
     end)
    (fun _ => tell (Console "Failed to process client_kx")).

Definition on_message (ws : socket) (dat : bytes) : M unit :=
  match decode dat with
  | None => tell (Console "Received invalid CBOR message")
  | Some message =>
      match isControlChannelKXConfirm message with
      | Some kx => client_kx ws kx
      | None =>
          keys <- gets symmetricKeyBySocket ;;
          match keys !! ws with
          | None => tell (Console "Dropping message before handshake completion")
          | Some _ =>
              match isControlChannelEncryptedMessage message with
              | None => tell (Console "Dropping non-encrypted message post-handshake")
              | Some envelope =>
                  decrypted <-
                    try_catch
                      (inner <- decryptEnvelopeForSocket ws envelope ;;
                       ret (Some inner))
                      (fun _ =>
                         tell (Console "Failed to decrypt envelope") ;;;
                         ret None) ;;
                  match decrypted with
                  | Some inner => dispatch ws inner
                  | None => ret tt
                  end
              end
          end
      end
  end.

Definition emit (ws : socket) (event : string) (dat : bytes) : M unit :=
  if String.eqb event "message" then on_message ws dat
  else if String.eqb event "close" then on_close ws
  else tell (Console "Received message after close").

(** *** The upgrade listener of the constructor *)
Definition upgrade (req_url : option string) : upgrade_action :=
  let url := default "" req_url in
  if String.prefix "/__ra__" url then HandleUpgrade else SocketDestroy.

(** *** The relay as a transition system *)
Inductive input :=
| Upgrade (req_url : option string) (ws : socket)
| Emit (ws : socket) (event : string) (dat : bytes)
| ResEmit (ws : socket) (rid : string) (ev : res_event)
| MockSend (mock : ServerRAMockWebSocket) (p : payload)
| MockClose (mock : ServerRAMockWebSocket) (c : option Z) (r : option string).

Definition handler (i : input) : M unit :=
  match i with
  | Upgrade req_url ws =>
      match upgrade req_url with
      | HandleUpgrade => tell (Accept ws) ;;; on_connection ws
      | SocketDestroy => tell (Destroy ws)
      end
  | Emit ws event dat => emit ws event dat
  | ResEmit ws rid ev => on_res_event ws rid ev
  | MockSend mock p => onSend mock p
  | MockClose mock c r => onClose mock c r
  end.

Definition exec {A} (m : M A) (s : state) : state * list effect :=
  match m s with (_, s', out) => (s', out) end.

Definition step (s : state) (i : input) : state * list effect := exec (handler i) s.

Fixpoint run (s : state) (trace : list input) : state * list effect :=
  match trace with
  | [] => (s, [])
  | i :: rest =>
      let '(s1, out) := step s i in
      let '(s2, out') := run s1 rest in (s2, out ++ out')
  end.

(** The inner message that [on_message] hands to [dispatch], if any. *)
Definition inner (s : state) (i : input) : option value :=
  match i with
  | Emit ws event dat =>
      if String.eqb event "message" then
        match decode dat with
        | Some message =>
            match isControlChannelKXConfirm message,
                  isControlChannelEncryptedMessage message with
            | None, Some envelope =>
                match decryptEnvelopeForSocket ws envelope s with
                | (inr decrypted, _, _) => Some decrypted
                | _ => None
                end
            | _, _ => None
            end
        | None => None
        end
      else None
  | _ => None
  end.



(** *** Properties of the state that the statements keep *)
Definition inv (P : state -> Prop) {A} (m : M A) : Prop :=
  forall s, P s -> P (snd (fst (m s))).

(** A property that does not read the counters, the host and the
    client set. *)
Definition framed (P : state -> Prop) : Prop :=
  (forall f s, P s -> P (set_draws f s)) /\
  (forall h s, P s -> P (set_host h s)) /\
  (forall f s, P s -> P (set_clients f s)) /\
  (forall f s, P s -> P (set_created f s)).

Definition keeps_key (ws : socket) (k : bytes) (s : state) : Prop :=
  symmetricKeyBySocket s !! ws = Some k.

Definition absent (cid : string) (s : state) : Prop :=
  JsMap.get cid (webSocketConnections s) = None.

(** The input is the close of the control socket [ws]. *)
Definition closes (ws : socket) (i : input) : Prop :=
  exists dat, i = Emit ws "close" dat.

(** No close listener of the host raises. *)
Definition quiet_close : Prop :=
  forall h mock c r, raised (snd (deliver h (DClose mock c r))) = None.

(** The message that answers a response event. *)
Definition res_payload (rid : string) (ev : res_event) : value :=
  match ev with
  | ResEnd statusCode statusMessage hdrs dat =>
      response rid statusCode statusMessage hdrs dat
  | ResError message => errorResponse rid message
  end.
End Relay.
End Server.

(** ** The client: [RA] (src/tunnel/client.ts) *)
Module Client.

Inductive readyState := CONNECTING | OPEN | CLOSING | CLOSED.

(** An exception: [new Error(message)], where [message] is the argument as
    it was passed, or an error raised inside a library. *)
Inductive exn := Error (message : value) | LibraryError.

(** The [Response] objects of the browser. *)
Class Responses := { Response : Type }.

(** The browser: the [Response] constructor ([None] when it throws), the
    control URL made from the origin with [new URL] ([None] when it or
    [new WebSocket] throws) and [generateRequestId] of utils/client.js, as
    its [n]-th result. *)
Class Browser {R : Responses} := {
  new_Response : value -> value -> value -> value -> option Response;
  controlUrl : string -> option string;
  generateRequestId : nat -> string
}.

(** Request ids are unique within a session. *)
Class FreshIds {R : Responses} (B : Browser) := {
  generateRequestId_inj : forall m n, generateRequestId m = generateRequestId n -> m = n
}.

Inductive headers_init :=
| HeadersObject (entries : list (string * string))
| HeadersArray (entries : list (string * string))
| HeadersRecord (entries : list (string * string)).

Record RequestInit := {
  init_method : option string;
  init_headers : option headers_init;
  init_body : value
}.

(** A call of [fetch] suspended at [await this.ensureConnection()]. *)
Record suspended := {
  returned : nat;
  input_url : string;
  init_of : option RequestInit;
  awaited : nat
}.

Inductive timer := TimeoutRequest (requestId : string) (promise : nat) | Reconnect.

Inductive effect :=
| NewWebSocket (i : nat) (url : string)
| WsSend (i : nat) (dat : string)
| TunnelEvent (connectionId : string) (event : value)
| TunnelMessage (connectionId : string) (message : value)
| Console (msg : string).

Section RA.
Context {S : Sodium} {R : Responses} {B : Browser}.

Inductive resolution := Void | Fetched (r : Response).
Inductive outcome := Resolved (r : resolution) | Rejected (e : exn).

(** The fields of [RA], and around them the sockets it opened (each with
    its [readyState] and the promise its handlers settle), the promises,
    the calls of [fetch] that await a connection, the timers and the
    clock (in milliseconds), and the draws of the random sources. *)
Record state := {
  origin : string;
  ws : option nat;
  sockets : gmap nat (readyState * nat);
  opened : nat;
  serverX25519PublicKey : option bytes;
  symmetricKey : option bytes;
  pendingRequests : gmap string nat;
  webSocketConnections : gset string;
  connectionPromise : option nat;
  settled : gmap nat outcome;
  promises : nat;
  awaiting : list suspended;
  timers : list (Z * timer);
  now : Z;
  draws : nat;
  generated : nat;
  issued : nat
}.

Definition set_origin (f : string -> string) (s : state) : state :=
  let '(Build_state v0 v1 v2 v3 v4 v5 v6 v7 v8 v9 v10 v11 v12 v13 v14 v15 v16) := s in
  Build_state (f v0) v1 v2 v3 v4 v5 v6 v7 v8 v9 v10 v11 v12 v13 v14 v15 v16.
Definition set_ws (f : option nat -> option nat) (s : state) : state :=
  let '(Build_state v0 v1 v2 v3 v4 v5 v6 v7 v8 v9 v10 v11 v12 v13 v14 v15 v16) := s in
  Build_state v0 (f v1) v2 v3 v4 v5 v6 v7 v8 v9 v10 v11 v12 v13 v14 v15 v16.
Definition set_sockets (f : gmap nat (readyState * nat) -> gmap nat (readyState * nat)) (s : state) : state :=
  let '(Build_state v0 v1 v2 v3 v4 v5 v6 v7 v8 v9 v10 v11 v12 v13 v14 v15 v16) := s in
  Build_state v0 v1 (f v2) v3 v4 v5 v6 v7 v8 v9 v10 v11 v12 v13 v14 v15 v16.
Definition set_opened (f : nat -> nat) (s : state) : state :=
  let '(Build_state v0 v1 v2 v3 v4 v5 v6 v7 v8 v9 v10 v11 v12 v13 v14 v15 v16) := s in
  Build_state v0 v1 v2 (f v3) v4 v5 v6 v7 v8 v9 v10 v11 v12 v13 v14 v15 v16.
Definition set_serverX25519PublicKey (f : option bytes -> option bytes) (s : state) : state :=
  let '(Build_state v0 v1 v2 v3 v4 v5 v6 v7 v8 v9 v10 v11 v12 v13 v14 v15 v16) := s in
  Build_state v0 v1 v2 v3 (f v4) v5 v6 v7 v8 v9 v10 v11 v12 v13 v14 v15 v16.
Definition set_symmetricKey (f : option bytes -> option bytes) (s : state) : state :=
  let '(Build_state v0 v1 v2 v3 v4 v5 v6 v7 v8 v9 v10 v11 v12 v13 v14 v15 v16) := s in
  Build_state v0 v1 v2 v3 v4 (f v5) v6 v7 v8 v9 v10 v11 v12 v13 v14 v15 v16.
Definition set_pendingRequests (f : gmap string nat -> gmap string nat) (s : state) : state :=
  let '(Build_state v0 v1 v2 v3 v4 v5 v6 v7 v8 v9 v10 v11 v12 v13 v14 v15 v16) := s in
  Build_state v0 v1 v2 v3 v4 v5 (f v6) v7 v8 v9 v10 v11 v12 v13 v14 v15 v16.
Definition set_webSocketConnections (f : gset string -> gset string) (s : state) : state :=
  let '(Build_state v0 v1 v2 v3 v4 v5 v6 v7 v8 v9 v10 v11 v12 v13 v14 v15 v16) := s in
  Build_state v0 v1 v2 v3 v4 v5 v6 (f v7) v8 v9 v10 v11 v12 v13 v14 v15 v16.
Definition set_connectionPromise (f : option nat -> option nat) (s : state) : state :=
  let '(Build_state v0 v1 v2 v3 v4 v5 v6 v7 v8 v9 v10 v11 v12 v13 v14 v15 v16) := s in
  Build_state v0 v1 v2 v3 v4 v5 v6 v7 (f v8) v9 v10 v11 v12 v13 v14 v15 v16.
Definition set_settled (f : gmap nat outcome -> gmap nat outcome) (s : state) : state :=
  let '(Build_state v0 v1 v2 v3 v4 v5 v6 v7 v8 v9 v10 v11 v12 v13 v14 v15 v16) := s in
  Build_state v0 v1 v2 v3 v4 v5 v6 v7 v8 (f v9) v10 v11 v12 v13 v14 v15 v16.
Definition set_promises (f : nat -> nat) (s : state) : state :=
  let '(Build_state v0 v1 v2 v3 v4 v5 v6 v7 v8 v9 v10 v11 v12 v13 v14 v15 v16) := s in
  Build_state v0 v1 v2 v3 v4 v5 v6 v7 v8 v9 (f v10) v11 v12 v13 v14 v15 v16.
Definition set_awaiting (f : list suspended -> list suspended) (s : state) : state :=
  let '(Build_state v0 v1 v2 v3 v4 v5 v6 v7 v8 v9 v10 v11 v12 v13 v14 v15 v16) := s in
  Build_state v0 v1 v2 v3 v4 v5 v6 v7 v8 v9 v10 (f v11) v12 v13 v14 v15 v16.
Definition set_timers (f : list (Z * timer) -> list (Z * timer)) (s : state) : state :=
  let '(Build_state v0 v1 v2 v3 v4 v5 v6 v7 v8 v9 v10 v11 v12 v13 v14 v15 v16) := s in
  Build_state v0 v1 v2 v3 v4 v5 v6 v7 v8 v9 v10 v11 (f v12) v13 v14 v15 v16.
Definition set_now (f : Z -> Z) (s : state) : state :=
  let '(Build_state v0 v1 v2 v3 v4 v5 v6 v7 v8 v9 v10 v11 v12 v13 v14 v15 v16) := s in
  Build_state v0 v1 v2 v3 v4 v5 v6 v7 v8 v9 v10 v11 v12 (f v13) v14 v15 v16.
Definition set_draws (f : nat -> nat) (s : state) : state :=
  let '(Build_state v0 v1 v2 v3 v4 v5 v6 v7 v8 v9 v10 v11 v12 v13 v14 v15 v16) := s in
  Build_state v0 v1 v2 v3 v4 v5 v6 v7 v8 v9 v10 v11 v12 v13 (f v14) v15 v16.
Definition set_generated (f : nat -> nat) (s : state) : state :=
  let '(Build_state v0 v1 v2 v3 v4 v5 v6 v7 v8 v9 v10 v11 v12 v13 v14 v15 v16) := s in
  Build_state v0 v1 v2 v3 v4 v5 v6 v7 v8 v9 v10 v11 v12 v13 v14 (f v15) v16.
Definition set_issued (f : nat -> nat) (s : state) : state :=
  let '(Build_state v0 v1 v2 v3 v4 v5 v6 v7 v8 v9 v10 v11 v12 v13 v14 v15 v16) := s in
  Build_state v0 v1 v2 v3 v4 v5 v6 v7 v8 v9 v10 v11 v12 v13 v14 v15 (f v16).

Definition M (A : Type) : Type := state -> (exn + A) * state * list effect.

Definition ret {A} (a : A) : M A := fun s => (inr a, s, []).

Definition bind {A C} (m : M A) (k : A -> M C) : M C := fun s =>
  match m s with
  | (inl e, s1, out) => (inl e, s1, out)
  | (inr a, s1, out) =>
      match k a s1 with (r, s2, out') => (r, s2, out ++ out') end
  end.

Definition throw {A} (e : exn) : M A := fun s => (inl e, s, []).

Definition try_catch {A} (m : M A) (h : exn -> M A) : M A := fun s =>
  match m s with
  | (inl e, s1, out) =>
      match h e s1 with (r, s2, out') => (r, s2, out ++ out') end
  | r => r
  end.

Definition tell (e : effect) : M unit := fun s => (inr tt, s, [e]).
Definition gets {A} (f : state -> A) : M A := fun s => (inr (f s), s, []).
Definition modify (f : state -> state) : M unit := fun s => (inr tt, f s, []).

Definition lift {A} (o : option A) : M A :=
  match o with Some a => ret a | None => throw LibraryError end.

Fixpoint for_each {A} (l : list A) (f : A -> M unit) : M unit :=
  match l with
  | [] => ret tt
  | a :: rest => bind (f a) (fun _ => for_each rest f)
  end.

Notation "x <- m ;; k" := (bind m (fun x => k))
  (at level 100, m at next level, right associativity).
Notation "m ;;; k" := (bind m (fun _ => k))
  (at level 100, right associativity).

(** *** Promises and timers *)
Definition new_promise : M nat :=
  p <- gets promises ;;
  modify (set_promises Datatypes.S) ;;;
  ret p.

(** [resolve] and [reject]: the first call settles the promise. *)
Definition settle (p : nat) (o : outcome) : M unit :=
  modify (set_settled (fun m => match m !! p with Some _ => m | None => <[p := o]> m end)).

(** [setTimeout(callback, delay)]: kept in the order in which they fall due. *)
Fixpoint schedule (due : Z) (t : timer) (l : list (Z * timer)) : list (Z * timer) :=
  match l with
  | [] => [(due, t)]
  | (d, t') :: rest =>
      if d <=? due then (d, t') :: schedule due t rest else (due, t) :: l
  end.

Definition setTimeout (t : timer) (delay : Z) : M unit :=
  modify (fun s => set_timers (schedule (now s + delay) t) s).

Definition ready (s : state) : option readyState :=
  match ws s with
  | Some i => fst <$> sockets s !! i
  | None => None
  end.

Definition is_open (s : state) : bool :=
  match ready s with Some OPEN => true | _ => false end.

(** *** [encryptPayload], [decryptEnvelope] and [send] *)
Definition as_string (v : value) : M string :=
  match v with VStr x => ret x | _ => throw LibraryError end.

(** [sodium.from_string] of [undefined], the text of a payload that
    [JSON.stringify] does not write, is the empty sequence of bytes. *)
Definition encryptPayload (payload : value) : M value :=
  key <- gets symmetricKey ;;
  match key with
  | None => throw (Error (VStr "Missing symmetric key"))
  | Some key =>
      n <- gets draws ;;
      modify (set_draws Datatypes.S) ;;;
      let nonce := randombytes_buf n in
      let plaintext := from_string (default "" (JSON.stringify payload)) in
      let ciphertext := crypto_secretbox_easy plaintext nonce key in
      ret (VObj [("type", VStr "enc"); ("nonce", VStr (to_base64 nonce));
                 ("ciphertext", VStr (to_base64 ciphertext))])
  end.

Definition decryptEnvelope (envelope : value) : M value :=
  key <- gets symmetricKey ;;
  match key with
  | None => throw (Error (VStr "Missing symmetric key"))
  | Some key =>
      n <- lift (get_prop envelope "nonce") ;;
      n <- as_string n ;;
      nonce <- lift (from_base64 n) ;;
      c <- lift (get_prop envelope "ciphertext") ;;
      c <- as_string c ;;
      ciphertext <- lift (from_base64 c) ;;
      plaintext <- lift (crypto_secretbox_open_easy ciphertext nonce key) ;;
      text <- lift (to_string plaintext) ;;
      lift (JSON.parse text)
  end.

(** [typeof message === "object" && message?.type === "client_kx"] *)
Definition is_client_kx (message : value) : bool :=
  match message with
  | VObj props =>
      match assoc "type" props with
      | Some (VStr t) => String.eqb t "client_kx"
      | _ => false
      end
  | _ => false
  end.

Definition ws_send (text : option string) : M unit :=
  i <- gets ws ;;
  match i, text with
  | Some i, Some text => tell (WsSend i text)
  | Some i, None => tell (WsSend i "undefined")
  | None, _ => ret tt
  end.

Definition send (message : value) : M unit :=
  open <- gets is_open ;;
  if open then
    if is_client_kx message then ws_send (JSON.stringify message)
    else
      key <- gets symmetricKey ;;
      match key with
      | None => throw (Error (VStr "Encryption not ready: missing symmetric key"))
      | Some _ =>
          envelope <- encryptPayload message ;;
          ws_send (JSON.stringify envelope)
      end
  else throw (Error (VStr "WebSocket not connected")).

(** *** [fetch], after [await this.ensureConnection()] has returned *)
Definition headers_of (init : option RequestInit) : list (string * value) :=
  match init with
  | Some {| init_headers := Some (HeadersObject entries) |}
  | Some {| init_headers := Some (HeadersArray entries) |}
  | Some {| init_headers := Some (HeadersRecord entries) |} =>
      fold_left (fun props kv => JSON.define (fst kv) (VStr (snd kv))  props) entries []
  | _ => []
  end.

Definition body_of (init : option RequestInit) : value :=
  match init with
  | Some init =>
      if truthy (init_body init) then
        match init_body init with
        | VStr text => VStr text
        | other =>
            match JSON.stringify other with
            | Some text => VStr text
            | None => VUndefined
            end
        end
      else VUndefined
  | None => VUndefined
  end.

Definition method_of (init : option RequestInit) : string :=
  match init with
  | Some {| init_method := Some m |} => if String.eqb m "" then "GET" else m
  | _ => "GET"
  end.

Definition tunnelRequest (requestId url : string) (init : option RequestInit) : value :=
  VObj [("type", VStr "http_request"); ("requestId", VStr requestId);
        ("method", VStr (method_of init)); ("url", VStr url);
        ("headers", VObj (headers_of init));
        ("body", body_of init)].

(** The promise [p] is the one the call returned. *)
Definition fetch_body (p : nat) (url : string) (init : option RequestInit) : M unit :=
  n <- gets issued ;;
  modify (set_issued Datatypes.S) ;;;
  let requestId := generateRequestId n in
  modify (set_pendingRequests (insert requestId p)) ;;;
  sent <- try_catch (send (tunnelRequest requestId url init) ;;; ret true)
            (fun error => settle p (Rejected error) ;;; ret false) ;;
  if sent : bool then setTimeout (TimeoutRequest requestId p) 30000 else ret tt.

(** The callback of that timer. *)
Definition on_timeout (requestId : string) (p : nat) : M unit :=
  pending <- gets pendingRequests ;;
  match pending !! requestId with
  | Some _ =>
      modify (set_pendingRequests (delete requestId)) ;;;
      settle p (Rejected (Error (VStr "Request timeout")))
  | None => ret tt
  end.

(** *** [handleTunnelResponse] and the two WebSocket handlers *)
Definition prop (v : value) (k : string) : value :=
  default VUndefined (get_prop v k).

Definition handleTunnelResponse (response : value) : M unit :=
  pending <- gets pendingRequests ;;
  match prop response "requestId" with
  | VStr requestId =>
      match pending !! requestId with
      | None => ret tt
      | Some p =>
          modify (set_pendingRequests (delete requestId)) ;;;
          if truthy (prop response "error") then
            settle p (Rejected (Error (prop response "error")))
          else
            syntheticResponse <-
              lift (new_Response (prop response "body") (prop response "status")
                      (prop response "statusText") (prop response "headers")) ;;
            settle p (Resolved (Fetched syntheticResponse))
      end
  | _ => ret tt
  end.

(** [TunnelWebSocket.js] is not among the sources: what a tracked
    connection is handed is recorded as it is. *)
Definition handleWebSocketTunnelEvent (event : value) : M unit :=
  conns <- gets webSocketConnections ;;
  match prop event "connectionId" with
  | VStr cid =>
      if bool_decide (cid ∈ conns) then tell (TunnelEvent cid event) else ret tt
  | _ => ret tt
  end.

Definition handleWebSocketTunnelMessage (message : value) : M unit :=
  conns <- gets webSocketConnections ;;
  match prop message "connectionId" with
  | VStr cid =>
      if bool_decide (cid ∈ conns) then tell (TunnelMessage cid message) else ret tt
  | _ => ret tt
  end.

Definition registerWebSocketTunnel (connectionId : string) : M unit :=
  modify (set_webSocketConnections (fun c => {[connectionId]} ∪ c)).

Definition unregisterWebSocketTunnel (connectionId : string) : M unit :=
  modify (set_webSocketConnections (fun c => c ∖ {[connectionId]})).

(** *** [ensureConnection] and the handlers of the socket it opens *)

(** Settling a connection promise resumes the calls of [fetch] that
    await it: they go on, or fail with its error. *)
Definition resume (q : nat) (o : outcome) : M unit :=
  waiting <- gets awaiting ;;
  modify (set_awaiting (filter (fun a => awaited a ≠ q))) ;;;
  for_each (filter (fun a => awaited a = q) waiting)
    (fun a =>
       match o with
       | Resolved _ => fetch_body (returned a) (input_url a) (init_of a)
       | Rejected e => settle (returned a) (Rejected e)
       end).

Definition settle_connection (q : nat) (o : outcome) : M unit :=
  settle q o ;;;
  resume q o.

Definition set_ready (i : nat) (r : readyState) : M unit :=
  modify (set_sockets (fun m => match m !! i with
                                | Some (_, q) => <[i := (r, q)]> m
                                | None => m
                                end)).

Definition reconnectDelay : Z := 1000.

(** It returns the promise: a resolved one when the socket is open, the
    pending [connectionPromise] if there is one, a new one otherwise,
    whose executor opens the socket. *)
Definition ensureConnection : M nat :=
  open <- gets is_open ;;
  if open then
    p <- new_promise ;;
    settle p (Resolved Void) ;;;
    ret p
  else
    pending <- gets connectionPromise ;;
    match pending with
    | Some q => ret q
    | None =>
        q <- new_promise ;;
        try_catch
          (o <- gets origin ;;
           controlUrl <- lift (controlUrl o) ;;
           i <- gets opened ;;
           modify (set_opened Datatypes.S) ;;;
           modify (set_sockets (insert i (CONNECTING, q))) ;;;
           modify (set_ws (fun _ => Some i)) ;;;
           tell (NewWebSocket i controlUrl))
          (fun e => settle q (Rejected e)) ;;;
        modify (set_connectionPromise (fun _ => Some q)) ;;;
        ret q
    end.

Definition onclose : M unit :=
  modify (set_connectionPromise (fun _ => None)) ;;;
  setTimeout Reconnect reconnectDelay.

Definition onerror (q : nat) : M unit :=
  modify (set_connectionPromise (fun _ => None)) ;;;
  tell (Console "WebSocket error") ;;;
  settle_connection q (Rejected (Error (VStr "WebSocket connection failed"))).

Definition is_type (t : string) (v : value) : bool :=
  match v with VStr x => String.eqb x t | _ => false end.

Definition server_kx (q : nat) (message : value) : M unit :=
  try_catch
    (pk <- as_string (prop message "x25519PublicKey") ;;
     serverPub <- lift (from_base64 pk) ;;
     g <- gets generated ;;
     modify (set_generated Datatypes.S) ;;;
     let symmetricKey := crypto_secretbox_keygen g in
     let sealed := crypto_box_seal symmetricKey serverPub in
     modify (set_serverX25519PublicKey (fun _ => Some serverPub)) ;;;
     modify (set_symmetricKey (fun _ => Some symmetricKey)) ;;;
     send (VObj [("type", VStr "client_kx");
                 ("sealedSymmetricKey", VStr (to_base64 sealed))]) ;;;
     modify (set_connectionPromise (fun _ => None)) ;;;
     settle_connection q (Resolved Void))
    (fun e =>
       modify (set_connectionPromise (fun _ => None)) ;;;
       settle_connection q (Rejected e)).

(** What follows the decryption in [onmessage]. *)
Definition deliver (decrypted : value) : M unit :=
  t <- lift (get_prop decrypted "type") ;;
  if is_type "http_response" t then handleTunnelResponse decrypted
  else if is_type "ws_event" t then handleWebSocketTunnelEvent decrypted
  else if is_type "ws_message" t then handleWebSocketTunnelMessage decrypted
  else ret tt.

Definition onmessage (q : nat) (dat : string) : M unit :=
  try_catch
    (message <- lift (JSON.parse dat) ;;
     t <- lift (get_prop message "type") ;;
     if is_type "server_kx" t then server_kx q message
     else if is_type "enc" t then
       key <- gets symmetricKey ;;
       match key with
       | None => throw (Error (VStr "Missing symmetric key for encrypted message"))
       | Some _ =>
           decrypted <- decryptEnvelope message ;;
           deliver decrypted
       end
     else ret tt)
    (fun _ => tell (Console "Error parsing WebSocket message")).

(** *** [fetch] *)
Inductive fetch_input :=
| InputString (url : string)
| InputURL (href : string)
| InputRequest (url : string).

Definition url_of (input : fetch_input) : string :=
  match input with
  | InputString url | InputURL url | InputRequest url => url
  end.

Definition fetch (input : fetch_input) (init : option RequestInit) : M nat :=
  p <- new_promise ;;
  q <- ensureConnection ;;
  connected <- gets (fun s => settled s !! q) ;;
  match connected with
  | Some (Resolved _) => fetch_body p (url_of input) init
  | Some (Rejected e) => settle p (Rejected e)
  | None =>
      modify (set_awaiting (fun l => l ++
        [{| returned := p; input_url := url_of input; init_of := init; awaited := q |}]))
  end ;;;
  ret p.

(** *** The client as a transition system *)
Definition fire (t : timer) : M unit :=
  match t with
  | TimeoutRequest requestId p => on_timeout requestId p
  | Reconnect => ensureConnection ;;; ret tt
  end.

(** The clock advances by [dt] and the timers that fell due run, the
    earliest first; a callback that throws does not stop the others. *)
Definition tick (dt : Z) : M unit :=
  modify (set_now (fun t => t + Z.max 0 dt)) ;;;
  t <- gets now ;;
  all <- gets timers ;;
  modify (set_timers (filter (fun e => t < fst e))) ;;;
  for_each (filter (fun e => fst e <= t) all)
    (fun e => try_catch (fire (snd e)) (fun _ => tell (Console "Uncaught exception"))).

Inductive event :=
| CallEnsureConnection
| CallFetch (input : fetch_input) (init : option RequestInit)
| CallSend (message : value)
| Register (connectionId : string)
| Unregister (connectionId : string)
| WsOpen (i : nat)
| WsClose (i : nat)
| WsError (i : nat)
| WsMessage (i : nat) (dat : string)
| Tick (dt : Z).

Definition on_socket (i : nat) (k : nat -> M unit) : M unit :=
  known <- gets (fun s => sockets s !! i) ;;
  match known with
  | Some (_, q) => k q
  | None => ret tt
  end.

Definition handler (e : event) : M unit :=
  match e with
  | CallEnsureConnection => ensureConnection ;;; ret tt
  | CallFetch input init => fetch input init ;;; ret tt
  | CallSend message => send message
  | Register connectionId => registerWebSocketTunnel connectionId
  | Unregister connectionId => unregisterWebSocketTunnel connectionId
  | WsOpen i => set_ready i OPEN
  | WsClose i => set_ready i CLOSED ;;; on_socket i (fun _ => onclose)
  | WsError i => on_socket i onerror
  | WsMessage i dat => on_socket i (fun q => onmessage q dat)
  | Tick dt => tick dt
  end.

Definition exec {A} (m : M A) (s : state) : state * list effect :=
  match m s with (_, s', out) => (s', out) end.

Definition step (s : state) (e : event) : state := fst (exec (handler e) s).

Definition run (s : state) (trace : list event) : state := fold_left step trace s.

(** The inner message that [onmessage] would hand on, if any. *)
Definition inbound (s : state) (e : event) : option value :=
  match e with
  | WsMessage i dat =>
      match sockets s !! i, JSON.parse dat with
      | Some _, Some message =>
          if is_type "enc" (prop message "type") then
            match decryptEnvelope message s with
            | (inr decrypted, _, _) => Some decrypted
            | _ => None
            end
          else None
      | _, _ => None
      end
  | _ => None
  end.

(** The event is the arrival of an [http_response] for [requestId]. *)
Definition answers (requestId : string) (s : state) (e : event) : bool :=
  match inbound s e with
  | Some decrypted =>
      is_type "http_response" (prop decrypted "type")
      && is_type requestId (prop decrypted "requestId")
  | None => false
  end.

Fixpoint unanswered (requestId : string) (s : state) (trace : list event) : bool :=
  match trace with
  | [] => true
  | e :: rest => negb (answers requestId s e) && unanswered requestId (step s e) rest
  end.

Definition elapsed (trace : list event) : Z :=
  foldr (fun e t => match e with Tick dt => Z.max 0 dt + t | _ => t end) 0 trace.

(** *** Properties of the state that the statements keep *)
Definition inv (P : state -> Prop) {A} (m : M A) : Prop :=
  forall s, P s -> P (snd (fst (m s))).

Definition at_time (t : Z) (s : state) : Prop := now s = t.

(** The characters of base64. *)
Definition base64_alphabet (c : ascii) : bool :=
  let n := N_of_ascii c in
  ((65 <=? n) && (n <=? 90) || (97 <=? n) && (n <=? 122) || (48 <=? n) && (n <=? 57)
   || (n =? 43) || (n =? 47) || (n =? 61))%N.

(** *** The invariant of a request in flight

    The request [rid], the [n0]-th, waits on the promise [p] with a timer
    due at [due]; [rem] holds the timers that fell due and have not run
    yet. *)
Section Pending.
Variables (rid : string) (n0 p : nat) (due : Z).

Definition foreign (t : timer) : Prop :=
  match t with
  | TimeoutRequest r q => r <> rid /\ q <> p
  | Reconnect => True
  end.

Definition ours : Z * timer := (due, TimeoutRequest rid p).

Definition timers_ok (l : list (Z * timer)) : Prop :=
  forall t, In t l -> t = ours \/ foreign (snd t).

Definition timed_out (s : state) : Prop :=
  pendingRequests s !! rid = None /\
  settled s !! p = Some (Rejected (Error (VStr "Request timeout"))).

Definition waiting (rem : list (Z * timer)) (s : state) : Prop :=
  pendingRequests s !! rid = Some p /\ settled s !! p = None /\
  (In ours rem \/ (now s < due /\ In ours (timers s))).

Record Inv (rem : list (Z * timer)) (s : state) : Prop := {
  inv_issued : (n0 < issued s)%nat;
  inv_promises : (p < promises s)%nat;
  inv_pending : forall r q, pendingRequests s !! r = Some q -> r <> rid -> q <> p;
  inv_awaiting : forall a, In a (awaiting s) -> returned a <> p;
  inv_sockets : forall i r q, sockets s !! i = Some (r, q) -> q <> p;
  inv_timers : timers_ok (timers s);
  inv_rem : timers_ok rem;
  inv_state : timed_out s \/ waiting rem s
}.
End Pending.

(** *** The client from its construction *)

(** [new RA(origin)] *)
Definition initial (o : string) : state := {|
  origin := o;
  ws := None;
  sockets := ∅;
  opened := 0;
  serverX25519PublicKey := None;
  symmetricKey := None;
  pendingRequests := ∅;
  webSocketConnections := ∅;
  connectionPromise := None;
  settled := ∅;
  promises := 0;
  awaiting := [];
  timers := [];
  now := 0;
  draws := 0;
  generated := 0;
  issued := 0
|}.

(** The states that the client reaches, whatever is called on it and
    whatever its sockets and the clock do. *)
Definition reachable (s : state) : Prop :=
  exists o trace, s = run (initial o) trace.

(** The request [rid] was handed to the socket: its waiter is registered
    on the promise [p], which is not settled, and its timer is set and due
    at [due]. *)
Definition in_flight (rid : string) (p : nat) (due : Z) (s : state) : Prop :=
  pendingRequests s !! rid = Some p /\ settled s !! p = None /\
  now s < due /\ In (due, TimeoutRequest rid p) (timers s).

(** The call of [fetch] that returned the promise [p] is suspended at
    [await this.ensureConnection()], on the promise [q]. *)
Definition parked (p q : nat) (s : state) : Prop :=
  settled s !! p = None /\
  exists a, In a (awaiting s) /\ returned a = p /\ awaited a = q.

(** Every promise has one owner.  [xs] are the suspended calls that a
    statement has taken from [awaiting] and not resumed yet, [rem] the
    timers that fell due and have not run yet. *)
Definition issued_to (s : state) (r : string) : Prop :=
  exists n, (n < issued s)%nat /\ r = generateRequestId n.

Record consistent (xs : list suspended) (rem : list (Z * timer)) (s : state) : Prop := {
  c_pending : forall r q,
    pendingRequests s !! r = Some q -> (q < promises s)%nat /\ issued_to s r;
  c_timers : forall d r q,
    In (d, TimeoutRequest r q) (rem ++ timers s) -> (q < promises s)%nat /\ issued_to s r;
  c_pending_inj : forall r r' q,
    pendingRequests s !! r = Some q -> pendingRequests s !! r' = Some q -> r = r';
  c_timers_inj : forall d d' r r' q q',
    In (d, TimeoutRequest r q) (rem ++ timers s) ->
    In (d', TimeoutRequest r' q') (rem ++ timers s) ->
    r = r' \/ q = q' -> d = d' /\ r = r' /\ q = q';
  c_distinct : NoDup (map returned (xs ++ awaiting s));
  c_awaiting : forall a,
    In a (xs ++ awaiting s) ->
    (returned a < promises s)%nat /\ settled s !! returned a = None /\
    (forall r, pendingRequests s !! r <> Some (returned a)) /\
    (forall d r, ~ In (d, TimeoutRequest r (returned a)) (rem ++ timers s));
  c_sockets : forall i r q,
    sockets s !! i = Some (r, q) ->
    (q < promises s)%nat /\
    (forall r', pendingRequests s !! r' <> Some q) /\
    (forall d r', ~ In (d, TimeoutRequest r' q) (rem ++ timers s)) /\
    (forall a, In a (xs ++ awaiting s) -> returned a <> q);
  c_settled : forall q o, settled s !! q = Some o -> (q < promises s)%nat
}.

(** No suspended call returned the promise [q]. *)
Definition spare (xs : list suspended) (q : nat) (s : state) : Prop :=
  (q < promises s)%nat /\ forall a, In a (xs ++ awaiting s) -> returned a <> q.

(** *** What a statement writes to the socket *)

(** The envelope of the text [plaintext] under [key] with the [n]-th draw
    as nonce, as [encryptPayload] builds it, and its text on the wire. *)
Definition sealed_envelope (key : bytes) (n : nat) (plaintext : string) : value :=
  VObj [("type", VStr "enc");
        ("nonce", VStr (to_base64 (randombytes_buf n)));
        ("ciphertext",
          VStr (to_base64 (crypto_secretbox_easy (from_string plaintext)
                             (randombytes_buf n) key)))].

Definition sealed_text (key : bytes) (n : nat) (payload : value) : string :=
  default "" (JSON.stringify
                (sealed_envelope key n (default "" (JSON.stringify payload)))).

(** *** The parts of the statements that the proofs name *)

(** The state in which the request is registered, before the send. *)
Definition registered (p : nat) (s : state) : state :=
  set_pendingRequests (insert (generateRequestId (issued s)) p) (set_issued Datatypes.S s).

(** What a suspended call does when the promise it awaits settles. *)
Definition resumed (o : outcome) (a : suspended) : M unit :=
  match o with
  | Resolved _ => fetch_body (returned a) (input_url a) (init_of a)
  | Rejected e => settle (returned a) (Rejected e)
  end.

(** The promise that [ensureConnection] returns. *)
Definition connection_of (s : state) : nat :=
  if is_open s then promises s
  else match connectionPromise s with Some q => q | None => promises s end.

(** The call of [fetch] that returned [p] and awaits [q]. *)
Definition call (p q : nat) (input : fetch_input) (init : option RequestInit) : suspended :=
  {| returned := p; input_url := url_of input; init_of := init; awaited := q |}.

(** The three ways of a call, once [ensureConnection] has returned [q]. *)
Definition proceed (p q : nat) (input : fetch_input) (init : option RequestInit) : M unit :=
  bind (gets (fun s => settled s !! q))
    (fun connected =>
       match connected with
       | Some (Resolved _) => fetch_body p (url_of input) init
       | Some (Rejected e) => settle p (Rejected e)
       | None => modify (set_awaiting (fun l => l ++ [call p q input init]))
       end).

(** A timer that runs. *)
Definition caught (t : Z * timer) : M unit :=
  try_catch (fire (snd t)) (fun _ => tell (Console "Uncaught exception")).

(** The owners, and the socket [i] with its promise [q]. *)
Definition owned (i : nat) (q : nat) (s : state) : Prop :=
  consistent [] [] s /\ exists r, sockets s !! i = Some (r, q).

(** The state from which the request of a call on the open socket goes
    out: the promise of the call and the resolved promise of
    [ensureConnection] are taken. *)
Definition called (s : state) : state :=
  snd (fst (settle (Datatypes.S (promises s)) (Resolved Void)
              (set_promises (fun n => Datatypes.S (Datatypes.S n)) s))).

(** The state after the key exchange of [server_kx], when the promise of
    the connection is about to resolve. *)
Definition handshaken (serverPub : bytes) (s : state) : state :=
  set_connectionPromise (fun _ => None)
    (set_symmetricKey (fun _ => Some (crypto_secretbox_keygen (generated s)))
       (set_serverX25519PublicKey (fun _ => Some serverPub)
          (set_generated Datatypes.S s))).

(** The reply of the client to [server_kx], and its text on the wire. *)
Definition client_kx (key serverPub : bytes) : value :=
  VObj [("type", VStr "client_kx");
        ("sealedSymmetricKey", VStr (to_base64 (crypto_box_seal key serverPub)))].

Definition client_kx_text (key serverPub : bytes) : string :=
  default "" (JSON.stringify (client_kx key serverPub)).

(** The state after [onclose] of the socket [i], whose promise is [q]. *)
Definition closed_socket (i q : nat) (s : state) : state :=
  set_timers (schedule (now s + reconnectDelay) Reconnect)
    (set_connectionPromise (fun _ => None)
       (set_sockets (insert i (CLOSED, q)) s)).
End RA.
End Client.

(** ** A small instance

    One implementation of every interface, to run the definitions on. *)
Module Demo.

(** A box is the key and the nonce followed by the message; it opens
    under the same key and nonce only. *)
Definition box (m n k : bytes) : bytes := k ++ n ++ m.

Definition unbox (c n k : bytes) : option bytes :=
  let tag := k ++ n in
  if bool_decide (map Byte.to_N (take (List.length tag) c) = map Byte.to_N tag)
  then Some (drop (List.length tag) c) else None.

#[export] Instance sodium : Sodium := {|
  crypto_box_seal m pk := box m [] pk;
  crypto_box_seal_open c pk sk := unbox c [] pk;
  crypto_secretbox_easy := box;
  crypto_secretbox_open_easy := unbox;
  crypto_secretbox_keygen n := repeat x2a (Datatypes.S n);
  randombytes_buf n := repeat x07 (Datatypes.S n);
  to_base64 := string_of_list_byte;
  from_base64 t := Some (list_byte_of_string t);
  from_string := list_byte_of_string;
  to_string b := Some (string_of_list_byte b)
|}.

(** A codec for the values that JSON writes. *)
#[export] Instance cbor : Cbor := {|
  encode v := list_byte_of_string (default "" (JSON.stringify v));
  decode b := JSON.parse (string_of_list_byte b)
|}.

Definition str (v : value) (k : string) : option string :=
  match v with
  | VObj props => match assoc k props with Some (VStr x) => Some x | _ => None end
  | _ => None
  end.

Definition tagged (t : string) (v : value) : bool :=
  match str v "type" with Some x => String.eqb x t | None => false end.

Definition field (v : value) (k : string) : value :=
  default VUndefined (get_prop v k).

Definition num (v : value) : option Z :=
  match v with VNum z => Some z | _ => None end.

Definition text (v : value) : option string :=
  match v with VStr x => Some x | _ => None end.

(** Modelled from the spec: typeguards.js is not among the sources.  All
    messages carry a [type] discriminator, and the fields are those of
    the wire frames and inner messages of the spec. *)
#[export] Instance guards : Server.TypeGuards := {|
  Server.isControlChannelKXConfirm v :=
    if tagged "client_kx" v then
      x ← str v "sealedSymmetricKey"; Some {| Server.sealedSymmetricKey := x |}
    else None;
  Server.isControlChannelEncryptedMessage v :=
    if tagged "enc" v then
      n ← str v "nonce"; c ← str v "ciphertext";
      Some {| Server.nonce := list_byte_of_string n;
              Server.ciphertext := list_byte_of_string c |}
    else None;
  Server.isRAEncryptedHTTPRequest v :=
    if tagged "http_request" v then
      r ← str v "requestId"; m ← str v "method"; u ← str v "url";
      Some {| Server.requestId := r; Server.method := m; Server.url := u;
              Server.headers := field v "headers"; Server.body := field v "body" |}
    else None;
  Server.isRAEncryptedClientConnectEvent v :=
    if tagged "ws_client_connect" v then
      c ← str v "connectionId"; u ← str v "url";
      Some {| Server.connect_connectionId := c; Server.connect_url := u;
              Server.protocols := field v "protocols" |}
    else None;
  Server.isRAEncryptedWSMessage v :=
    if tagged "ws_message" v then
      c ← str v "connectionId"; d ← str v "data";
      Some {| Server.message_connectionId := c; Server.data := Server.Text d;
              Server.dataType := Server.DString |}
    else None;
  Server.isRAEncryptedClientCloseEvent v :=
    if tagged "ws_client_close" v then
      c ← str v "connectionId";
      Some {| Server.close_connectionId := c; Server.code := num (field v "code");
              Server.reason := text (field v "reason") |}
    else None
|}.

(** A host whose app answers 200, except on [/boom], where it throws
    [new Error("boom")], and on [/void], where it throws [new Error()];
    its state counts the deliveries. *)
#[export] Instance host : Server.Host := {|
  Server.host_state := nat;
  Server.deliver h d :=
    (Datatypes.S h,
     match d with
     | Server.DRequest req =>
         if String.eqb (Server.url req) "/boom"
         then {| Server.emitted := [];
                 Server.raised := Some (Server.ThrownError "boom") |}
         else if String.eqb (Server.url req) "/void"
         then {| Server.emitted := [];
                 Server.raised := Some (Server.ThrownError "") |}
         else {| Server.emitted := [Server.ResEnd 200 "" (VObj []) (VStr "ok")];
                 Server.raised := None |}
     | _ => {| Server.emitted := []; Server.raised := None |}
     end);
  Server.getStatusText z := if z =? 200 then "OK" else "";
  Server.sanitizeHeaders v := v
|}.

(** *** A browser

    [controlUrl] follows [new URL(origin)], the rewriting of the scheme
    from http to ws, the replacement of the path by [/__ra__] and
    [toString]; it is [None] where [new URL] or [new WebSocket] throws.
    The sample knows the origins [scheme://host] with an optional port,
    path, query and fragment, whose scheme is http, https, ws or wss and
    whose host is a dotted quad or a name of letters, digits and hyphens;
    it refuses every other origin. *)
Definition in_range (lo hi : N) (c : ascii) : bool :=
  ((lo <=? N_of_ascii c) && (N_of_ascii c <=? hi))%N.

Definition lower (c : ascii) : ascii :=
  if in_range 65 90 c then ascii_of_N (N_of_ascii c + 32) else c.

Fixpoint lowercase (s : string) : string :=
  match s with
  | EmptyString => EmptyString
  | String c rest => String (lower c) (lowercase rest)
  end.

(** The text before the first character that [stop] holds of, and the
    text from that character on. *)
Fixpoint break (stop : ascii -> bool) (s : string) : string * string :=
  match s with
  | EmptyString => (EmptyString, EmptyString)
  | String c rest =>
      if stop c then (EmptyString, s)
      else let '(a, b) := break stop rest in (String c a, b)
  end.

Fixpoint every (ok : ascii -> bool) (s : string) : bool :=
  match s with
  | EmptyString => true
  | String c rest => ok c && every ok rest
  end.

Fixpoint begins (p s : string) : bool :=
  match p, s with
  | EmptyString, _ => true
  | String a p', String b s' => Ascii.eqb a b && begins p' s'
  | _, _ => false
  end.

(** The labels of a host, which dots separate. *)
Fixpoint labels (s : string) : list string :=
  match s with
  | EmptyString => [EmptyString]
  | String c rest =>
      match labels rest with
      | l :: ls => if Ascii.eqb c "." then EmptyString :: l :: ls else String c l :: ls
      | [] => [String c EmptyString]
      end
  end.

Definition is_any (codes : list N) (c : ascii) : bool :=
  existsb (N.eqb (N_of_ascii c)) codes.

Definition name_char (c : ascii) : bool :=
  in_range 97 122 c || in_range 48 57 c || Ascii.eqb c "-".

Definition is_name_label (l : string) : bool :=
  negb (String.eqb l "") && every name_char l && negb (begins "xn--" l).

Definition is_octet (l : string) : bool :=
  negb (String.eqb l "") && JSON.digits_only l
  && String.eqb (JSON.decimal (JSON.digits_value 0 l)) l
  && (JSON.digits_value 0 l <=? 255)%N.

(** The last label would make the engine read the host as an IPv4
    address. *)
Definition ends_in_number (l : string) : bool :=
  negb (String.eqb l "") && JSON.digits_only l || begins "0x" l.

Definition host_of (h : string) : option string :=
  let h := lowercase h in
  if (List.length (labels h) =? 4)%nat && forallb is_octet (labels h) then Some h
  else if forallb is_name_label (labels h) && negb (ends_in_number (List.last (labels h) ""))
  then Some h
  else None.

(** The port as [toString] writes it: the default port of the scheme is
    left out. *)
Definition port_of (default : N) (p : string) : option string :=
  if String.eqb p "" then Some ""
  else if JSON.digits_only p then
    if (65535 <? JSON.digits_value 0 p)%N then None
    else if (JSON.digits_value 0 p =? default)%N then Some ""
    else Some (":" +:+ JSON.decimal (JSON.digits_value 0 p))
  else None.

(** The characters that the engine leaves as they are in a query and in
    a fragment. *)
Definition query_char (c : ascii) : bool :=
  in_range 33 126 c && negb (is_any [34; 35; 39; 60; 62]%N c).

Definition fragment_char (c : ascii) : bool :=
  in_range 33 126 c && negb (is_any [34; 60; 62; 96]%N c).

Definition control_url (o : string) : option string :=
  let '(scheme, rest) := break (fun c => Ascii.eqb c ":") o in
  match rest with
  | String ":" (String "/" (String "/" rest)) =>
      let '(authority, tail) := break (is_any [47; 63; 35; 92]%N) rest in
      let '(host, port) := break (fun c => Ascii.eqb c ":") authority in
      let '(_, tail) := break (is_any [63; 35]%N) tail in
      let '(query, fragment) := break (fun c => Ascii.eqb c "#") tail in
      let scheme := lowercase scheme in
      target ←
        (if String.eqb scheme "http" || String.eqb scheme "ws" then Some ("ws", 80%N)
         else if String.eqb scheme "https" || String.eqb scheme "wss"
         then Some ("wss", 443%N)
         else None);
      host ← host_of host;
      port ← port_of (snd target)
                (match port with String _ p => p | EmptyString => "" end);
      if every query_char query && every fragment_char fragment
      then Some (fst target +:+ "://" +:+ host +:+ port +:+ "/__ra__" +:+ query +:+ fragment)
      else None
  | _ => None
  end.

(** [new Response(body, { status, statusText, headers })], [None] where
    it throws: the status, brought into sixteen bits, is outside 200 to
    599; a body comes with a status that allows none; the status text is
    no reason phrase; or the headers are no record or list of valid names
    and values.  A status that is a string or an object is refused,
    whatever it would convert to. *)
Definition status_of (st : value) : option Z :=
  match st with
  | VUndefined => Some 200
  | VNum z => Some (z mod 65536)
  | VFrac m e => Some (Z.quot m (10 ^ Z.pos e) mod 65536)
  | VNull | VBool false => Some 0
  | VBool true => Some 1
  | _ => None
  end.

Definition null_body_status (z : Z) : bool :=
  (z =? 101) || (z =? 103) || (z =? 204) || (z =? 205) || (z =? 304).

(** Every code point of the text is below 256 and [ok] holds of it. *)
Fixpoint latin1 (ok : N -> bool) (s : string) : bool :=
  match s with
  | EmptyString => true
  | String c rest =>
      if (N_of_ascii c <? 128)%N then ok (N_of_ascii c) && latin1 ok rest
      else if (N_of_ascii c =? 194)%N || (N_of_ascii c =? 195)%N then
        match rest with
        | String d rest' =>
            in_range 128 191 d
            && ok ((N_of_ascii c - 192) * 64 + (N_of_ascii d - 128))%N
            && latin1 ok rest'
        | EmptyString => false
        end
      else false
  end.

Definition reason_phrase (n : N) : bool :=
  ((n =? 9) || (32 <=? n) && (n <=? 126) || (128 <=? n))%N.

Definition header_value (n : N) : bool :=
  negb ((n =? 0) || (n =? 10) || (n =? 13))%N.

Definition token_char (c : ascii) : bool :=
  in_range 97 122 c || in_range 65 90 c || in_range 48 57 c
  || is_any [33; 35; 36; 37; 38; 39; 42; 43; 45; 46; 94; 95; 96; 124; 126]%N c.

(** The text that a value converts to passes [ok]. *)
Fixpoint text_ok (ok : N -> bool) (v : value) : bool :=
  match v with
  | VStr t => latin1 ok t
  | VArr vs => forallb (text_ok ok) vs
  | _ => true
  end.

Definition header_ok (name : string) (v : value) : bool :=
  negb (String.eqb name "") && every token_char name && text_ok header_value v.

Definition headers_ok (h : value) : bool :=
  match h with
  | VUndefined => true
  | VObj props => forallb (fun kv => header_ok (fst kv) (snd kv)) props
  | VArr pairs =>
      forallb (fun pair => match pair with
                           | VArr [VStr name; v] => header_ok name v
                           | _ => false
                           end) pairs
  | VBytes [] => true
  | _ => false
  end.

Definition response_of (b st stt h : value) : option value :=
  status ← status_of st;
  if (200 <=? status) && (status <=? 599)
     && (negb (null_body_status status)
         || match b with VUndefined | VNull => true | _ => false end)
     && match stt with VUndefined => true | _ => text_ok reason_phrase stt end
     && headers_ok h
  then Some (VObj [("body", b); ("status", VNum status); ("statusText", stt);
                   ("headers", h)])
  else None.

#[export] Instance responses : Client.Responses := {| Client.Response := value |}.

#[export] Instance browser : Client.Browser := {|
  Client.new_Response := response_of;
  Client.controlUrl := control_url;
  Client.generateRequestId n := NilEmpty.string_of_uint (Nat.to_uint n)
|}.

Definition relay : Server.state := {|
  Server.x25519PublicKey := [x01; x02];
  Server.x25519PrivateKey := [x03; x04];
  Server.quote := [x05];
  Server.webSocketConnections := [];
  Server.symmetricKeyBySocket := ∅;
  Server.clients := [];
  Server.created := 0;
  Server.draws := 0;
  Server.host := 0%nat
|}.

Definition ra : Client.state := Client.initial "http://localhost:3001".

(** The handshake: the relay announces itself, the client answers. *)
Definition key : bytes := crypto_secretbox_keygen 0.

Definition server_kx_text : string :=
  default "" (JSON.stringify (Server.serverKxMessage relay)).

Definition client_kx_message : value :=
  VObj [("type", VStr "client_kx");
        ("sealedSymmetricKey",
          VStr (to_base64 (crypto_box_seal key (Server.x25519PublicKey relay))))].

Definition client_kx_frame : bytes := encode client_kx_message.

(** A frame of the client under [key], with the [n]-th nonce. *)
Definition sealed_frame (n : nat) (inner : value) : bytes :=
  encode (VObj [("type", VStr "enc");
                ("nonce", VStr (string_of_list_byte (randombytes_buf n)));
                ("ciphertext",
                  VStr (string_of_list_byte
                          (crypto_secretbox_easy (encode inner) (randombytes_buf n) key)))]).

Definition http_request (rid url : string) : value :=
  VObj [("type", VStr "http_request"); ("requestId", VStr rid);
        ("method", VStr "GET"); ("url", VStr url); ("headers", VObj [])].

Definition ws_client_connect (cid : string) : value :=
  VObj [("type", VStr "ws_client_connect"); ("connectionId", VStr cid);
        ("url", VStr "/")].

Definition ws_message (cid text : string) : value :=
  VObj [("type", VStr "ws_message"); ("connectionId", VStr cid);
        ("data", VStr text); ("dataType", VStr "string")].


(** The relay after the handshake on socket 1, and with the
    sub-connection [c1] open. *)
Definition keyed : Server.state :=
  fst (Server.run relay [Server.Upgrade (Some "/__ra__") 1%nat;
                         Server.Emit 1%nat "message" client_kx_frame]).

Definition serving : Server.state :=
  fst (Server.step keyed
         (Server.Emit 1%nat "message" (sealed_frame 0 (ws_client_connect "c1")))).




(** The client with its socket open, before and after the handshake,
    and with a fetch in flight. *)
Definition opened : Client.state :=
  Client.run ra [Client.CallEnsureConnection; Client.WsOpen 0].

Definition connected : Client.state :=
  Client.step opened (Client.WsMessage 0 server_kx_text).

Definition fetching : Client.state :=
  Client.step connected (Client.CallFetch (Client.InputString "/uptime") None).

(** A call of [fetch] made before any connection: it opens the socket and
    waits for the handshake. *)
Definition waiting_call : Client.state :=
  Client.run ra [Client.CallFetch (Client.InputString "/uptime") None; Client.WsOpen 0].

(** A request with an array as its body. *)
Definition upload : Client.RequestInit :=
  {| Client.init_method := Some "POST"; Client.init_headers := None;
     Client.init_body := VArr [VNum 1; VNum 2] |}.

(** A binary frame of a sub-connection, as [TunnelWebSocket] would send
    it. *)
Definition binary_message : value :=
  VObj [("type", VStr "ws_message"); ("connectionId", VStr "c1");
        ("data", VBytes [x01; x02]); ("dataType", VStr "arraybuffer")].

Definition request_of (rid url : string) : Server.RAEncryptedHTTPRequest :=
  {| Server.requestId := rid; Server.method := "GET"; Server.url := url;
     Server.headers := VObj []; Server.body := VUndefined |}.
End Demo.

(** * Properties *)

(** ** The JSON codec *)
Module JsonFacts.
Import JSON.

Lemma append_nil (b : string) : "" +:+ b = b.
Proof. reflexivity. Qed.

Lemma append_cons x (a b : string) : String x a +:+ b = String x (a +:+ b).
Proof. reflexivity. Qed.

Lemma append_assoc (a b c : string) : (a +:+ b) +:+ c = a +:+ (b +:+ c).
Proof.
  induction a as [|x a IH]; [reflexivity|]. rewrite !append_cons. f_equal. exact IH.
Qed.

Lemma append_empty (a : string) : a +:+ "" = a.
Proof. induction a as [|x a IH]; [reflexivity|]. rewrite append_cons, IH. reflexivity. Qed.

Lemma length_append (a b : string) :
  String.length (a +:+ b) = (String.length a + String.length b)%nat.
Proof.
  induction a as [|x a IH]; [reflexivity|]. rewrite append_cons.
  cbn [String.length]. rewrite IH. reflexivity.
Qed.

Ltac each_char c :=
  destruct c as [[] [] [] [] [] [] [] []].

(** *** String literals *)
Lemma prepend_prepend x y r : prepend x (prepend y r) = prepend (x +:+ y) r.
Proof. destruct r as [[z rest]|]; [|reflexivity]. cbn. by rewrite append_assoc. Qed.

Lemma parse_escape_char pend c x :
  parse_chars pend (escape_char c +:+ x)
  = prepend (flush pend +:+ String c "") (parse_chars None x).
Proof. destruct pend; each_char c; reflexivity. Qed.

Lemma hex_value_digit (d : N) : (d < 16)%N -> hex_value (hex_digit d) = Some d.
Proof.
  intros Hd. destruct d as [|p]; [reflexivity|].
  do 4 (destruct p as [p|p|]; try reflexivity; try lia).
Qed.

Lemma parse_unicode_escape (n : N) :
  (n < 65536)%N ->
  exists h1 h2 h3 h4,
    unicode_escape n
    = String backslash (String "u" (String h1 (String h2 (String h3 (String h4 "")))))
    /\ hex4 h1 h2 h3 h4 = Some n.
Proof.
  intros Hn. eexists _, _, _, _. split; [reflexivity|]. unfold hex4.
  rewrite !hex_value_digit.
  - f_equal.
    pose proof (N.div_mod n 16 ltac:(lia)). pose proof (N.mod_lt n 16 ltac:(lia)).
    pose proof (N.div_mod (n / 16) 16 ltac:(lia)).
    pose proof (N.mod_lt (n / 16) 16 ltac:(lia)).
    pose proof (N.div_mod (n / 256) 16 ltac:(lia)).
    pose proof (N.mod_lt (n / 256) 16 ltac:(lia)).
    assert (n / 256 = n / 16 / 16)%N as E1 by (rewrite N.Div0.div_div by lia; reflexivity).
    assert (n / 4096 = n / 256 / 16)%N as E2 by (rewrite N.Div0.div_div by lia; reflexivity).
    assert (n / 4096 < 16)%N as Hq by (apply N.Div0.div_lt_upper_bound; lia).
    assert (n / 4096 = (n / 256) / 16)%N by lia.
    lia.
  - apply N.mod_lt; lia.
  - apply N.mod_lt; lia.
  - apply N.mod_lt; lia.
  - apply N.Div0.div_lt_upper_bound; lia.
Qed.

Lemma surrogate_arith (y z : N) :
  (32 <= y <= 63)%N -> (z <= 63)%N ->
  let n := (53248 + y * 64 + z)%N in
  (55296 <= n <= 57343)%N /\ (n / 4096 = 13)%N /\
  ((n / 64) mod 64 = y)%N /\ (n mod 64 = z)%N.
Proof.
  intros Hy Hz n.
  assert (n / 64 = 832 + y)%N as Hd1.
  { symmetry. apply (N.div_unique n 64 _ z); subst n; lia. }
  assert (n mod 64 = z)%N as Hm1.
  { symmetry. apply (N.mod_unique n 64 (832 + y) z); subst n; lia. }
  assert (n / 4096 = 13)%N as Hd2.
  { symmetry. apply (N.div_unique n 4096 _ (y * 64 + z)); subst n; lia. }
  assert ((n / 64) mod 64 = y)%N as Hm2.
  { rewrite Hd1. symmetry. apply (N.mod_unique _ 64 13 y); lia. }
  repeat split; try assumption; subst n; lia.
Qed.

(** A surrogate is the code unit of its three bytes. *)
Lemma surrogate_at_spec s n :
  surrogate_at s = Some n ->
  exists a b c rest,
    s = String a (String b (String c rest)) /\
    utf8 n = String a (String b (String c "")) /\
    (n < 65536)%N /\ (is_high n || is_low n = true).
Proof.
  destruct s as [|a [|b [|c rest]]]; try discriminate. cbn [surrogate_at].
  destruct (_ && _)%bool eqn:E; [|discriminate]. intros [= <-].
  rewrite !andb_true_iff in E. destruct E as ((((Ex & Ey1) & Ey2) & Ez1) & Ez2).
  apply N.eqb_eq in Ex. apply N.leb_le in Ey1, Ey2, Ez1, Ez2.
  exists a, b, c, rest. split; [reflexivity|].
  destruct (surrogate_arith (N_of_ascii b - 128) (N_of_ascii c - 128))
    as (Hn & Hd & Hb & Hc); [lia | lia |].
  remember (53248 + (N_of_ascii b - 128) * 64 + (N_of_ascii c - 128))%N as n eqn:En.
  clear En. split; [|split].
  - unfold utf8.
    assert ((n <? 128)%N = false) as -> by (apply N.ltb_ge; clear - Hn; lia).
    assert ((n <? 2048)%N = false) as -> by (apply N.ltb_ge; clear - Hn; lia).
    assert ((n <? 65536)%N = true) as -> by (apply N.ltb_lt; clear - Hn; lia).
    rewrite Hd, Hb, Hc. change (224 + 13)%N with 237%N. rewrite <- Ex.
    replace (128 + (N_of_ascii b - 128))%N with (N_of_ascii b) by (clear - Ey1; lia).
    replace (128 + (N_of_ascii c - 128))%N with (N_of_ascii c) by (clear - Ez1; lia).
    rewrite !ascii_N_embedding. reflexivity.
  - clear - Hn. lia.
  - clear - Hn. unfold is_high, is_low. destruct (N.le_gt_cases n 56319) as [Hh|Hl].
    + apply orb_true_iff. left. apply andb_true_iff. split; apply N.leb_le; lia.
    + apply orb_true_iff. right. apply andb_true_iff. split; apply N.leb_le; lia.
Qed.

Lemma high_not_low n : is_high n = true -> is_low n = false.
Proof.
  unfold is_high, is_low. rewrite andb_true_iff, andb_false_iff.
  intros [_ H]. apply N.leb_le in H. left. apply N.leb_gt. lia.
Qed.

Lemma parse_code_unit pend n x :
  (n < 65536)%N ->
  parse_chars pend (unicode_escape n +:+ x)
  = match pend with
    | Some hi =>
        if is_low n then prepend (utf8 (pair_point hi n)) (parse_chars None x)
        else if is_high n then prepend (utf8 hi) (parse_chars (Some n) x)
        else prepend (utf8 hi +:+ utf8 n) (parse_chars None x)
    | None =>
        if is_high n then parse_chars (Some n) x
        else prepend (utf8 n) (parse_chars None x)
    end.
Proof.
  intros Hn. destruct (parse_unicode_escape n Hn) as (h1 & h2 & h3 & h4 & -> & Hh).
  rewrite !append_cons, append_nil. cbn [parse_chars].
  change (Ascii.eqb backslash dquote) with false.
  change (Ascii.eqb backslash backslash) with true.
  change (Ascii.eqb "u" "u") with true. cbv iota. rewrite Hh. reflexivity.
Qed.

Lemma parse_escape_from s : forall skip pend rest,
  well_formed_from skip (pending pend) s = true ->
  parse_chars pend (escape_from skip s +:+ String dquote rest)
  = Some (flush pend +:+ drop_chars skip s, rest).
Proof.
  induction s as [|c s IH]; intros skip pend rest Hwf.
  - cbn [escape_from]. rewrite append_nil.
    destruct skip; cbn; rewrite append_empty; reflexivity.
  - destruct skip as [|k].
    + cbn [escape_from well_formed_from drop_chars] in *.
      destruct (surrogate_at (String c s)) as [n|] eqn:En.
      * destruct (surrogate_at_spec _ _ En) as (a & b & c' & s' & Es & Eu & Hn & Hs).
        injection Es as -> ->.
        rewrite append_assoc, (parse_code_unit _ _ _ Hn).
        destruct pend as [hi|]; cbn [pending] in Hwf.
        -- destruct (is_low n) eqn:El; [discriminate Hwf|]. cbn [andb] in Hwf.
           cbn [orb] in Hs. rewrite orb_false_r in Hs. rewrite Hs in *.
           rewrite (IH 2%nat (Some n) rest Hwf). cbn [prepend flush drop_chars].
           rewrite Eu. rewrite !append_cons, append_nil. reflexivity.
        -- cbn [andb] in Hwf. destruct (is_high n) eqn:Eh.
           ++ rewrite (IH 2%nat (Some n) rest Hwf). cbn [flush drop_chars].
              rewrite Eu, append_nil. reflexivity.
           ++ rewrite (IH 2%nat None rest Hwf). cbn [prepend flush drop_chars].
              rewrite Eu, !append_nil. reflexivity.
      * rewrite append_assoc, parse_escape_char.
        rewrite (IH 0%nat None rest Hwf). cbn [prepend flush drop_chars].
        destruct s; rewrite append_nil, append_assoc; reflexivity.
    + cbn [escape_from well_formed_from drop_chars] in *. apply IH, Hwf.
Qed.

Lemma parse_escape s rest :
  well_formed s = true ->
  parse_chars None (escape s +:+ String dquote rest) = Some (s, rest).
Proof.
  intros Hwf. unfold escape. rewrite (parse_escape_from s 0%nat None rest Hwf).
  destruct s; reflexivity.
Qed.

Lemma quote_append s rest :
  quote s +:+ rest = String dquote (escape s +:+ String dquote rest).
Proof. unfold quote. rewrite append_cons, append_assoc. reflexivity. Qed.

(** *** Numbers *)
Lemma strip_zeros_spec ds r t : strip_zeros ds = (r, t) -> ds = r +:+ zeros t.
Proof.
  revert r t. induction ds as [|c ds IH]; intros r t; cbn [strip_zeros].
  - intros [= <- <-]. reflexivity.
  - destruct (strip_zeros ds) as [r' t']. specialize (IH r' t' eq_refl).
    destruct r' as [|c' r'].
    + destruct (Ascii.eqb c "0") eqn:E; intros [= <- <-].
      * apply Ascii.eqb_eq in E. subst c. rewrite IH. reflexivity.
      * rewrite IH. reflexivity.
    + intros [= <- <-]. rewrite IH. reflexivity.
Qed.

Lemma digits_value_append a : forall acc b,
  digits_value acc (a +:+ b) = digits_value (digits_value acc a) b.
Proof. induction a as [|c a IH]; intros acc b; [reflexivity|]. cbn. apply IH. Qed.

Lemma digits_value_zeros t : forall acc,
  digits_value acc (zeros t) = (acc * 10 ^ N.of_nat t)%N.
Proof.
  induction t as [|t IH]; intros acc; cbn [zeros digits_value].
  - change (N.of_nat 0) with 0%N. rewrite N.pow_0_r. lia.
  - rewrite IH. change (N_of_ascii "0" - 48)%N with 0%N.
    rewrite Nat2N.inj_succ, N.pow_succ_r'. lia.
Qed.

Lemma digits_value_acc u : forall acc,
  digits_value (Npos acc) (NilEmpty.string_of_uint u) = Npos (Pos.of_uint_acc u acc).
Proof.
  induction u; intros acc; cbn [NilEmpty.string_of_uint digits_value Pos.of_uint_acc];
    try reflexivity;
    match goal with
    | |- digits_value (10 * _ + ?d)%N _ = _ =>
        let d' := eval vm_compute in d in change d with d'
    end;
    rewrite <- IHu; f_equal; lia.
Qed.

Lemma digits_value_uint u : digits_value 0 (NilEmpty.string_of_uint u) = N.of_uint u.
Proof.
  induction u; cbn [NilEmpty.string_of_uint digits_value]; try reflexivity;
    match goal with
    | |- digits_value (10 * 0 + ?d)%N _ = _ =>
        let d' := eval vm_compute in (10 * 0 + d)%N in change (10 * 0 + d)%N with d'
    end;
    [exact IHu | apply digits_value_acc ..].
Qed.

Lemma digits_value_decimal n : digits_value 0 (decimal n) = n.
Proof. unfold decimal. rewrite digits_value_uint. apply DecimalN.Unsigned.of_to. Qed.

Lemma digits_only_append a b : digits_only (a +:+ b) = digits_only a && digits_only b.
Proof.
  induction a as [|c a IH]; [reflexivity|]. rewrite append_cons. cbn [digits_only].
  rewrite IH, andb_assoc. reflexivity.
Qed.

Lemma digits_only_uint u : digits_only (NilEmpty.string_of_uint u) = true.
Proof. induction u; cbn [NilEmpty.string_of_uint digits_only]; try reflexivity; exact IHu. Qed.

Lemma span_digits_only s rest :
  digits_only s = true -> no_digit rest -> span_digits (s +:+ rest) = (s, rest).
Proof.
  intros Hs Hr. induction s as [|c s IH].
  - rewrite append_nil. destruct rest as [|c rest]; [reflexivity|].
    cbn in *. rewrite Hr. reflexivity.
  - cbn [digits_only] in Hs. apply andb_true_iff in Hs as [Hc Hs].
    rewrite append_cons. cbn [span_digits]. rewrite Hc, (IH Hs). reflexivity.
Qed.

Lemma parse_digits_only s rest :
  digits_only s = true -> s <> "" -> no_digit rest ->
  parse_digits (s +:+ rest) = Some (s, rest).
Proof.
  intros Hs Hne Hr. unfold parse_digits. rewrite (span_digits_only _ _ Hs Hr).
  destruct s; [done | reflexivity].
Qed.

Lemma delimited_no_digit rest : delimited rest -> no_digit rest.
Proof. destruct rest as [|c rest]; [done|]. intros [->| [->| ->]]; done. Qed.

Lemma delimited_no_fraction rest :
  delimited rest -> parse_fraction rest = Some ("", rest) /\ parse_exponent rest = Some (0, rest).
Proof. destruct rest as [|c rest]; [done|]. intros [->| [->| ->]]; done. Qed.

Lemma nzhead_not_D0 d u : nzhead d <> D0 u.
Proof. induction d; simpl; congruence. Qed.

Lemma unorm_D0 d d' : unorm d = D0 d' -> d' = Nil.
Proof.
  unfold unorm. pose proof (nzhead_not_D0 d) as Hn.
  destruct (nzhead d); congruence.
Qed.

Lemma to_uint_normal n : unorm (N.to_uint n) = N.to_uint n.
Proof.
  rewrite <- (DecimalN.Unsigned.to_of (N.to_uint n)), DecimalN.Unsigned.of_to.
  reflexivity.
Qed.

Lemma leading_zero_decimal n : leading_zero (decimal n) = false.
Proof.
  unfold decimal. pose proof (to_uint_normal n) as Hn.
  destruct (N.to_uint n) as [|d|d|d|d|d|d|d|d|d|d] eqn:E; try reflexivity;
    try (cbn; destruct (NilEmpty.string_of_uint d); reflexivity).
  apply unorm_D0 in Hn. subst d. reflexivity.
Qed.

Lemma decimal_head n :
  exists c t, decimal n = String c t /\ is_digit c = true.
Proof.
  unfold decimal. assert (N.to_uint n <> Nil) as Hn.
  { destruct n as [|p]; [discriminate | apply DecimalPos.Unsigned.to_uint_nonnil]. }
  destruct (N.to_uint n); try done; eexists _, _; split; reflexivity.
Qed.

Lemma digit_not_minus c : is_digit c = true -> Ascii.eqb c "-" = false.
Proof. each_char c; done. Qed.

Lemma digit_not_point c : is_digit c = true -> Ascii.eqb c "." = false.
Proof. each_char c; done. Qed.

(** A run of digits, then nothing of a number. *)
Lemma parse_unsigned_plain negative ds rest :
  digits_only ds = true -> ds <> "" -> leading_zero ds = false -> delimited rest ->
  parse_unsigned negative (ds +:+ rest)
  = Some (number_of negative (digits_value 0 ds) 0, rest).
Proof.
  intros Hd Hne Hz Hr. unfold parse_unsigned.
  rewrite (parse_digits_only _ _ Hd Hne (delimited_no_digit _ Hr)), Hz.
  destruct (delimited_no_fraction _ Hr) as [-> ->].
  rewrite append_empty. reflexivity.
Qed.

Lemma parse_exponent_text e rest :
  0 <= e -> no_digit rest ->
  parse_exponent (exponent_text e +:+ rest) = Some (e, rest).
Proof.
  intros He Hr. unfold exponent_text.
  assert (e <? 0 = false) as -> by (apply Z.ltb_ge, He).
  rewrite !append_assoc.
  change ("e" +:+ "+" +:+ decimal (Z.abs_N e) +:+ rest)
    with (String "e" (String "+" (decimal (Z.abs_N e) +:+ rest))).
  cbn [parse_exponent].
  change (Ascii.eqb "e" "e" || Ascii.eqb "e" "E") with true.
  change (Ascii.eqb "+" "-") with false. change (Ascii.eqb "+" "+") with true.
  cbv iota.
  destruct (decimal_head (Z.abs_N e)) as (c & t & Hc & _).
  rewrite parse_digits_only;
    [| apply digits_only_uint | rewrite Hc; discriminate | exact Hr].
  rewrite digits_value_decimal. f_equal. f_equal. lia.
Qed.

(** One digit, the others behind a point, and an exponent. *)
Lemma parse_unsigned_exponent negative d frac e rest :
  is_digit d = true -> digits_only frac = true -> 0 <= e -> delimited rest ->
  parse_unsigned negative
    (match frac with
     | EmptyString => String d (exponent_text e)
     | String _ _ => String d ("." +:+ frac +:+ exponent_text e)
     end +:+ rest)
  = Some (number_of negative (digits_value 0 (String d frac))
            (e - Z.of_nat (String.length frac)), rest).
Proof.
  intros Hd Hf He Hr. unfold parse_unsigned.
  assert (exists x, exponent_text e = String "e" x) as [x Hx] by (eexists; reflexivity).
  destruct frac as [|c frac].
  - rewrite append_cons, Hx, append_cons. unfold parse_digits. cbn [span_digits].
    rewrite Hd. change (is_digit "e") with false. cbv iota beta.
    cbn [leading_zero parse_fraction]. change (Ascii.eqb "e" ".") with false. cbv iota.
    rewrite <- append_cons, <- Hx.
    rewrite (parse_exponent_text e rest He (delimited_no_digit _ Hr)). reflexivity.
  - change (String d ("." +:+ String c frac +:+ exponent_text e) +:+ rest)
      with (String d (String "." ((String c frac +:+ exponent_text e) +:+ rest))).
    rewrite append_assoc. unfold parse_digits at 1. cbn [span_digits]. rewrite Hd.
    change (is_digit ".") with false. cbv iota beta.
    cbn [leading_zero parse_fraction]. change (Ascii.eqb "." ".") with true. cbv iota.
    rewrite (parse_digits_only (String c frac) (exponent_text e +:+ rest));
      [| exact Hf | discriminate | rewrite Hx; reflexivity].
    rewrite (parse_exponent_text e rest He (delimited_no_digit _ Hr)). reflexivity.
Qed.

(** The text of an integer: its digits, or the exponent form from
    twenty-two digits on. *)
Lemma number_text_integer z :
  z <> 0 ->
  exists r t,
    decimal (Z.abs_N z) = r +:+ zeros t /\ r <> "" /\
    number_text z 0
    = (if z <? 0 then "-" else "") +:+
      (if Z.of_nat (String.length r) + Z.of_nat t <=? 21
       then decimal (Z.abs_N z)
       else match r with
            | EmptyString => ""
            | String d EmptyString =>
                String d (exponent_text (Z.of_nat (String.length r) + Z.of_nat t - 1))
            | String d rest =>
                String d ("." +:+ rest +:+
                          exponent_text (Z.of_nat (String.length r) + Z.of_nat t - 1))
            end).
Proof.
  intros Hz. unfold number_text.
  assert (z =? 0 = false) as -> by (apply Z.eqb_neq, Hz).
  destruct (strip_zeros (decimal (Z.abs_N z))) as [r t] eqn:Es.
  pose proof (strip_zeros_spec _ _ _ Es) as Hds.
  exists r, t. split; [exact Hds|]. split.
  - intros ->. rewrite append_nil in Hds.
    pose proof (digits_value_decimal (Z.abs_N z)) as Hv.
    rewrite Hds, digits_value_zeros in Hv. lia.
  - f_equal. rewrite Z.add_0_r.
    set (k := Z.of_nat (String.length r)). set (n := k + Z.of_nat t).
    assert (k <=? n = true) as -> by (apply Z.leb_le; lia).
    destruct (n <=? 21) eqn:En; cbn [andb].
    + replace (Z.to_nat (n - k)) with t by lia. symmetry. exact Hds.
    + rewrite andb_false_r. apply Z.leb_gt in En.
      assert (n <=? 0 = false) as -> by (apply Z.leb_gt; lia).
      rewrite andb_false_r. reflexivity.
Qed.

Lemma parse_number_text z rest :
  delimited rest -> parse_number (number_text z 0 +:+ rest) = Some (VNum z, rest).
Proof.
  intros Hr. destruct (decide (z = 0)) as [->|Hz].
  { change (number_text 0 0) with "0". rewrite append_cons, append_nil.
    cbn [parse_number]. change (Ascii.eqb "0" "-") with false. cbv iota.
    change (String "0" rest) with ("0" +:+ rest).
    rewrite parse_unsigned_plain; [reflexivity | reflexivity | discriminate | reflexivity
                                  | exact Hr]. }
  destruct (number_text_integer z Hz) as (r & t & Hds & Hne & ->).
  pose proof (digits_value_decimal (Z.abs_N z)) as Hv.
  assert (forall negative, negative = (z <? 0) ->
            number_of negative (Z.abs_N z) 0 = VNum z) as Hnum.
  { intros negative ->. unfold number_of.
    assert ((Z.abs_N z =? 0)%N = false) as -> by (apply N.eqb_neq; lia).
    cbn [Z.leb Z.compare]. f_equal. rewrite Z.pow_0_r. destruct (Z.ltb_spec z 0); lia. }
  assert (digits_only r = true /\ digits_only (zeros t) = true) as [Hdr _].
  { apply andb_true_iff. rewrite <- digits_only_append, <- Hds. apply digits_only_uint. }
  assert (forall negative, negative = (z <? 0) ->
            parse_unsigned negative
              ((if Z.of_nat (String.length r) + Z.of_nat t <=? 21
                then decimal (Z.abs_N z)
                else match r with
                     | EmptyString => ""
                     | String d EmptyString =>
                         String d (exponent_text
                                     (Z.of_nat (String.length r) + Z.of_nat t - 1))
                     | String d rest0 =>
                         String d ("." +:+ rest0 +:+
                                   exponent_text
                                     (Z.of_nat (String.length r) + Z.of_nat t - 1))
                     end) +:+ rest) = Some (VNum z, rest)) as Hparse.
  { intros negative Hneg. destruct (_ <=? 21) eqn:En.
    - destruct (decimal_head (Z.abs_N z)) as (c & x & Hc & _).
      rewrite parse_unsigned_plain;
        [| apply digits_only_uint | rewrite Hc; discriminate | apply leading_zero_decimal
         | exact Hr].
      rewrite Hv. rewrite (Hnum negative Hneg). reflexivity.
    - apply Z.leb_gt in En. destruct r as [|d frac]; [done|].
      cbn [digits_only] in Hdr. apply andb_true_iff in Hdr as [Hd Hf].
      cbn [String.length] in *.
      pose proof (parse_unsigned_exponent negative d frac
                    (Z.of_nat (Datatypes.S (String.length frac)) + Z.of_nat t - 1) rest
                    Hd Hf ltac:(lia) Hr) as Hp.
      destruct frac as [|c frac]; rewrite Hp; f_equal; f_equal.
      all: rewrite Hds, digits_value_append, digits_value_zeros in Hv.
      all: unfold number_of.
      all: assert ((digits_value 0 _ =? 0)%N = false) as -> by (apply N.eqb_neq; lia).
      all: match goal with
           | |- context [0 <=? ?e] =>
               replace e with (Z.of_nat t) by (cbn [String.length]; lia)
           end.
      all: assert (0 <=? Z.of_nat t = true) as -> by (apply Z.leb_le; lia).
      all: f_equal; rewrite Hneg.
      all: assert (Z.of_N (Z.abs_N z) = Z.abs z) as Ha by lia.
      all: rewrite <- Hv in Ha; rewrite N2Z.inj_mul, N2Z.inj_pow, nat_N_Z in Ha.
      all: change (Z.of_N 10) with 10 in Ha; rewrite Ha.
      all: destruct (Z.ltb_spec z 0); lia. }
  destruct (z <? 0) eqn:Eneg.
  - rewrite append_cons, append_nil. cbn [parse_number].
    change (Ascii.eqb "-" "-") with true. cbv iota. apply Hparse. reflexivity.
  - rewrite append_nil.
    assert (exists c x, (if Z.of_nat (String.length r) + Z.of_nat t <=? 21
                         then decimal (Z.abs_N z)
                         else match r with
                              | EmptyString => ""
                              | String d EmptyString =>
                                  String d (exponent_text
                                              (Z.of_nat (String.length r) + Z.of_nat t - 1))
                              | String d rest0 =>
                                  String d ("." +:+ rest0 +:+
                                            exponent_text
                                              (Z.of_nat (String.length r) + Z.of_nat t - 1))
                              end) = String c x /\ is_digit c = true) as (c & x & Hc & Hdig).
    { destruct (_ <=? 21); [apply decimal_head|].
      destruct r as [|d frac]; [done|]. cbn [digits_only] in Hdr.
      apply andb_true_iff in Hdr as [Hd _].
      destruct frac; eexists _, _; (split; [reflexivity | exact Hd]). }
    pose proof (Hparse false eq_refl) as Hp. rewrite Hc in *. rewrite append_cons in *.
    cbn [parse_number]. rewrite (digit_not_minus c Hdig). exact Hp.
Qed.

Lemma number_head z :
  exists c t, number_text z 0 = String c t /\ (is_digit c = true \/ c = "-"%char).
Proof.
  destruct (decide (z = 0)) as [->|Hz].
  { eexists _, _. split; [reflexivity | by left]. }
  destruct (number_text_integer z Hz) as (r & t & Hds & Hne & ->).
  destruct (z <? 0).
  - eexists _, _. split; [reflexivity | by right].
  - rewrite append_nil. destruct (_ <=? 21).
    + destruct (decimal_head (Z.abs_N z)) as (c & x & -> & Hc).
      eexists _, _. split; [reflexivity | by left].
    + assert (digits_only r = true) as Hdr.
      { assert (digits_only (r +:+ zeros t) = true) as Hd
          by (rewrite <- Hds; apply digits_only_uint).
        rewrite digits_only_append in Hd. apply andb_true_iff in Hd. tauto. }
      destruct r as [|d frac]; [done|]. cbn [digits_only] in Hdr.
      apply andb_true_iff in Hdr as [Hd _].
      destruct frac; eexists _, _; (split; [reflexivity | by left]).
Qed.


(** *** Objects *)
Lemma is_name_index k : is_name k = true <-> array_index k = None.
Proof. unfold is_name. destruct (array_index k); split; done. Qed.

Lemma eqb_sym (a b : string) : String.eqb a b = String.eqb b a.
Proof.
  destruct (String.eqb a b) eqn:E.
  - apply String.eqb_eq in E. subst. symmetry. apply String.eqb_refl.
  - symmetry. apply String.eqb_neq. apply String.eqb_neq in E. congruence.
Qed.

Lemma existsb_append k (a b : list string) :
  existsb (String.eqb k) (a ++ b) = existsb (String.eqb k) a || existsb (String.eqb k) b.
Proof. apply List.existsb_app. Qed.

Lemma distinct_prefix (a b : list string) : distinct (a ++ b) = true -> distinct a = true.
Proof.
  induction a as [|k a IH]; [done|]. cbn [Datatypes.app distinct]. rewrite !andb_true_iff.
  intros [Hk Hd]. split; [|apply IH, Hd].
  rewrite existsb_append, negb_orb in Hk. apply andb_true_iff in Hk. tauto.
Qed.

Lemma distinct_last (a : list string) k :
  distinct (a ++ [k]) = true -> existsb (String.eqb k) a = false.
Proof.
  induction a as [|k' a IH]; [done|]. cbn [Datatypes.app distinct existsb]. rewrite andb_true_iff.
  intros [Hk Hd]. rewrite (IH Hd), orb_false_r.
  rewrite existsb_append, negb_orb in Hk. apply andb_true_iff in Hk as [_ Hk].
  cbn [existsb] in Hk. rewrite orb_false_r in Hk. rewrite eqb_sym.
  apply negb_true_iff, Hk.
Qed.

Lemma ordered_prefix (a b : list string) : forall bound,
  ordered bound (a ++ b) = true -> ordered bound a = true.
Proof.
  induction a as [|k a IH]; intros bound; [done|]. cbn [Datatypes.app ordered].
  destruct (array_index k) as [i|].
  - rewrite !andb_true_iff. intros [Hb Ho]. split; [exact Hb | apply (IH _ Ho)].
  - rewrite !andb_true_iff. intros [Hn Hd]. split.
    + rewrite forallb_app in Hn. apply andb_true_iff in Hn. tauto.
    + apply (distinct_prefix (k :: a) b), Hd.
Qed.

(** The indices before a last index are below it. *)
Lemma ordered_below (a : list string) k i : forall j,
  array_index k = Some i -> ordered (Some j) (a ++ [k]) = true -> (j < i)%N.
Proof.
  induction a as [|k' a IH]; intros j Hk; cbn [Datatypes.app ordered].
  - rewrite Hk, andb_true_iff. intros [Hj _]. apply N.ltb_lt, Hj.
  - destruct (array_index k') as [j'|].
    + rewrite andb_true_iff. intros [Hj Ho]. apply N.ltb_lt in Hj.
      specialize (IH j' Hk Ho). lia.
    + rewrite andb_true_iff, forallb_app. intros [Hn _].
      apply andb_true_iff in Hn as [_ Hn]. cbn in Hn. rewrite andb_true_r in Hn.
      apply is_name_index in Hn. congruence.
Qed.

Lemma define_index_last i k v (props : list (string * value)) : forall bound,
  array_index k = Some i ->
  ordered bound (map fst props ++ [k]) = true ->
  define_index i k v props = props ++ [(k, v)].
Proof.
  induction props as [|[k' v'] props IH]; intros bound Hk; [done|].
  cbn [map fst Datatypes.app ordered define_index].
  destruct (array_index k') as [j|].
  - rewrite andb_true_iff. intros [_ Ho].
    pose proof (ordered_below _ _ _ _ Hk Ho) as Hlt.
    assert ((i <? j)%N = false) as -> by (apply N.ltb_ge; lia).
    assert ((i =? j)%N = false) as -> by (apply N.eqb_neq; lia).
    rewrite (IH _ Hk Ho). reflexivity.
  - rewrite andb_true_iff, forallb_app. intros [Hn _].
    apply andb_true_iff in Hn as [_ Hn]. cbn in Hn. rewrite andb_true_r in Hn.
    apply is_name_index in Hn. congruence.
Qed.

Lemma ordered_fresh (a : list string) k : forall bound,
  array_index k = None -> ordered bound (a ++ [k]) = true ->
  existsb (String.eqb k) a = false.
Proof.
  induction a as [|k' a IH]; intros bound Hk; [done|]. cbn [Datatypes.app ordered existsb].
  destruct (array_index k') as [j|] eqn:Ej.
  - rewrite andb_true_iff. intros [_ Ho]. rewrite (IH _ Hk Ho), orb_false_r.
    apply String.eqb_neq. intros ->. congruence.
  - rewrite andb_true_iff. intros [_ Hd].
    apply (distinct_last (k' :: a) k) in Hd. exact Hd.
Qed.

Lemma define_name_fresh k v props :
  existsb (String.eqb k) (map fst props) = false ->
  define_name k v props = props ++ [(k, v)].
Proof.
  induction props as [|[k' v'] props IH]; [reflexivity|].
  cbn [map existsb fst define_name].
  intros Hk. apply orb_false_iff in Hk as [Hk Hr]. rewrite Hk, (IH Hr). reflexivity.
Qed.

Lemma define_last k v props :
  ordered None (map fst props ++ [k]) = true -> define k v props = props ++ [(k, v)].
Proof.
  intros Ho. unfold define. destruct (array_index k) as [i|] eqn:Ek.
  - apply (define_index_last i k v props None Ek Ho).
  - apply define_name_fresh, (ordered_fresh _ _ None Ek Ho).
Qed.

Lemma fold_define l : forall acc,
  ordered None (map fst (acc ++ l)) = true ->
  fold_left (fun props kv => define (fst kv) (snd kv) props) l acc = acc ++ l.
Proof.
  induction l as [|[k v] l IH]; intros acc Ho; [by rewrite List.app_nil_r|].
  cbn [fold_left fst snd]. rewrite define_last.
  - rewrite IH; [by rewrite <- List.app_assoc|]. rewrite <- List.app_assoc. exact Ho.
  - rewrite List.map_app in Ho. cbn [map fst] in Ho.
    change (k :: map fst l) with ([k] ++ map fst l) in Ho.
    rewrite List.app_assoc in Ho. apply (ordered_prefix _ _ _ Ho).
Qed.

Lemma object_of_ordered props :
  ordered None (map fst props) = true -> object_of props = VObj props.
Proof. intros Ho. unfold object_of. rewrite fold_define; [reflexivity | exact Ho]. Qed.

(** *** Values *)
Lemma value_head_skip c x :
  value_head c = true ->
  skip_ws (String c x) = String c x /\
  starts_with "]" (String c x) = None /\
  starts_with "}" (String c x) = None.
Proof. each_char c; done. Qed.

Lemma plain_text v : plain v = true -> exists t, stringify v = Some t.
Proof. destruct v; try done; eexists; reflexivity. Qed.

Lemma text_head v t :
  plain v = true -> stringify v = Some t ->
  exists c t', t = String c t' /\ value_head c = true.
Proof.
  destruct v as [| |b|z|m e|x|bs|vs|props]; try discriminate; intros _;
    cbn [stringify]; intros [= <-]; try (eexists _, _; split; reflexivity).
  - destruct b; eexists _, _; split; reflexivity.
  - destruct (number_head z) as (c & t & -> & [Hc| ->]); eexists _, _;
      (split; [reflexivity|]); [|reflexivity].
    unfold value_head. rewrite Hc. reflexivity.
Qed.

Lemma parse_value_string fuel x :
  parse_value (Datatypes.S fuel) (String dquote x)
  = match parse_chars None x with
    | Some (y, r) => Some (VStr y, r)
    | None => None
    end.
Proof. reflexivity. Qed.

Lemma parse_value_array fuel x :
  parse_value (Datatypes.S fuel) (String "[" x)
  = match starts_with "]" (skip_ws x) with
    | Some r => Some (VArr [], r)
    | None =>
        match parse_elements fuel x with
        | Some (vs, r) => Some (VArr vs, r)
        | None => None
        end
    end.
Proof. reflexivity. Qed.

Lemma parse_value_object fuel x :
  parse_value (Datatypes.S fuel) (String "{" x)
  = match starts_with "}" (skip_ws x) with
    | Some r => Some (VObj [], r)
    | None =>
        match parse_members fuel x with
        | Some (ms, r) => Some (object_of ms, r)
        | None => None
        end
    end.
Proof. reflexivity. Qed.

Lemma parse_value_number fuel c x :
  is_digit c = true \/ c = "-"%char ->
  parse_value (Datatypes.S fuel) (String c x) = parse_number (String c x).
Proof. each_char c; intros [?|?]; done. Qed.

Lemma parse_elements_step fuel x :
  parse_elements (Datatypes.S fuel) x
  = match parse_value fuel x with
    | Some (v, r) =>
        match starts_with "," (skip_ws r) with
        | Some r' =>
            match parse_elements fuel r' with
            | Some (vs, r'') => Some (v :: vs, r'')
            | None => None
            end
        | None =>
            match starts_with "]" (skip_ws r) with
            | Some r' => Some ([v], r')
            | None => None
            end
        end
    | None => None
    end.
Proof. reflexivity. Qed.

Lemma parse_members_step fuel x k r :
  parse_chars None x = Some (k, String ":" r) ->
  parse_members (Datatypes.S fuel) (String dquote x)
  = match parse_value fuel r with
    | Some (v, r2) =>
        match starts_with "," (skip_ws r2) with
        | Some r3 =>
            match parse_members fuel r3 with
            | Some (ms, r4) => Some ((k, v) :: ms, r4)
            | None => None
            end
        | None =>
            match starts_with "}" (skip_ws r2) with
            | Some r3 => Some ([(k, v)], r3)
            | None => None
            end
        end
    | None => None
    end.
Proof.
  intros Hk. cbn [parse_members]. change (skip_ws (String dquote x)) with (String dquote x).
  change (starts_with dquote (String dquote x)) with (Some x). cbv iota. rewrite Hk.
  reflexivity.
Qed.

Lemma member_texts_cons k v props :
  member_texts ((k, v) :: props)
  = match stringify v with
    | Some t => member k t :: member_texts props
    | None => member_texts props
    end.
Proof. unfold member_texts. cbn. destruct (stringify v); reflexivity. Qed.

Lemma texts_cons v vs : texts (v :: vs) = default "null" (stringify v) :: texts vs.
Proof. reflexivity. Qed.

Lemma join_cons sep x y l : join sep (x :: y :: l) = x +:+ sep +:+ join sep (y :: l).
Proof. reflexivity. Qed.

Lemma round_trip_fuel fuel :
  (forall v t rest,
      plain v = true -> stringify v = Some t -> (String.length t <= fuel)%nat ->
      delimited rest -> parse_value fuel (t +:+ rest) = Some (v, rest)) /\
  (forall vs rest,
      vs <> [] -> forallb plain vs = true ->
      (String.length (join "," (texts vs)) < fuel)%nat ->
      parse_elements fuel (join "," (texts vs) +:+ String "]" rest) = Some (vs, rest)) /\
  (forall props rest,
      props <> [] -> forallb well_formed (map fst props) = true ->
      forallb (fun kv => plain (snd kv)) props = true ->
      (String.length (join "," (member_texts props)) < fuel)%nat ->
      parse_members fuel (join "," (member_texts props) +:+ String "}" rest)
      = Some (props, rest)).
Proof.
  induction fuel as [|fuel (IHv & IHe & IHm)].
  { split; [|split; intros; lia].
    intros v t rest Hp Ht Hl _. destruct (text_head v t Hp Ht) as (c & t' & -> & _).
    cbn [String.length] in Hl. lia. }
  split; [|split].
  - intros v t rest Hp Ht Hl Hd.
    destruct v as [| |b|z|m e|x|bs|vs|props]; try discriminate Hp; cbn [stringify] in Ht;
      injection Ht as <-.
    + reflexivity.
    + destruct b; reflexivity.
    + destruct (number_head z) as (c & t & Hz & Hc).
      pose proof (parse_number_text z rest Hd) as Hn. rewrite Hz in *.
      rewrite append_cons in *. rewrite (parse_value_number _ _ _ Hc), Hn. reflexivity.
    + cbn [plain] in Hp.
      rewrite quote_append, parse_value_string, (parse_escape _ _ Hp). reflexivity.
    + cbn [plain] in Hp. fold (texts vs) in *.
      rewrite !append_cons, append_nil, append_assoc, append_cons, append_nil.
      rewrite parse_value_array.
      destruct vs as [|v vs]; [reflexivity|].
      assert (exists c x, join "," (texts (v :: vs)) +:+ String "]" rest = String c x
                          /\ value_head c = true) as (c & x & Hj & Hc).
      { cbn [forallb] in Hp. apply andb_true_iff in Hp as [Hv _].
        destruct (plain_text v Hv) as [t Htv].
        destruct (text_head v t Hv Htv) as (c & t' & -> & Hc).
        rewrite texts_cons, Htv. cbn [default from_option id].
        destruct vs; [|rewrite texts_cons, join_cons]; cbn [texts map join];
          rewrite !append_cons; eexists _, _; (split; [reflexivity | exact Hc]). }
      rewrite Hj. destruct (value_head_skip c x Hc) as (-> & -> & _). rewrite <- Hj.
      rewrite IHe; [reflexivity | done | exact Hp |].
      rewrite !append_cons, append_nil in Hl. cbn [String.length] in Hl.
      rewrite length_append in Hl. cbn [String.length] in Hl. lia.
    + cbn [plain] in Hp. apply andb_true_iff in Hp as [Hk Hp].
      apply andb_true_iff in Hk as [Hk Hw].
      fold (member_texts props) in *.
      rewrite !append_cons, append_nil, append_assoc, append_cons, append_nil.
      rewrite parse_value_object.
      destruct props as [|[k v] props]; [reflexivity|].
      assert (exists x, join "," (member_texts ((k, v) :: props)) +:+ String "}" rest
                        = String dquote x) as (x & Hj).
      { cbn [forallb snd] in Hp. apply andb_true_iff in Hp as [Hv _].
        destruct (plain_text v Hv) as [t Htv].
        rewrite member_texts_cons, Htv. unfold member at 1.
        destruct (member_texts props); [|rewrite join_cons]; cbn [join];
          rewrite ?append_assoc, quote_append; eexists; reflexivity. }
      rewrite Hj. change (skip_ws (String dquote x)) with (String dquote x).
      change (starts_with "}" (String dquote x)) with (@None string). cbv iota.
      rewrite <- Hj.
      rewrite IHm; [by rewrite (object_of_ordered _ Hk) | done | exact Hw | exact Hp |].
      rewrite !append_cons, append_nil in Hl. cbn [String.length] in Hl.
      rewrite length_append in Hl. cbn [String.length] in Hl. lia.
  - intros vs rest Hne Hp Hl. destruct vs as [|v vs]; [done|].
    cbn [forallb] in Hp. apply andb_true_iff in Hp as [Hv Hp].
    destruct (plain_text v Hv) as [t Htv].
    destruct (text_head v t Hv Htv) as (c & t' & Hct & _).
    rewrite texts_cons, Htv in *. cbn [default from_option id] in *.
    rewrite parse_elements_step.
    destruct vs as [|v2 vs].
    + cbn [texts map join] in *.
      rewrite (IHv v t (String "]" rest) Hv Htv); [reflexivity | lia | by right; left].
    + assert (join "," (t :: texts (v2 :: vs)) = t +:+ "," +:+ join "," (texts (v2 :: vs)))
        as Hj by (rewrite texts_cons; apply join_cons).
      rewrite Hj in *. rewrite !append_assoc, append_cons, append_nil.
      rewrite !length_append in Hl. cbn [String.length] in Hl.
      rewrite (IHv v t _ Hv Htv); [| lia | by left].
      change (skip_ws (String "," ?x)) with (String "," x).
      cbn [starts_with]. change (Ascii.eqb "," ",") with true. cbv iota.
      rewrite IHe; [reflexivity | done | exact Hp |].
      subst t. cbn [String.length] in Hl. lia.
  - intros props rest Hne Hw Hp Hl. destruct props as [|[k v] props]; [done|].
    cbn [forallb snd] in Hp. apply andb_true_iff in Hp as [Hv Hp].
    cbn [map fst forallb] in Hw. apply andb_true_iff in Hw as [Hwk Hw].
    destruct (plain_text v Hv) as [t Htv].
    destruct (text_head v t Hv Htv) as (c & t' & Hct & _).
    rewrite member_texts_cons, Htv in *.
    destruct props as [|p2 props].
    + change (member_texts []) with (@nil string) in *. cbn [join] in *.
      unfold member in *.
      rewrite !append_assoc, quote_append, append_cons, append_nil.
      rewrite !length_append in Hl. cbn [String.length] in Hl.
      rewrite (parse_members_step fuel _ k (t +:+ String "}" rest));
        [|apply parse_escape, Hwk].
      rewrite (IHv v t (String "}" rest) Hv Htv); [reflexivity | lia | by right; right].
    + assert (exists m ms, member_texts (p2 :: props) = m :: ms) as (m & ms & Hms).
      { destruct p2 as [k2 v2]. cbn [forallb snd] in Hp.
        apply andb_true_iff in Hp as [Hv2 _]. destruct (plain_text v2 Hv2) as [t2 Ht2].
        rewrite member_texts_cons, Ht2. eexists _, _. reflexivity. }
      rewrite Hms in *. rewrite join_cons in *. rewrite <- Hms in *. unfold member in *.
      rewrite !append_assoc, quote_append, !append_cons, append_nil.
      rewrite !length_append in Hl. cbn [String.length] in Hl.
      rewrite (parse_members_step fuel _ k
                 (t +:+ String "," (join "," (member_texts (p2 :: props))
                                    +:+ String "}" rest)));
        [|apply parse_escape, Hwk].
      rewrite (IHv v t _ Hv Htv); [| lia | by left].
      change (skip_ws (String "," ?x)) with (String "," x).
      cbn [starts_with]. change (Ascii.eqb "," ",") with true. cbv iota.
      rewrite IHm; [reflexivity | done | exact Hw | exact Hp | lia].
Qed.

Theorem parse_stringify (v : value) (t : string) :
  plain v = true -> stringify v = Some t -> parse t = Some v.
Proof.
  intros Hp Ht. unfold parse.
  destruct (round_trip_fuel (Datatypes.S (String.length t))) as [Hv _].
  specialize (Hv v t "" Hp Ht). rewrite append_empty in Hv.
  rewrite Hv; [reflexivity | lia | done].
Qed.
End JsonFacts.

(** ** The relay *)
Module RelayFacts.
Import Server.
Section Facts.
Context {S : Sodium} {C : Cbor} {G : TypeGuards} {H : Host}.

Lemma relay_inv_ret P {A} (a : A) : inv P (ret a).
Proof. intros s Hs. exact Hs. Qed.

Lemma relay_inv_throw P {A} e : inv P (throw e : M A).
Proof. intros s Hs. exact Hs. Qed.

Lemma relay_inv_tell P e : inv P (tell e).
Proof. intros s Hs. exact Hs. Qed.

Lemma relay_inv_gets P {A} (f : state -> A) : inv P (gets f).
Proof. intros s Hs. exact Hs. Qed.

Lemma relay_inv_lift P {A} (o : option A) : inv P (lift o).
Proof. destruct o; intros s Hs; exact Hs. Qed.

Lemma relay_inv_modify (P : state -> Prop) f : (forall s, P s -> P (f s)) -> inv P (modify f).
Proof. intros Hf s Hs. apply Hf, Hs. Qed.

Lemma relay_inv_bind P {A B} (m : M A) (k : A -> M B) :
  inv P m -> (forall a, inv P (k a)) -> inv P (bind m k).
Proof.
  intros Hm Hk s Hs. unfold bind. specialize (Hm s Hs).
  destruct (m s) as [[[e|a] s1] out]; simpl in *; [exact Hm|].
  specialize (Hk a s1 Hm). destruct (k a s1) as [[r s2] out']. exact Hk.
Qed.

Lemma relay_inv_try_catch P {A} (m : M A) h :
  inv P m -> (forall e, inv P (h e)) -> inv P (try_catch m h).
Proof.
  intros Hm Hh s Hs. unfold try_catch. specialize (Hm s Hs).
  destruct (m s) as [[[e|a] s1] out]; simpl in *; [|exact Hm].
  specialize (Hh e s1 Hm). destruct (h e s1) as [[r s2] out']. exact Hh.
Qed.

Lemma relay_inv_for_each P {A} (l : list A) f :
  (forall a, inv P (f a)) -> inv P (for_each l f).
Proof.
  intros Hf. induction l as [|a l IH]; simpl.
  - apply relay_inv_ret.
  - apply relay_inv_bind; [apply Hf | intros _; exact IH].
Qed.

Ltac inv_step :=
  cbv zeta;
  lazymatch goal with
  | |- inv _ (ret _) => apply relay_inv_ret
  | |- inv _ (throw _) => apply relay_inv_throw
  | |- inv _ (tell _) => apply relay_inv_tell
  | |- inv _ (gets _) => apply relay_inv_gets
  | |- inv _ (lift _) => apply relay_inv_lift
  | |- inv _ (bind _ _) => apply relay_inv_bind
  | |- inv _ (try_catch _ _) => apply relay_inv_try_catch
  | |- inv _ (for_each _ _) => apply relay_inv_for_each
  | |- inv _ (if ?b then _ else _) => destruct b
  | |- inv _ (match ?x with _ => _ end) => destruct x
  | |- forall _, _ => intro
  end.

Ltac inv_auto := repeat inv_step.

Lemma inv_hand (P : state -> Prop) d :
  (forall h s, P s -> P (set_host h s)) -> inv P (hand d).
Proof.
  intros Hh s Hs. unfold hand. destruct (deliver (host s) d) as [h r]. simpl.
  apply Hh, Hs.
Qed.

Lemma inv_logWebSocketConnections P : inv P logWebSocketConnections.
Proof. unfold logWebSocketConnections. inv_auto. Qed.

Ltac inv_frame HP :=
  inv_auto;
  try apply inv_logWebSocketConnections;
  try (apply inv_hand; apply HP);
  try (apply relay_inv_modify; apply HP).

Lemma inv_sendEncrypted P ws payload : framed P -> inv P (sendEncrypted ws payload).
Proof. intros HP. unfold sendEncrypted, encryptForSocket. inv_frame HP. Qed.

Lemma inv_listeners P d : framed P -> inv P (listeners d).
Proof. intros HP. unfold listeners. inv_frame HP. Qed.

Lemma inv_on_res_event P ws rid ev : framed P -> inv P (on_res_event ws rid ev).
Proof.
  intros HP. unfold on_res_event. inv_auto; apply inv_sendEncrypted, HP.
Qed.

Lemma inv_handleTunnelHttpRequest P ws req :
  framed P -> inv P (handleTunnelHttpRequest ws req).
Proof.
  intros HP. unfold handleTunnelHttpRequest. inv_auto;
    first [ apply inv_hand; apply HP | apply inv_on_res_event, HP
          | apply inv_sendEncrypted, HP ].
Qed.

Lemma inv_onSend P mock p : framed P -> inv P (onSend mock p).
Proof. intros HP. unfold onSend. inv_auto. apply inv_sendEncrypted, HP. Qed.

Lemma inv_onClose P mock c r : framed P -> inv P (onClose mock c r).
Proof. intros HP. unfold onClose. inv_auto. apply inv_sendEncrypted, HP. Qed.

Lemma inv_on_connection P ws : inv P (on_connection ws).
Proof. unfold on_connection. inv_auto. Qed.

Lemma inv_decryptEnvelopeForSocket P ws env : inv P (decryptEnvelopeForSocket ws env).
Proof.
  unfold decryptEnvelopeForSocket. inv_auto; apply inv_logWebSocketConnections.
Qed.

Lemma inv_handleTunnelWebSocketMessage P req :
  framed P -> inv P (handleTunnelWebSocketMessage req).
Proof.
  intros HP. unfold handleTunnelWebSocketMessage, emitMessage. inv_auto.
  apply inv_listeners, HP.
Qed.

(** *** The key of a socket *)
Lemma framed_keeps_key ws k : framed (keeps_key ws k).
Proof. repeat split; intros ? s Hs; exact Hs. Qed.

Lemma keeps_key_connections ws k f s :
  keeps_key ws k s -> keeps_key ws k (set_connections f s).
Proof. intros Hs. exact Hs. Qed.

Lemma keeps_handleTunnelWebSocketConnect ws k ws' req :
  inv (keeps_key ws k) (handleTunnelWebSocketConnect ws' req).
Proof.
  pose proof (framed_keeps_key ws k) as HP.
  unfold handleTunnelWebSocketConnect, addClient. inv_auto;
    first [ apply inv_sendEncrypted, HP | apply inv_listeners, HP
          | apply relay_inv_modify; intros s Hs; exact Hs ].
Qed.

Lemma keeps_handleTunnelWebSocketClose ws k req :
  inv (keeps_key ws k) (handleTunnelWebSocketClose req).
Proof.
  pose proof (framed_keeps_key ws k) as HP.
  unfold handleTunnelWebSocketClose, emitClose, deleteClient. inv_auto;
    first [ apply inv_listeners, HP | apply relay_inv_modify; intros s Hs; exact Hs ].
Qed.

Lemma keeps_dispatch ws k ws' message :
  inv (keeps_key ws k) (dispatch ws' message).
Proof.
  pose proof (framed_keeps_key ws k) as HP.
  unfold dispatch. inv_auto;
    first [ apply inv_logWebSocketConnections
          | apply inv_handleTunnelHttpRequest, HP
          | apply keeps_handleTunnelWebSocketConnect
          | apply inv_handleTunnelWebSocketMessage, HP
          | apply keeps_handleTunnelWebSocketClose ].
Qed.

Lemma keeps_client_kx ws k ws' message :
  inv (keeps_key ws k) (client_kx ws' message).
Proof.
  intros s Hs. unfold client_kx, try_catch, bind, gets, lift, modify, tell, ret, throw.
  simpl. destruct (symmetricKeyBySocket s !! ws') eqn:E; simpl; [exact Hs|].
  destruct (from_base64 _); simpl; [|exact Hs].
  destruct (crypto_box_seal_open _ _ _); simpl; [|exact Hs].
  unfold keeps_key in *. simpl. rewrite lookup_insert_ne; [exact Hs|].
  intros ->. congruence.
Qed.

Lemma keeps_on_message ws k ws' dat :
  inv (keeps_key ws k) (on_message ws' dat).
Proof.
  unfold on_message. inv_auto;
    first [ apply keeps_client_kx | apply inv_decryptEnvelopeForSocket
          | apply keeps_dispatch ].
Qed.

Lemma keeps_cleanup ws k ws' entries :
  ws' <> ws -> inv (keeps_key ws k) (cleanup ws' entries).
Proof.
  intros Hne. pose proof (framed_keeps_key ws k) as HP.
  induction entries as [|[connId conn] rest IH]; simpl; [apply relay_inv_ret|].
  apply relay_inv_bind; [|intros removed; apply relay_inv_bind; [exact IH | intros; apply relay_inv_ret]].
  case_bool_decide as Hc; [|apply relay_inv_ret].
  unfold emitClose, deleteClient. inv_auto;
    first [ apply inv_listeners, HP
          | apply relay_inv_modify; intros s Hs; try exact Hs ].
  unfold keeps_key in *. simpl. rewrite lookup_delete_ne; [exact Hs | congruence].
Qed.

Lemma keeps_on_close ws k ws' : ws' <> ws -> inv (keeps_key ws k) (on_close ws').
Proof.
  intros Hne. unfold on_close. inv_auto.
  - apply relay_inv_modify. intros s Hs. unfold keeps_key in *. simpl.
    rewrite lookup_delete_ne; [exact Hs | exact Hne].
  - apply keeps_cleanup, Hne.
  - apply relay_inv_modify. intros s Hs. exact Hs.
Qed.

Lemma keeps_step ws k i s :
  ~ closes ws i -> keeps_key ws k s -> keeps_key ws k (fst (step s i)).
Proof.
  intros Hi Hs. pose proof (framed_keeps_key ws k) as HP.
  assert (inv (keeps_key ws k) (handler i)) as Hinv.
  { destruct i as [u ws'|ws' event dat|ws' rid ev|mock p|mock c r]; simpl.
    - destruct (upgrade u); inv_auto; apply inv_on_connection.
    - unfold emit. destruct (String.eqb event "message") eqn:E1;
        [apply keeps_on_message|].
      destruct (String.eqb event "close") eqn:E2; [|apply relay_inv_tell].
      apply keeps_on_close. intros ->. apply Hi. exists dat.
      apply String.eqb_eq in E2. by subst.
    - apply inv_on_res_event, HP.
    - apply inv_onSend, HP.
    - apply inv_onClose, HP. }
  specialize (Hinv s Hs). unfold step, exec.
  destruct (handler i s) as [[r s'] out]. exact Hinv.
Qed.

Lemma keeps_run ws k trace s :
  Forall (fun i => ~ closes ws i) trace ->
  keeps_key ws k s -> keeps_key ws k (fst (run s trace)).
Proof.
  intros Ht. revert s. induction Ht as [|i trace Hi Ht IH]; intros s Hs; [exact Hs|].
  simpl. pose proof (keeps_step ws k i s Hi Hs) as H1.
  destruct (step s i) as [s1 out]. specialize (IH s1 H1).
  destruct (run s1 trace) as [s2 out']. exact IH.
Qed.

(** C1.  A symmetric key is installed on a control socket by at most one
    [client_kx].  When the socket has no key, a [client_kx] whose sealed
    key opens stores that key for the socket.  When the socket has a key,
    a [client_kx] leaves the whole state as it is and only logs that it is
    ignored.  The stored key stays the same along every run of inputs in
    which the socket does not close. *)
Theorem key_installed_once (s : state) (ws : socket) (dat : bytes)
    (message : value) (kx : ControlChannelKXConfirm) :
  decode dat = Some message ->
  isControlChannelKXConfirm message = Some kx ->
  (forall sealed k,
      symmetricKeyBySocket s !! ws = None ->
      from_base64 (sealedSymmetricKey kx) = Some sealed ->
      crypto_box_seal_open sealed (x25519PublicKey s) (x25519PrivateKey s) = Some k ->
      symmetricKeyBySocket (fst (step s (Emit ws "message" dat))) !! ws = Some k) /\
  (forall k,
      symmetricKeyBySocket s !! ws = Some k ->
      step s (Emit ws "message" dat)
      = (s, [Console "client_kx received after key already set; ignoring"])) /\
  (forall k trace,
      symmetricKeyBySocket s !! ws = Some k ->
      Forall (fun i => ~ closes ws i) trace ->
      symmetricKeyBySocket (fst (run s trace)) !! ws = Some k).
Proof.
  intros Hdec Hkx. split; [|split].
  - intros sealed k Hnone Hb Ho.
    unfold step, exec, handler, emit. simpl. unfold on_message. rewrite Hdec, Hkx.
    unfold client_kx, try_catch, bind, gets, lift, modify, ret. simpl.
    rewrite Hnone. simpl. rewrite Hb. simpl. rewrite Ho. simpl.
    apply lookup_insert_eq.
  - intros k Hk.
    unfold step, exec, handler, emit. simpl. unfold on_message. rewrite Hdec, Hkx.
    unfold client_kx, try_catch, bind, gets, tell. simpl. rewrite Hk. reflexivity.
  - intros k trace Hk Ht. exact (keeps_run ws k trace s Ht Hk).
Qed.

(** C2.  Once a key is installed on a control socket, an inbound message
    that is not an encrypted envelope is dropped: the state is unchanged
    and the only output is a console line, so nothing is dispatched to a
    handler, delivered to the host or sent.  Before the key is installed,
    every inbound message other than a [client_kx] is dropped in the same
    way. *)
Theorem plaintext_never_dispatched (s : state) (ws : socket) (dat : bytes)
    (message : value) :
  decode dat = Some message ->
  (forall k,
      symmetricKeyBySocket s !! ws = Some k ->
      isControlChannelEncryptedMessage message = None ->
      exists msg, step s (Emit ws "message" dat) = (s, [Console msg])) /\
  (symmetricKeyBySocket s !! ws = None ->
   isControlChannelKXConfirm message = None ->
   step s (Emit ws "message" dat)
   = (s, [Console "Dropping message before handshake completion"])).
Proof.
  intros Hdec. split.
  - intros k Hk Henc.
    unfold step, exec, handler, emit. simpl. unfold on_message. rewrite Hdec.
    destruct (isControlChannelKXConfirm message) as [kx|].
    + unfold client_kx, try_catch, bind, gets, tell. simpl. rewrite Hk.
      eexists. reflexivity.
    + unfold bind, gets, tell. simpl. rewrite Hk, Henc. eexists. reflexivity.
  - intros Hnone Hkx.
    unfold step, exec, handler, emit. simpl. unfold on_message. rewrite Hdec, Hkx.
    unfold bind, gets, tell. simpl. rewrite Hnone. reflexivity.
Qed.

(** C6, as the code has it.  An upgrade request whose URL starts with
    [/__ra__] is handed to the control channel, which accepts the socket
    and sends [server_kx]; for every other URL, and for a request with no
    URL, the socket is destroyed and nothing else happens. *)
Theorem upgrade_routes_by_prefix (s : state) (req_url : option string) (ws : socket) :
  (String.prefix "/__ra__" (default "" req_url) = true ->
   upgrade req_url = HandleUpgrade /\
   step s (Upgrade req_url ws) = (s, [Accept ws; Send ws (encode (serverKxMessage s))])) /\
  (String.prefix "/__ra__" (default "" req_url) = false ->
   upgrade req_url = SocketDestroy /\
   step s (Upgrade req_url ws) = (s, [Destroy ws])).
Proof.
  split; intros Hp; unfold step, exec, handler, upgrade; rewrite Hp; split;
    reflexivity.
Qed.


Lemma get_delete_eq {V} k (m : list (string * V)) : JsMap.get k (JsMap.delete k m) = None.
Proof.
  induction m as [|[k0 v0] m IH]; simpl; [done|].
  destruct (String.eqb k k0) eqn:E; simpl; [exact IH | rewrite E; exact IH].
Qed.

Lemma get_delete_none {V} k k' (m : list (string * V)) :
  JsMap.get k m = None -> JsMap.get k (JsMap.delete k' m) = None.
Proof.
  induction m as [|[k0 v0] m IH]; simpl; [done|].
  destruct (String.eqb k k0) eqn:E; [done|]. intros Hm.
  destruct (String.eqb k' k0); simpl; [|rewrite E]; apply IH, Hm.
Qed.

Lemma get_In {V} k (v : V) m : JsMap.get k m = Some v -> In (k, v) m.
Proof.
  induction m as [|[k0 v0] m IH]; simpl; [done|].
  destruct (String.eqb k k0) eqn:E.
  - apply String.eqb_eq in E. intros [= ->]. left. by subst.
  - intros Hm. right. apply IH, Hm.
Qed.


Lemma absent_keys cid f s : absent cid s -> absent cid (set_keys f s).
Proof. intros Hs. exact Hs. Qed.













(** *** Sending *)
Lemma sendEncrypted_keyed s ws k payload :
  symmetricKeyBySocket s !! ws = Some k ->
  sendEncrypted ws payload s
  = (inr tt, set_draws Datatypes.S s, [Send ws (frame k (draws s) payload)]).
Proof.
  intros Hk. unfold sendEncrypted, encryptForSocket, bind, gets, modify, ret, tell.
  simpl. rewrite Hk. reflexivity.
Qed.

Lemma on_res_event_keyed s ws k rid ev :
  symmetricKeyBySocket s !! ws = Some k ->
  on_res_event ws rid ev s
  = (inr tt, set_draws Datatypes.S s, [Send ws (frame k (draws s) (res_payload rid ev))]).
Proof.
  intros Hk. destruct ev; unfold on_res_event, try_catch;
    rewrite (sendEncrypted_keyed s ws k _ Hk); reflexivity.
Qed.

Lemma res_events_keyed evs : forall s ws k rid,
  symmetricKeyBySocket s !! ws = Some k ->
  exists out,
    for_each evs (on_res_event ws rid) s
    = (inr tt, set_draws (fun n => (n + List.length evs)%nat) s, out).
Proof.
  induction evs as [|ev evs IH]; intros s ws k rid Hk; simpl.
  - exists []. unfold ret. f_equal. f_equal. destruct s; unfold set_draws; simpl.
    f_equal. lia.
  - unfold bind. rewrite (on_res_event_keyed s ws k rid ev Hk).
    destruct (IH (set_draws Datatypes.S s) ws k rid Hk) as [out ->].
    eexists. f_equal. f_equal. destruct s; unfold set_draws; simpl. f_equal. lia.
Qed.

Lemma app_error_reported (s : state) (ws : socket) (k : bytes)
    (req : RAEncryptedHTTPRequest) (message : string) :
  symmetricKeyBySocket s !! ws = Some k ->
  raised (snd (deliver (host s) (DRequest req))) = Some (ThrownError message) ->
  exists out,
    snd (exec (handleTunnelHttpRequest ws req) s)
    = out ++ [Send ws (frame k (draws s + List.length
                                   (emitted (snd (deliver (host s) (DRequest req)))))%nat
                             (errorResponse (requestId req) message))].
Proof.
  intros Hk Hr. unfold exec, handleTunnelHttpRequest, try_catch.
  unfold bind at 1. unfold hand.
  destruct (deliver (host s) (DRequest req)) as [h r]. simpl in Hr. simpl.
  unfold bind at 1.
  destruct (res_events_keyed (emitted r) (set_host h s) ws k (requestId req) Hk)
    as [out ->].
  rewrite Hr. unfold throw.
  rewrite (sendEncrypted_keyed (set_draws _ (set_host h s)) ws k _ Hk). simpl.
  exists (Deliver (DRequest req) :: out ++ []). reflexivity.
Qed.

Lemma res_error_reported (s : state) (ws : socket) (k : bytes)
    (rid message : string) :
  symmetricKeyBySocket s !! ws = Some k ->
  snd (step s (ResEmit ws rid (ResError message)))
  = [Send ws (frame k (draws s) (errorResponse rid message))].
Proof.
  intros Hk. unfold step, exec, handler.
  rewrite (on_res_event_keyed s ws k rid _ Hk). reflexivity.
Qed.

(** *** The round trip of an envelope *)
Lemma relay_round_trip (s : state) (ws : socket) (k : bytes) (payload : value) :
  (forall m n key, crypto_secretbox_open_easy (crypto_secretbox_easy m n key) n key = Some m) ->
  decode (encode payload) = Some payload ->
  symmetricKeyBySocket s !! ws = Some k ->
  exists env s1,
    encryptForSocket ws payload s = (inr env, s1, []) /\
    forall s2, symmetricKeyBySocket s2 !! ws = Some k ->
               decryptEnvelopeForSocket ws env s2 = (inr payload, s2, []).
Proof.
  intros Hbox Hcodec Hk.
  exists (sealed k (draws s) payload), (set_draws Datatypes.S s). split.
  - unfold encryptForSocket, bind, gets, modify, ret. simpl. rewrite Hk. reflexivity.
  - intros s2 Hk2. unfold decryptEnvelopeForSocket, bind, gets, lift, ret. simpl.
    rewrite Hk2. simpl. rewrite Hbox. simpl. rewrite Hcodec. reflexivity.
Qed.

(** *** Closing the control socket *)
Lemma cleanup_spec ws entries : forall s,
  exists toRemove s' out,
    cleanup ws entries s = (inr toRemove, s', out) /\
    webSocketConnections s' = webSocketConnections s /\
    forall cid conn,
      In (cid, conn) entries -> controlWs conn = ws ->
      In (Deliver (DClose (mockWs conn) (Some 1006) (Some "tunnel closed"))) out /\
      (quiet_close -> In cid toRemove).
Proof.
  induction entries as [|[connId conn] rest IH]; intros s.
  - exists [], s, []. split; [reflexivity|]. split; [reflexivity|]. intros ? ? [].
  - simpl. unfold bind at 1.
    assert (exists removed s1 out1,
               (if bool_decide (controlWs conn = ws) then
                  try_catch
                    (bind (emitClose (mockWs conn) (Some 1006) (Some "tunnel closed"))
                       (fun _ => bind (deleteClient (mockWs conn))
                          (fun _ => bind (modify (set_keys (delete (controlWs conn))))
                             (fun _ => ret [connId]))))
                    (fun _ => bind (tell (Console "Unexpected error cleaning up control ws"))
                                (fun _ => ret []))
                else ret []) s = (inr removed, s1, out1) /\
               webSocketConnections s1 = webSocketConnections s /\
               (controlWs conn = ws ->
                In (Deliver (DClose (mockWs conn) (Some 1006) (Some "tunnel closed"))) out1 /\
                (quiet_close -> In connId removed))) as (removed & s1 & out1 & -> & Hc1 & Hd1).
    { case_bool_decide as Hws.
      - unfold try_catch, emitClose, listeners, bind, hand, deleteClient, modify, tell,
          throw, ret.
        destruct (deliver (host s) (DClose (mockWs conn) (Some 1006) (Some "tunnel closed")))
          as [h r] eqn:Hd.
        destruct (raised r) eqn:Hr; simpl.
        + do 3 eexists. split; [reflexivity|]. split; [reflexivity|].
          intros _. split; [by left|]. intros Hq.
          specialize (Hq (host s) (mockWs conn) (Some 1006) (Some "tunnel closed")).
          rewrite Hd in Hq. simpl in Hq. congruence.
        + do 3 eexists. split; [reflexivity|]. split; [reflexivity|].
          intros _. split; [by left|]. intros _. by left.
      - exists [], s, []. split; [reflexivity|]. split; [reflexivity|]. done. }
    destruct (IH s1) as (more & s2 & out2 & Heq & Hc2 & Hd2).
    unfold bind at 1. rewrite Heq. unfold ret.
    exists (removed ++ more), s2, (out1 ++ out2 ++ []).
    split; [reflexivity|]. split; [congruence|].
    intros cid c [Hin|Hin] Hws.
    + injection Hin as <- <-. destruct (Hd1 Hws) as [Ha Hb].
      split; [apply in_or_app; by left|].
      intros Hq. apply in_or_app. left. apply Hb, Hq.
    + destruct (Hd2 cid c Hin Hws) as [Ha Hb].
      split; [apply in_or_app; right; apply in_or_app; by left|].
      intros Hq. apply in_or_app. right. apply Hb, Hq.
Qed.

Lemma delete_all ids : forall s,
  for_each ids (fun id => modify (set_connections (JsMap.delete id))) s
  = (inr tt,
     set_connections (fun m => fold_left (fun m id => JsMap.delete id m) ids m) s, []).
Proof.
  induction ids as [|id ids IH]; intros s; simpl.
  - unfold ret. destruct s; reflexivity.
  - unfold bind, modify. rewrite IH. destruct s; reflexivity.
Qed.

Lemma get_delete_all {V} cid ids : forall (m : list (string * V)),
  In cid ids \/ JsMap.get cid m = None ->
  JsMap.get cid (fold_left (fun m id => JsMap.delete id m) ids m) = None.
Proof.
  induction ids as [|id ids IH]; intros m [Hin|Hm]; simpl; try done.
  - destruct Hin as [->|Hin].
    + apply IH. right. apply get_delete_eq.
    + apply IH. by left.
  - apply IH. right. apply get_delete_none, Hm.
Qed.

Lemma on_close_spec ws s :
  exists toRemove s' out,
    on_close ws s
    = (inr tt,
       set_connections (fun m => fold_left (fun m id => JsMap.delete id m) toRemove m) s',
       out) /\
    forall cid conn,
      In (cid, conn) (webSocketConnections s) -> controlWs conn = ws ->
      In (Deliver (DClose (mockWs conn) (Some 1006) (Some "tunnel closed"))) out /\
      (quiet_close -> In cid toRemove).
Proof.
  unfold on_close, bind, modify, gets.
  destruct (cleanup_spec ws (webSocketConnections (set_keys (delete ws) s))
              (set_keys (delete ws) s))
    as (toRemove & s' & out & -> & Hc & Hd).
  rewrite delete_all. exists toRemove, s', ([] ++ [] ++ out ++ []).
  split; [reflexivity|]. intros cid conn Hin Hws.
  destruct (Hd cid conn Hin Hws) as [Ha Hb]. split; [|exact Hb].
  simpl. apply in_or_app. by left.
Qed.

Lemma close_flushes (s : state) (ws : socket) (dat : bytes) (cid : string)
    (conn : connection) :
  JsMap.get cid (webSocketConnections s) = Some conn ->
  controlWs conn = ws ->
  In (Deliver (DClose (mockWs conn) (Some 1006) (Some "tunnel closed")))
     (snd (step s (Emit ws "close" dat))) /\
  (quiet_close ->
   JsMap.get cid (webSocketConnections (fst (step s (Emit ws "close" dat)))) = None).
Proof.
  intros Hget Hws. apply get_In in Hget.
  destruct (on_close_spec ws s) as (toRemove & s' & out & Heq & Hd).
  assert (step s (Emit ws "close" dat)
          = (set_connections
               (fun m => fold_left (fun m id => JsMap.delete id m) toRemove m) s', out))
    as ->.
  { unfold step, exec, handler, emit. simpl. rewrite Heq. reflexivity. }
  destruct (Hd cid conn Hget Hws) as [Ha Hb]. split; [exact Ha|].
  intros Hq. simpl. apply get_delete_all. left. apply Hb, Hq.
Qed.
End Facts.
End RelayFacts.

(** ** The client *)
Module ClientFacts.
Import Client.
Section Facts.
Context {S : Sodium} {R : Responses} {B : Browser}.

(** *** The body of a request *)

(** The text of an object, of an array and of a typed array starts with
    a brace or a bracket. *)
Lemma object_text v :
  is_object v = true ->
  exists c t, JSON.stringify v = Some (String c t) /\ base64_alphabet c = false.
Proof.
  destruct v; try discriminate; intros _; cbn [JSON.stringify];
    eexists _, _; (split; [reflexivity|]); reflexivity.
Qed.

(** A string body is passed as it is, unless it is empty. *)
Lemma fetch_body_string (requestId url text : string) (init : RequestInit) :
  init_body init = VStr text ->
  prop (tunnelRequest requestId url (Some init)) "body"
  = if String.eqb text "" then VUndefined else VStr text.
Proof.
  intros Hb. unfold prop, tunnelRequest, get_prop. cbn [assoc String.eqb].
  change (default VUndefined (Some ?x)) with x. unfold body_of. rewrite Hb.
  cbn [truthy]. destruct (String.eqb text ""); reflexivity.
Qed.

(** *** Invariants of statements *)
Lemma ra_inv_ret P {A} (a : A) : inv P (ret a).
Proof. intros s Hs. exact Hs. Qed.

Lemma ra_inv_throw P {A} e : inv P (throw e : M A).
Proof. intros s Hs. exact Hs. Qed.

Lemma ra_inv_tell P e : inv P (tell e).
Proof. intros s Hs. exact Hs. Qed.

Lemma ra_inv_gets P {A} (f : state -> A) : inv P (gets f).
Proof. intros s Hs. exact Hs. Qed.

Lemma ra_inv_lift P {A} (o : option A) : inv P (lift o).
Proof. destruct o; intros s Hs; exact Hs. Qed.

Lemma ra_inv_modify (P : state -> Prop) f : (forall s, P s -> P (f s)) -> inv P (modify f).
Proof. intros Hf s Hs. apply Hf, Hs. Qed.

Lemma ra_inv_bind P {A C} (m : M A) (k : A -> M C) :
  inv P m -> (forall a, inv P (k a)) -> inv P (bind m k).
Proof.
  intros Hm Hk s Hs. unfold bind. specialize (Hm s Hs).
  destruct (m s) as [[[e|a] s1] out]; simpl in *; [exact Hm|].
  specialize (Hk a s1 Hm). destruct (k a s1) as [[r s2] out']. exact Hk.
Qed.

Lemma ra_inv_try_catch P {A} (m : M A) h :
  inv P m -> (forall e, inv P (h e)) -> inv P (try_catch m h).
Proof.
  intros Hm Hh s Hs. unfold try_catch. specialize (Hm s Hs).
  destruct (m s) as [[[e|a] s1] out]; simpl in *; [|exact Hm].
  specialize (Hh e s1 Hm). destruct (h e s1) as [[r s2] out']. exact Hh.
Qed.

Lemma ra_inv_for_each P {A} (l : list A) f :
  (forall a, inv P (f a)) -> inv P (for_each l f).
Proof.
  intros Hf. induction l as [|a l IH]; simpl.
  - apply ra_inv_ret.
  - apply ra_inv_bind; [apply Hf | intros _; exact IH].
Qed.

Lemma ra_inv_for_each_in P {A} (l : list A) f :
  (forall a, In a l -> inv P (f a)) -> inv P (for_each l f).
Proof.
  induction l as [|a l IH]; intros Hf; simpl.
  - apply ra_inv_ret.
  - apply ra_inv_bind; [apply Hf; by left | intros _; apply IH].
    intros b Hb. apply Hf. by right.
Qed.

Lemma ra_inv_bind_lift P {A C} (o : option A) (k : A -> M C) :
  (forall a, o = Some a -> inv P (k a)) -> inv P (bind (lift o) k).
Proof.
  intros Hk. destruct o as [a|]; intros s Hs; unfold bind, lift, ret, throw; [|exact Hs].
  specialize (Hk a eq_refl s Hs). destruct (k a s) as [[r s'] out]. exact Hk.
Qed.

Lemma ra_inv_exec (P : state -> Prop) {A} (m : M A) s : inv P m -> P s -> P (fst (exec m s)).
Proof.
  intros Hm Hs. specialize (Hm s Hs). unfold exec.
  destruct (m s) as [[r s'] out]. exact Hm.
Qed.

Ltac inv_step :=
  cbv zeta;
  lazymatch goal with
  | |- inv _ (ret _) => apply ra_inv_ret
  | |- inv _ (throw _) => apply ra_inv_throw
  | |- inv _ (tell _) => apply ra_inv_tell
  | |- inv _ (gets _) => apply ra_inv_gets
  | |- inv _ (lift _) => apply ra_inv_lift
  | |- inv _ (bind _ _) => apply ra_inv_bind
  | |- inv _ (try_catch _ _) => apply ra_inv_try_catch
  | |- inv _ (for_each _ _) => apply ra_inv_for_each
  | |- inv _ (if ?b then _ else _) => destruct b
  | |- inv _ (match ?x with _ => _ end) => destruct x
  | |- forall _, _ => intro
  end.

Ltac inv_auto := repeat inv_step.

(** *** Closing the socket *)
Lemma In_schedule due t l x :
  In x (schedule due t l) <-> x = (due, t) \/ In x l.
Proof.
  induction l as [|[d t'] l IH]; cbn [schedule In].
  - split; [intros [<-|[]]; by left | intros [->|[]]; by left].
  - destruct (d <=? due); cbn [In]; [rewrite IH|]; intuition congruence.
Qed.

(** *** The response to a request *)
Lemma response_error_rejects (s : state) (response : value) (requestId : string)
    (p : nat) :
  prop response "requestId" = VStr requestId ->
  pendingRequests s !! requestId = Some p ->
  settled s !! p = None ->
  truthy (prop response "error") = true ->
  let s' := fst (exec (handleTunnelResponse response) s) in
  settled s' !! p = Some (Rejected (Error (prop response "error"))) /\
  pendingRequests s' = delete requestId (pendingRequests s) /\
  (forall q, q <> p -> settled s' !! q = settled s !! q).
Proof.
  intros Hid Hp Hs Ht s'. subst s'.
  unfold exec, handleTunnelResponse, bind, gets, modify, settle. cbn.
  rewrite Hid, Hp, Ht. destruct s. cbn in *. rewrite Hs.
  split; [apply lookup_insert_eq|]. split; [reflexivity|].
  intros q Hq. apply lookup_insert_ne. congruence.
Qed.

Lemma response_empty_error_resolves (s : state) (response : value)
    (requestId : string) (p : nat) (r : Response) :
  prop response "requestId" = VStr requestId ->
  pendingRequests s !! requestId = Some p ->
  settled s !! p = None ->
  truthy (prop response "error") = false ->
  new_Response (prop response "body") (prop response "status")
    (prop response "statusText") (prop response "headers") = Some r ->
  settled (fst (exec (handleTunnelResponse response) s)) !! p
  = Some (Resolved (Fetched r)).
Proof.
  intros Hid Hp Hs Ht Hr.
  unfold exec, handleTunnelResponse, bind, gets, modify, settle, lift, ret. cbn.
  rewrite Hid, Hp, Ht, Hr. destruct s. cbn in *. rewrite Hs.
  apply lookup_insert_eq.
Qed.

(** *** The round trip of an envelope *)
Lemma client_round_trip `{!SodiumLaws S} (s : state) (k : bytes) (payload : value) :
  symmetricKey s = Some k ->
  JSON.plain payload = true ->
  exists envelope s1,
    encryptPayload payload s = (inr envelope, s1, []) /\
    forall s2, symmetricKey s2 = Some k ->
               decryptEnvelope envelope s2 = (inr payload, s2, []).
Proof.
  intros Hk Hp. destruct (JsonFacts.plain_text payload Hp) as [text Ht].
  do 2 eexists. split.
  - unfold encryptPayload, bind, gets, modify, lift, ret. cbn. rewrite Hk, Ht. cbn.
    reflexivity.
  - intros s2 Hk2. unfold decryptEnvelope, bind, gets, lift, as_string, ret. cbn.
    rewrite Hk2. cbn. rewrite from_to_base64. cbn. rewrite from_to_base64. cbn.
    rewrite secretbox_open_easy. cbn. rewrite to_from_string. cbn.
    rewrite (JsonFacts.parse_stringify payload text Hp Ht). reflexivity.
Qed.

(** *** A pending request *)
Section Pending.
Context `{!FreshIds B}.
Variables (n0 p : nat) (due : Z).

Local Abbreviation rid := (generateRequestId n0).
Local Abbreviation Inv := (Client.Inv rid n0 p due).
Local Abbreviation ours := (Client.ours rid p due).
Local Abbreviation foreign := (Client.foreign rid p).
Local Abbreviation timers_ok := (Client.timers_ok rid p due).
Local Abbreviation timed_out := (Client.timed_out rid p).
Local Abbreviation waiting := (Client.waiting rid p due).
Local Abbreviation inv_issued := (Client.inv_issued rid n0 p due).
Local Abbreviation inv_promises := (Client.inv_promises rid n0 p due).
Local Abbreviation inv_pending := (Client.inv_pending rid n0 p due).
Local Abbreviation inv_awaiting := (Client.inv_awaiting rid n0 p due).
Local Abbreviation inv_sockets := (Client.inv_sockets rid n0 p due).
Local Abbreviation inv_rem := (Client.inv_rem rid n0 p due).


Lemma ra_inv_bind_gets (P : state -> Prop) {A C} (f : state -> A) (k : A -> M C) :
  (forall s0, P s0 -> inv P (k (f s0))) -> inv P (bind (gets f) k).
Proof.
  intros Hk s Hs. unfold bind, gets. specialize (Hk s Hs s Hs).
  destruct (k (f s) s) as [[r s'] out]. exact Hk.
Qed.

Ltac frame := apply ra_inv_modify; intros [] [? ? ? ? ? ? ? ?]; split; assumption.

Lemma Inv_settle rem q o : q <> p -> inv (Inv rem) (settle q o).
Proof.
  intros Hq. apply ra_inv_modify. intros [] [? ? ? ? ? ? ? Hst]. split; try assumption.
  unfold timed_out, waiting in *. cbn in *.
  destruct (settled0 !! q) eqn:E; [exact Hst|].
  destruct Hst as [[H1 H2]|(H1 & H2 & H3)]; [left|right]; repeat split;
    try assumption; rewrite lookup_insert_ne; auto.
Qed.

Lemma Inv_setTimeout rem t delay : foreign t -> inv (Inv rem) (setTimeout t delay).
Proof.
  intros Ht. apply ra_inv_modify. intros [] [? ? ? ? ? Htm ? Hst]. split; try assumption.
  - intros x Hx. cbn in *. apply In_schedule in Hx as [->|Hx]; [right; exact Ht|].
    apply Htm, Hx.
  - unfold timed_out, waiting in *. cbn in *.
    destruct Hst as [?|(H1 & H2 & [H3|[H3 H4]])]; [by left|right..];
      repeat split; try assumption; [by left|]. right. split; [exact H3|].
    apply In_schedule. by right.
Qed.

Lemma Inv_encryptPayload rem payload : inv (Inv rem) (encryptPayload payload).
Proof. unfold encryptPayload. inv_auto. frame. Qed.

Lemma Inv_ws_send rem text : inv (Inv rem) (ws_send text).
Proof. unfold ws_send. inv_auto. Qed.

Lemma Inv_send rem message : inv (Inv rem) (send message).
Proof.
  unfold send. inv_auto; first [apply Inv_ws_send | apply Inv_encryptPayload].
Qed.

Lemma Inv_fetch_body rem q url init : q <> p -> inv (Inv rem) (fetch_body q url init).
Proof.
  intros Hq. unfold fetch_body. apply ra_inv_bind_gets. intros s0 Hs0.
  pose proof (inv_issued _ _ Hs0) as Hn.
  assert (generateRequestId (issued s0) <> rid) as Hr.
  { intros Heq. apply generateRequestId_inj in Heq. lia. }
  inv_auto.
  - apply ra_inv_modify. intros [] [? ? ? ? ? ? ? ?]. split; try assumption. cbn in *. lia.
  - apply ra_inv_modify. intros [] [? ? Hpe ? ? ? ? Hst]. split; try assumption.
    + cbn in *. intros r q' Hl Hne.
      destruct (decide (r = generateRequestId (issued s0))) as [->|Hd].
      * rewrite lookup_insert_eq in Hl. congruence.
      * rewrite lookup_insert_ne in Hl by congruence. eapply Hpe; eassumption.
    + unfold timed_out, waiting in *. cbn in *.
      rewrite lookup_insert_ne by congruence. exact Hst.
  - apply Inv_send.
  - apply Inv_settle, Hq.
  - apply Inv_setTimeout. split; assumption.
Qed.

Lemma Inv_resume rem q o : inv (Inv rem) (resume q o).
Proof.
  unfold resume. apply ra_inv_bind_gets. intros s0 Hs0.
  pose proof (inv_awaiting _ _ Hs0) as Ha.
  apply ra_inv_bind.
  - apply ra_inv_modify. intros [] [? ? ? Haw ? ? ? ?]. split; try assumption.
    cbn in *. intros a Hin. apply Haw. apply list_elem_of_In in Hin.
    apply list_elem_of_In. apply list_elem_of_filter in Hin. tauto.
  - intros _. apply ra_inv_for_each_in. intros a Hin.
    apply list_elem_of_In, list_elem_of_filter in Hin as [_ Hin].
    apply list_elem_of_In in Hin. specialize (Ha a Hin).
    destruct o; [apply Inv_fetch_body | apply Inv_settle]; exact Ha.
Qed.

Lemma Inv_settle_connection rem q o : q <> p -> inv (Inv rem) (settle_connection q o).
Proof.
  intros Hq. unfold settle_connection. inv_auto; [apply Inv_settle, Hq | apply Inv_resume].
Qed.

Lemma Inv_new_promise rem {A} (k : nat -> M A) :
  (forall q, q <> p -> inv (Inv rem) (k q)) -> inv (Inv rem) (bind new_promise k).
Proof.
  intros Hk s Hs. unfold bind, new_promise, gets, modify, ret. cbn.
  assert (promises s <> p) as Hq by (pose proof (inv_promises _ _ Hs); lia).
  assert (Inv rem (set_promises Datatypes.S s)) as Hs'.
  { destruct s, Hs. split; try assumption. cbn in *. lia. }
  specialize (Hk _ Hq _ Hs').
  destruct (k (promises s) (set_promises Datatypes.S s)) as [[r s2] out]. exact Hk.
Qed.

Lemma Inv_ensureConnection rem : inv (Inv rem) ensureConnection.
Proof.
  unfold ensureConnection. apply ra_inv_bind; [apply ra_inv_gets|]. intros [|].
  - apply Inv_new_promise. intros q Hq. inv_auto. apply Inv_settle, Hq.
  - apply ra_inv_bind; [apply ra_inv_gets|]. intros [q|]; [apply ra_inv_ret|].
    apply Inv_new_promise. intros q Hq. inv_auto; try frame.
    + apply ra_inv_modify. intros [] [? ? ? ? Hso ? ? ?]. split; try assumption.
      cbn in *. intros i r q' Hl.
      destruct (decide (i = a1)) as [->|Hd].
      * rewrite lookup_insert_eq in Hl. congruence.
      * rewrite lookup_insert_ne in Hl by congruence. eapply Hso, Hl.
    + apply Inv_settle, Hq.
Qed.

Lemma Inv_fetch rem input init : inv (Inv rem) (fetch input init).
Proof.
  unfold fetch. apply Inv_new_promise. intros q Hq.
  apply ra_inv_bind; [apply Inv_ensureConnection|]. intros c. inv_auto.
  - apply Inv_fetch_body, Hq.
  - apply Inv_settle, Hq.
  - apply ra_inv_modify. intros [] [? ? ? Haw ? ? ? ?]. split; try assumption.
    cbn in *. intros a Hin. apply in_app_or in Hin as [Hin|[<-|[]]]; [apply Haw, Hin|].
    exact Hq.
Qed.

Lemma Inv_set_ready rem i r : inv (Inv rem) (set_ready i r).
Proof.
  apply ra_inv_modify. intros [] [? ? ? ? Hso ? ? ?]. split; try assumption.
  cbn in *. intros j r' q Hl. destruct (sockets0 !! i) as [[r0 q0]|] eqn:E.
  - destruct (decide (j = i)) as [->|Hd].
    + rewrite lookup_insert_eq in Hl. injection Hl as <- <-. eapply Hso, E.
    + rewrite lookup_insert_ne in Hl by congruence. eapply Hso, Hl.
  - eapply Hso, Hl.
Qed.

Lemma Inv_onclose rem : inv (Inv rem) onclose.
Proof. unfold onclose. inv_auto; [frame | by apply Inv_setTimeout]. Qed.

Lemma Inv_onerror rem q : q <> p -> inv (Inv rem) (onerror q).
Proof. intros Hq. unfold onerror. inv_auto; [frame | apply Inv_settle_connection, Hq]. Qed.

Lemma Inv_server_kx rem q message : q <> p -> inv (Inv rem) (server_kx q message).
Proof.
  intros Hq. unfold server_kx, as_string. inv_auto;
    first [ frame | apply Inv_send | apply Inv_settle_connection, Hq ].
Qed.

Lemma Inv_on_timeout_foreign rem r q :
  r <> rid -> q <> p -> inv (Inv rem) (on_timeout r q).
Proof.
  intros Hr Hq. unfold on_timeout. inv_auto; [|apply Inv_settle, Hq].
  apply ra_inv_modify. intros [] [? ? Hpe ? ? ? ? Hst]. split; try assumption.
  - cbn in *. intros r' q' Hl Hne.
    apply lookup_delete_Some in Hl as [_ Hl]. eapply Hpe; eassumption.
  - unfold timed_out, waiting in *. cbn in *.
    rewrite lookup_delete_ne by congruence. exact Hst.
Qed.

Lemma Inv_handleTunnelResponse rem response :
  prop response "requestId" <> VStr rid -> inv (Inv rem) (handleTunnelResponse response).
Proof.
  intros Hr. unfold handleTunnelResponse. apply ra_inv_bind_gets. intros s0 Hs0.
  destruct (prop response "requestId") as [| | | | |r| | |]; try apply ra_inv_ret.
  assert (r <> rid) as Hne by congruence.
  destruct (pendingRequests s0 !! r) as [q|] eqn:Hq; [|apply ra_inv_ret].
  pose proof (inv_pending _ _ Hs0 r q Hq Hne) as Hqp.
  inv_auto; try (apply Inv_settle, Hqp).
  apply ra_inv_modify. intros [] [? ? Hpe ? ? ? ? Hst]. split; try assumption.
  - cbn in *. intros r' q' Hl Hne'.
    apply lookup_delete_Some in Hl as [_ Hl]. eapply Hpe; eassumption.
  - unfold timed_out, waiting in *. cbn in *.
    rewrite lookup_delete_ne by congruence. exact Hst.
Qed.

Lemma Inv_deliver rem decrypted :
  is_type "http_response" (prop decrypted "type")
  && is_type rid (prop decrypted "requestId") = false ->
  inv (Inv rem) (deliver decrypted).
Proof.
  intros Hna. unfold deliver. apply ra_inv_bind_lift. intros t Ht.
  unfold prop at 1 in Hna. rewrite Ht in Hna. cbn [default from_option id] in Hna.
  unfold handleWebSocketTunnelEvent, handleWebSocketTunnelMessage.
  destruct (is_type "http_response" t); [|inv_auto].
  apply Inv_handleTunnelResponse. intros Heq. rewrite Heq in Hna.
  cbn in Hna. rewrite String.eqb_refl in Hna. discriminate.
Qed.

(** The timer of the request fires. *)
Lemma Inv_on_timeout_ours rem :
  forall s, Inv (ours :: rem) s -> Inv rem (snd (fst (on_timeout rid p s))).
Proof.
  intros s [? ? Hpe ? ? ? Hrem Hst].
  assert (timers_ok rem) as Hrem' by (intros t Ht; apply Hrem; by right).
  unfold on_timeout, bind, gets, modify, settle. cbn.
  unfold timed_out, waiting in *.
  destruct Hst as [[H1 H2]|(H1 & H2 & H3)].
  - rewrite H1. cbn. split; try assumption. left. by split.
  - rewrite H1. destruct s. cbn in *. rewrite H2. split; try assumption.
    + cbn. intros r q Hl Hne. apply lookup_delete_Some in Hl as [_ Hl].
      eapply Hpe; eassumption.
    + left. cbn. split; [apply lookup_delete_eq | apply lookup_insert_eq].
Qed.

Lemma Inv_fire rem t s : Inv (t :: rem) s -> Inv rem (snd (fst (fire (snd t) s))).
Proof.
  intros Hs. destruct (inv_rem _ _ Hs t (or_introl eq_refl)) as [->|Hf].
  - cbn [snd ours fire]. apply Inv_on_timeout_ours, Hs.
  - assert (Inv rem s) as Hs'.
    { destruct Hs as [? ? ? ? ? ? Hrem Hst]. split; try assumption.
      - intros x Hx. apply Hrem. by right.
      - destruct Hst as [?|(H1 & H2 & [[->|H3]|H3])]; [by left| |right..];
          [|by repeat split; try assumption; left
           |by repeat split; try assumption; right].
        cbn in Hf. destruct Hf as [Hf _]. done. }
    revert s Hs' Hs. change (inv (Inv rem) (fire (snd t))) with
      (forall s, Inv rem s -> Inv rem (snd (fst (fire (snd t) s)))).
    intros s Hs' _. revert s Hs'.
    change (inv (Inv rem) (fire (snd t))).
    destruct t as [d [r q|]]; cbn [snd fire] in *.
    + destruct Hf as [Hr Hq]. apply Inv_on_timeout_foreign; assumption.
    + apply ra_inv_bind; [apply Inv_ensureConnection | intros; apply ra_inv_ret].
Qed.

Lemma Inv_fire_all rem : forall s,
  Inv rem s ->
  Inv [] (snd (fst (for_each rem
            (fun e => try_catch (fire (snd e))
                        (fun _ => tell (Console "Uncaught exception"))) s))).
Proof.
  induction rem as [|t rem IH]; intros s Hs; [exact Hs|].
  cbn [for_each]. unfold bind, try_catch, tell.
  pose proof (Inv_fire rem t s Hs) as H1.
  destruct (fire (snd t) s) as [[[e|[]] s1] out]; cbn in *;
    specialize (IH s1 H1); destruct (for_each rem _ s1) as [[r s2] out']; exact IH.
Qed.

Lemma Inv_tick dt s : Inv [] s -> Inv [] (snd (fst (tick dt s))).
Proof.
  intros Hs. unfold tick. unfold bind at 1. unfold modify at 1.
  unfold bind at 1. unfold gets at 1. unfold bind at 1. unfold gets at 1.
  unfold bind at 1. unfold modify at 1. cbv beta iota zeta.
  set (s1 := set_timers _ (set_now _ s)).
  set (rem := filter _ (timers (set_now _ s))).
  assert (Inv rem s1) as H1.
  { subst s1 rem. destruct s, Hs as [? ? ? ? ? Htm _ Hst]. cbn in *.
    split; try assumption.
    - intros x Hx. cbn in Hx. apply Htm.
      apply list_elem_of_In, list_elem_of_filter in Hx as [_ Hx].
      by apply list_elem_of_In.
    - intros x Hx. apply Htm.
      apply list_elem_of_In, list_elem_of_filter in Hx as [_ Hx].
      by apply list_elem_of_In.
    - unfold timed_out, waiting in *. cbn in *.
      destruct Hst as [?|(H1 & H2 & [[]|[H3 H4]])]; [by left|right].
      repeat split; try assumption.
      destruct (decide (due <= now0 + Z.max 0 dt)) as [Hd|Hd].
      + left. apply list_elem_of_In, list_elem_of_filter. split; [exact Hd|].
        by apply list_elem_of_In.
      + right. split; [lia|]. apply list_elem_of_In, list_elem_of_filter.
        split; [cbn; lia | by apply list_elem_of_In]. }
  pose proof (Inv_fire_all rem s1 H1) as H2.
  destruct (for_each rem _ s1) as [[r s2] out]. exact H2.
Qed.

Lemma try_catch_state {A} (m : M A) (h : exn -> M A) s :
  (forall e s1, snd (fst (h e s1)) = s1) ->
  snd (fst (try_catch m h s)) = snd (fst (m s)).
Proof.
  intros Hh. unfold try_catch. destruct (m s) as [[[e|a] s1] out]; [|reflexivity].
  specialize (Hh e s1). destruct (h e s1) as [[r s2] out']. exact Hh.
Qed.

Lemma decryptEnvelope_pure envelope s : snd (fst (decryptEnvelope envelope s)) = s.
Proof.
  unfold decryptEnvelope, bind, gets, lift, as_string, throw, ret. cbn.
  destruct (symmetricKey s); [|reflexivity].
  repeat match goal with
         | |- context [match ?o with Some _ => _ | None => _ end] =>
             destruct o; cbn; try reflexivity
         | |- context [match ?v with VStr _ => _ | _ => _ end] =>
             destruct v; cbn; try reflexivity
         end.
Qed.

Lemma Inv_onmessage i q dat s :
  sockets s !! i = Some q ->
  answers rid s (WsMessage i dat) = false ->
  Inv [] s -> Inv [] (snd (fst (onmessage (snd q) dat s))).
Proof.
  intros Hi Hna Hs. unfold answers, inbound in Hna. rewrite Hi in Hna.
  assert (snd q <> p) as Hq.
  { destruct q as [r q]. eapply inv_sockets; eassumption. }
  unfold onmessage. rewrite try_catch_state by (intros; reflexivity).
  destruct (JSON.parse dat) as [message|]; [|exact Hs].
  unfold bind at 1. unfold lift at 1. unfold ret at 1. cbv beta iota.
  unfold prop in Hna.
  destruct (get_prop message "type") as [t|]; [|exact Hs].
  cbn [default from_option id] in Hna.
  unfold bind at 1. unfold lift at 1. unfold ret at 1. cbv beta iota.
  destruct (is_type "server_kx" t).
  { pose proof (Inv_server_kx [] (snd q) message Hq s Hs) as Hk.
    destruct (server_kx (snd q) message s) as [[r s'] out]. exact Hk. }
  destruct (is_type "enc" t); [|exact Hs].
  unfold bind at 1. unfold gets at 1. cbv beta iota.
  destruct (symmetricKey s) as [k|]; [|exact Hs].
  unfold bind at 1. pose proof (decryptEnvelope_pure message s) as Hp.
  destruct (decryptEnvelope message s) as [[[e|decrypted] s1] out1]; cbn in Hp;
    subst s1; [exact Hs|].
  pose proof (Inv_deliver [] decrypted Hna s Hs) as Hd.
  destruct (deliver decrypted s) as [[r s'] out]. exact Hd.
Qed.

Lemma Inv_step e s :
  answers rid s e = false -> Inv [] s -> Inv [] (step s e).
Proof.
  intros Hna Hs. unfold step.
  destruct e as [|input init|message|c|c|i|i|i|i dat|dt].
  - apply ra_inv_exec; [|exact Hs]. cbn.
    apply ra_inv_bind; [apply Inv_ensureConnection | intros; apply ra_inv_ret].
  - apply ra_inv_exec; [|exact Hs]. cbn.
    apply ra_inv_bind; [apply Inv_fetch | intros; apply ra_inv_ret].
  - apply ra_inv_exec; [|exact Hs]. apply Inv_send.
  - apply ra_inv_exec; [|exact Hs]. cbn. unfold registerWebSocketTunnel. frame.
  - apply ra_inv_exec; [|exact Hs]. cbn. unfold unregisterWebSocketTunnel. frame.
  - apply ra_inv_exec; [|exact Hs]. cbn. apply Inv_set_ready.
  - apply ra_inv_exec; [|exact Hs]. cbn. unfold on_socket.
    apply ra_inv_bind; [apply Inv_set_ready|]. intros _. inv_auto. apply Inv_onclose.
  - apply ra_inv_exec; [|exact Hs]. cbn. unfold on_socket. apply ra_inv_bind_gets.
    intros s0 Hs0. destruct (sockets s0 !! i) as [[r q]|] eqn:E; [|apply ra_inv_ret].
    apply Inv_onerror. eapply inv_sockets; eassumption.
  - unfold exec. cbn [handler]. unfold on_socket, bind, gets.
    destruct (sockets s !! i) as [[r q]|] eqn:E; [|exact Hs].
    pose proof (Inv_onmessage i (r, q) dat s E Hna Hs) as Hm. cbn [snd] in Hm.
    destruct (onmessage q dat s) as [[r' s'] out]. exact Hm.
  - unfold exec. cbn [handler]. pose proof (Inv_tick dt s Hs) as Ht.
    destruct (tick dt s) as [[r s'] out]. exact Ht.
Qed.

Lemma Inv_run trace : forall s,
  unanswered rid s trace = true -> Inv [] s -> Inv [] (run s trace).
Proof.
  induction trace as [|e trace IH]; intros s Hu Hs; [exact Hs|].
  cbn in *. apply andb_true_iff in Hu as [Hna Hu]. apply negb_true_iff in Hna.
  apply IH; [exact Hu | apply Inv_step; assumption].
Qed.
End Pending.

(** *** The clock *)
Ltac unfold_handlers :=
  unfold handler, fetch, ensureConnection, new_promise, settle_connection, resume,
    fetch_body, send, encryptPayload, ws_send, setTimeout, on_timeout, settle,
    handleTunnelResponse, handleWebSocketTunnelEvent, handleWebSocketTunnelMessage,
    registerWebSocketTunnel, unregisterWebSocketTunnel, set_ready, onclose, onerror,
    server_kx, deliver, onmessage, decryptEnvelope, as_string, on_socket, fire.

Ltac keep_clock :=
  inv_auto; try (apply ra_inv_modify; intros []; cbn; intros; assumption).

Lemma at_time_fetch_body t q url init : inv (at_time t) (fetch_body q url init).
Proof. unfold_handlers. keep_clock. Qed.

Lemma at_time_resume t q o : inv (at_time t) (resume q o).
Proof.
  unfold resume. keep_clock;
    first [apply at_time_fetch_body | unfold_handlers; keep_clock].
Qed.

Lemma at_time_ensureConnection t : inv (at_time t) ensureConnection.
Proof. unfold_handlers. keep_clock. Qed.

Lemma at_time_fire t x : inv (at_time t) (fire x).
Proof.
  destruct x; cbn [fire]; [unfold_handlers; keep_clock|].
  apply ra_inv_bind; [apply at_time_ensureConnection | intros; apply ra_inv_ret].
Qed.

Lemma at_time_handler t e :
  (forall dt, e <> Tick dt) -> inv (at_time t) (handler e).
Proof.
  intros He. destruct e; try (by exfalso; eapply He); cbn [handler].
  - apply ra_inv_bind; [apply at_time_ensureConnection | intros; apply ra_inv_ret].
  - unfold fetch, new_promise. keep_clock;
      first [apply at_time_ensureConnection | apply at_time_fetch_body
            | unfold_handlers; keep_clock].
  - unfold_handlers. keep_clock.
  - unfold_handlers. keep_clock.
  - unfold_handlers. keep_clock.
  - unfold_handlers. keep_clock.
  - unfold_handlers. keep_clock.
  - unfold on_socket, onerror, settle_connection. keep_clock;
      first [apply at_time_resume | unfold_handlers; keep_clock].
  - unfold on_socket, onmessage, server_kx, deliver, settle_connection. keep_clock;
      first [apply at_time_resume | unfold_handlers; keep_clock].
Qed.

Lemma bind_modify_state {A} f (k : unit -> M A) s :
  snd (fst (bind (modify f) k s)) = snd (fst (k tt (f s))).
Proof. unfold bind, modify. destruct (k tt (f s)) as [[r s2] out]. reflexivity. Qed.

Lemma fst_exec {A} (m : M A) s : fst (exec m s) = snd (fst (m s)).
Proof. unfold exec. destruct (m s) as [[r s'] out]. reflexivity. Qed.

Lemma now_step s e :
  now (step s e) = now s + match e with Tick dt => Z.max 0 dt | _ => 0 end.
Proof.
  assert ((exists dt, e = Tick dt) \/ forall dt, e <> Tick dt) as [[dt ->]|He].
  { destruct e; try (right; discriminate). left. eexists. reflexivity. }
  - unfold step. rewrite fst_exec. cbn [handler]. unfold tick.
    rewrite bind_modify_state.
    match goal with
    | |- now (snd (fst (?k ?s1))) = ?t =>
        assert (inv (at_time t) k) as Hk; [|apply (Hk s1)]
    end.
    + keep_clock. apply at_time_fire.
    + destruct s; reflexivity.
  - pose proof (ra_inv_exec _ _ s (at_time_handler (now s) e He) eq_refl) as Hh.
    unfold step. rewrite Hh. destruct e; try lia. exfalso. by eapply He.
Qed.

Lemma now_run trace : forall s, now (run s trace) = now s + elapsed trace.
Proof.
  induction trace as [|e trace IH]; intros s; cbn; [lia|].
  change (fold_left step trace (step s e)) with (run (step s e) trace).
  rewrite IH, now_step. unfold elapsed. destruct e; lia.
Qed.

End Facts.
End ClientFacts.

(** ** The client from its construction *)
Module ClientRuns.
Import Client.
Section Facts.
Context {S : Sodium} {R : Responses} {B : Browser}.

(** *** The equations of the statements *)
Lemma bind_ret {A C} (a : A) (k : A -> M C) s : bind (ret a) k s = k a s.
Proof. unfold bind, ret. destruct (k a s) as [[r s'] out]. reflexivity. Qed.

Lemma bind_gets {A C} (f : state -> A) (k : A -> M C) s : bind (gets f) k s = k (f s) s.
Proof. unfold bind, gets. destruct (k (f s) s) as [[r s'] out]. reflexivity. Qed.

Lemma bind_modify {C} f (k : unit -> M C) s : bind (modify f) k s = k tt (f s).
Proof. unfold bind, modify. destruct (k tt (f s)) as [[r s'] out]. reflexivity. Qed.

Lemma bind_tell {C} e (k : unit -> M C) s :
  bind (tell e) k s = (fst (fst (k tt s)), snd (fst (k tt s)), e :: snd (k tt s)).
Proof. unfold bind, tell. destruct (k tt s) as [[r s'] out]. reflexivity. Qed.

Lemma bind_throw {A C} e (k : A -> M C) s : bind (throw e) k s = (inl e, s, []).
Proof. reflexivity. Qed.

Lemma bind_assoc {A C D} (m : M A) (k : A -> M C) (h : C -> M D) s :
  bind (bind m k) h s = bind m (fun a => bind (k a) h) s.
Proof.
  unfold bind. destruct (m s) as [[[e|a] s1] out]; [reflexivity|].
  destruct (k a s1) as [[[e|c] s2] out2]; [reflexivity|].
  destruct (h c s2) as [[r s3] out3]. rewrite List.app_assoc. reflexivity.
Qed.

(** *** One owner for every promise *)
Lemma issued_to_mono s s' r : (issued s <= issued s')%nat -> issued_to s r -> issued_to s' r.
Proof. intros Hi (n & Hn & ->). exists n. split; [lia | reflexivity]. Qed.

(** A statement that hands out nothing keeps the owners. *)
Lemma consistent_transfer xs rem s xs' rem' s' :
  consistent xs rem s ->
  (promises s <= promises s')%nat -> (issued s <= issued s')%nat ->
  (forall r q, pendingRequests s' !! r = Some q -> pendingRequests s !! r = Some q) ->
  (forall d r q, In (d, TimeoutRequest r q) (rem' ++ timers s') ->
                 In (d, TimeoutRequest r q) (rem ++ timers s)) ->
  xs' ++ awaiting s' ⊆+ xs ++ awaiting s ->
  (forall i r q, sockets s' !! i = Some (r, q) ->
                 exists i' r', sockets s !! i' = Some (r', q)) ->
  (forall q, is_Some (settled s' !! q) ->
             is_Some (settled s !! q) \/ spare xs' q s') ->
  consistent xs' rem' s'.
Proof.
  intros [Hp Ht Hpi Hti Hd Ha Hs Hse] Hprom Hiss Hpend Htim Hsub Hsock Hset.
  assert (forall a, In a (xs' ++ awaiting s') -> In a (xs ++ awaiting s)) as Hin.
  { intros a Hin. apply list_elem_of_In. apply list_elem_of_In in Hin.
    eapply elem_of_submseteq; eassumption. }
  split.
  - intros r q Hl. destruct (Hp r q (Hpend _ _ Hl)) as [H1 H2].
    split; [lia | eapply issued_to_mono; eassumption].
  - intros d r q Hl. destruct (Ht d r q (Htim _ _ _ Hl)) as [H1 H2].
    split; [lia | eapply issued_to_mono; eassumption].
  - intros r r' q H1 H2. eapply Hpi; eauto.
  - intros d d' r r' q q' H1 H2. eapply Hti; eauto.
  - apply submseteq_Permutation in Hsub as [k Hk].
    apply (Permutation_map returned) in Hk.
    rewrite Hk, List.map_app in Hd. apply NoDup_app in Hd. tauto.
  - intros a Hina. destruct (Ha a (Hin a Hina)) as (H1 & H2 & H3 & H4).
    split; [lia|]. split; [|split].
    + destruct (settled s' !! returned a) as [o|] eqn:E; [|reflexivity].
      destruct (Hset (returned a) (ex_intro _ o E)) as [[o' Ho]|[_ Hf]]; [congruence|].
      exfalso. by apply (Hf a Hina).
    + intros r Hr. eapply H3, Hpend, Hr.
    + intros d r Hr. eapply H4, Htim, Hr.
  - intros i r q Hl. destruct (Hsock i r q Hl) as (i' & r' & Hl').
    destruct (Hs i' r' q Hl') as (H1 & H2 & H3 & H4).
    split; [lia|]. split; [|split].
    + intros r0 Hr. eapply H2, Hpend, Hr.
    + intros d r0 Hr. eapply H3, Htim, Hr.
    + intros a Hina. apply H4, Hin, Hina.
  - intros q o Hq. destruct (Hset q (ex_intro _ o Hq)) as [[o' Ho]|[Hf _]]; [|exact Hf].
    apply Hse in Ho. lia.
Qed.

(** A new promise, which a call of [fetch] is about to return. *)
Lemma consistent_promise xs rem s a s' :
  consistent xs rem s ->
  returned a = promises s ->
  promises s' = Datatypes.S (promises s) -> issued s' = issued s ->
  pendingRequests s' = pendingRequests s -> timers s' = timers s ->
  awaiting s' = awaiting s -> sockets s' = sockets s -> settled s' = settled s ->
  consistent (a :: xs) rem s'.
Proof.
  intros [Hp Ht Hpi Hti Hd Ha Hs Hse] Hr Hprom Hiss Hpend Htim Haw Hsock Hset.
  split; rewrite ?Hprom, ?Hiss, ?Hpend, ?Htim, ?Haw, ?Hsock, ?Hset.
  - intros r q Hl. destruct (Hp r q Hl). split; [lia|]. unfold issued_to in *.
    rewrite Hiss. assumption.
  - intros d r q Hl. destruct (Ht d r q Hl). split; [lia|]. unfold issued_to in *.
    rewrite Hiss. assumption.
  - exact Hpi.
  - exact Hti.
  - cbn [Datatypes.app map]. apply NoDup_cons. split; [|exact Hd].
    intros Hin. apply list_elem_of_In, in_map_iff in Hin as (a' & Heq & Hin).
    destruct (Ha a' Hin) as [Hlt _]. lia.
  - intros a' [<-|Hin].
    + split; [lia|]. split; [|split].
      * destruct (settled s !! returned a) as [o|] eqn:E; [|reflexivity].
        apply Hse in E. lia.
      * intros r Hl. apply Hp in Hl as [Hl _]. lia.
      * intros d r Hl. apply Ht in Hl as [Hl _]. lia.
    + destruct (Ha a' Hin) as (H1 & H2 & H3 & H4). split; [lia|]. tauto.
  - intros i r q Hl. destruct (Hs i r q Hl) as (H1 & H2 & H3 & H4).
    split; [lia|]. split; [exact H2|]. split; [exact H3|].
    intros a' [<-|Hin]; [lia | apply H4, Hin].
  - intros q o Hq. apply Hse in Hq. lia.
Qed.

(** The call that returned [returned a] registers its waiter, with or
    without the timer. *)
Lemma consistent_register xs rem s a due s' :
  FreshIds B ->
  consistent (a :: xs) rem s ->
  promises s' = promises s -> issued s' = Datatypes.S (issued s) ->
  pendingRequests s' = <[generateRequestId (issued s) := returned a]> (pendingRequests s) ->
  (forall x, In x (timers s') ->
             x = (due, TimeoutRequest (generateRequestId (issued s)) (returned a))
             \/ In x (timers s)) ->
  awaiting s' = awaiting s -> sockets s' = sockets s -> settled s' = settled s ->
  consistent xs rem s' /\ spare xs (returned a) s'.
Proof.
  intros HF [Hp Ht Hpi Hti Hd Ha Hs Hse] Hprom Hiss Hpend Htim Haw Hsock Hset.
  set (rid := generateRequestId (issued s)) in *. set (p := returned a) in *.
  destruct (Ha a (or_introl eq_refl)) as (Ha1 & Ha2 & Ha3 & Ha4). fold p in Ha1, Ha2, Ha3, Ha4.
  cbn [Datatypes.app map] in Hd. apply NoDup_cons in Hd as [Hnotin Hd].
  assert (forall a', In a' (xs ++ awaiting s) -> returned a' <> p) as Hfresh.
  { intros a' Hin Heq. apply Hnotin. apply list_elem_of_In, in_map_iff. eauto. }
  assert (forall r, issued_to s r -> r <> rid) as Hrid.
  { intros r (n & Hn & ->) Heq. apply generateRequestId_inj in Heq. lia. }
  assert (forall d r q, In (d, TimeoutRequest r q) (rem ++ timers s') ->
            (d = due /\ r = rid /\ q = p) \/ In (d, TimeoutRequest r q) (rem ++ timers s))
    as Htim'.
  { intros d r q Hin. apply in_app_or in Hin as [Hin|Hin].
    - right. apply in_or_app. by left.
    - destruct (Htim _ Hin) as [[= -> -> ->]|Hin']; [by left|].
      right. apply in_or_app. by right. }
  assert (issued_to s' rid) as Hnew.
  { exists (issued s). split; [lia | reflexivity]. }
  split; [split|]; rewrite ?Hprom, ?Hpend, ?Haw, ?Hsock, ?Hset.
  - intros r q Hl. apply lookup_insert_Some in Hl as [[<- <-]|[Hne Hl]].
    + split; [exact Ha1 | exact Hnew].
    + destruct (Hp r q Hl) as [H1 H2]. split; [exact H1|].
      eapply issued_to_mono; [|exact H2]. lia.
  - intros d r q Hin. destruct (Htim' d r q Hin) as [(-> & -> & ->)|Hin'].
    + split; [exact Ha1 | exact Hnew].
    + destruct (Ht d r q Hin') as [H1 H2]. split; [exact H1|].
      eapply issued_to_mono; [|exact H2]. lia.
  - intros r r' q H1 H2.
    apply lookup_insert_Some in H1 as [[<- <-]|[Hne1 H1]];
      apply lookup_insert_Some in H2 as [[<- Heq]|[Hne2 H2]]; try reflexivity.
    + exfalso. by apply (Ha3 r').
    + exfalso. subst q. by apply (Ha3 r).
    + eapply Hpi; eassumption.
  - intros d d' r r' q q' H1 H2 Heq.
    destruct (Htim' _ _ _ H1) as [(-> & -> & ->)|H1'];
      destruct (Htim' _ _ _ H2) as [(-> & -> & ->)|H2']; try done.
    + exfalso. destruct Heq as [<-|<-].
      * apply Ht in H2' as [_ H2']. by apply (Hrid rid).
      * by apply (Ha4 d' r').
    + exfalso. destruct Heq as [->| ->].
      * apply Ht in H1' as [_ H1']. by apply (Hrid rid).
      * by apply (Ha4 d r).
    + eapply Hti; eassumption.
  - exact Hd.
  - intros a' Hin. destruct (Ha a' (or_intror Hin)) as (H1 & H2 & H3 & H4).
    split; [exact H1|]. split; [exact H2|]. split.
    + intros r Hl. apply lookup_insert_Some in Hl as [[_ Heq]|[_ Hl]].
      * by apply (Hfresh a' Hin).
      * by apply (H3 r).
    + intros d r Hin'. destruct (Htim' _ _ _ Hin') as [(_ & _ & Heq)|Hin''].
      * by apply (Hfresh a' Hin).
      * by apply (H4 d r).
  - intros i r q Hl. destruct (Hs i r q Hl) as (H1 & H2 & H3 & H4).
    split; [exact H1|]. split; [|split].
    + intros r' Hl'. apply lookup_insert_Some in Hl' as [[_ Heq]|[_ Hl']].
      * apply (H4 a (or_introl eq_refl)). exact Heq.
      * by apply (H2 r').
    + intros d r' Hin'. destruct (Htim' _ _ _ Hin') as [(_ & _ & Heq)|Hin''].
      * apply (H4 a (or_introl eq_refl)). symmetry. exact Heq.
      * by apply (H3 d r').
    + intros a' Hin. apply H4. by right.
  - exact Hse.
  - split; [rewrite Hprom; exact Ha1|]. rewrite Haw. exact Hfresh.
Qed.

(** A new socket takes a new promise. *)
Lemma consistent_socket xs rem s i st s' :
  consistent xs rem s ->
  promises s' = Datatypes.S (promises s) -> issued s' = issued s ->
  pendingRequests s' = pendingRequests s -> timers s' = timers s ->
  awaiting s' = awaiting s ->
  sockets s' = <[i := (st, promises s)]> (sockets s) -> settled s' = settled s ->
  consistent xs rem s'.
Proof.
  intros [Hp Ht Hpi Hti Hd Ha Hs Hse] Hprom Hiss Hpend Htim Haw Hsock Hset.
  split; rewrite ?Hprom, ?Hpend, ?Htim, ?Haw, ?Hsock, ?Hset.
  - intros r q Hl. destruct (Hp r q Hl). split; [lia|]. unfold issued_to in *.
    rewrite Hiss. assumption.
  - intros d r q Hl. destruct (Ht d r q Hl). split; [lia|]. unfold issued_to in *.
    rewrite Hiss. assumption.
  - exact Hpi.
  - exact Hti.
  - exact Hd.
  - intros a Hin. destruct (Ha a Hin) as (H1 & H2 & H3 & H4). split; [lia|]. tauto.
  - intros j r q Hl. apply lookup_insert_Some in Hl as [[<- [= <- <-]]|[Hne Hl]].
    + split; [lia|]. split; [|split].
      * intros r' Hl. apply Hp in Hl as [Hl _]. lia.
      * intros d r' Hl. apply Ht in Hl as [Hl _]. lia.
      * intros a Hin. destruct (Ha a Hin) as [Hlt _]. lia.
    + destruct (Hs j r q Hl) as (H1 & H2 & H3 & H4). split; [lia|]. tauto.
  - intros q o Hq. apply Hse in Hq. lia.
Qed.

Lemma consistent_same xs rem s s' :
  consistent xs rem s ->
  promises s' = promises s -> issued s' = issued s ->
  pendingRequests s' = pendingRequests s -> timers s' = timers s ->
  awaiting s' = awaiting s -> sockets s' = sockets s -> settled s' = settled s ->
  consistent xs rem s'.
Proof.
  intros H Hprom Hiss Hpend Htim Haw Hsock Hset.
  apply (consistent_transfer xs rem s);
    rewrite ?Hprom, ?Hiss, ?Hpend, ?Htim, ?Haw, ?Hsock, ?Hset;
    [exact H | lia | lia | eauto | eauto | reflexivity | eauto | intros q Hq; by left].
Qed.

Lemma consistent_settle xs rem s q o :
  consistent xs rem s -> spare xs q s -> consistent xs rem (snd (fst (settle q o s))).
Proof.
  intros H Hq. apply (consistent_transfer xs rem s);
    [exact H | destruct s; cbn; lia | destruct s; cbn; lia | destruct s; cbn; eauto
    | destruct s; cbn; eauto | destruct s; reflexivity | destruct s; cbn; eauto |].
  destruct s; cbn in *.
  intros q' Hq'. destruct (settled0 !! q) eqn:E; [by left|].
  destruct (decide (q' = q)) as [->|Hne]; [by right|].
  rewrite lookup_insert_ne in Hq' by congruence. by left.
Qed.

(** A suspended call that is resumed or dropped gives up its promise. *)
Lemma consistent_drop xs rem s a :
  consistent (a :: xs) rem s -> consistent xs rem s /\ spare xs (returned a) s.
Proof.
  intros H. split.
  - apply (consistent_transfer (a :: xs) rem s);
      [exact H | lia | lia | eauto | eauto | | eauto | intros q Hq; by left].
    cbn [Datatypes.app]. apply submseteq_cons. reflexivity.
  - destruct (c_awaiting _ _ _ H a (or_introl eq_refl)) as [Hlt _]. split; [exact Hlt|].
    pose proof (c_distinct _ _ _ H) as Hd. cbn [Datatypes.app map] in Hd.
    apply NoDup_cons in Hd as [Hnotin _]. intros a' Hin Heq. apply Hnotin.
    apply list_elem_of_In, in_map_iff. eauto.
Qed.

(** A timer that has run is gone; the promise of a request timer belongs
    to no suspended call. *)
Lemma consistent_fired xs rem s t :
  consistent xs (t :: rem) s ->
  consistent xs rem s /\
  match snd t with TimeoutRequest r q => spare xs q s | Reconnect => True end.
Proof.
  intros H. split.
  - apply (consistent_transfer xs (t :: rem) s);
      [exact H | lia | lia | eauto | | reflexivity | eauto | intros q Hq; by left].
    intros d r q Hin. by right.
  - destruct t as [d [r q|]]; [|exact I]. cbn [snd].
    destruct (c_timers _ _ _ H d r q (or_introl eq_refl)) as [Hlt _].
    split; [exact Hlt|]. intros a Hin Heq.
    destruct (c_awaiting _ _ _ H a Hin) as (_ & _ & _ & Hno).
    apply (Hno d r). left. by rewrite Heq.
Qed.

(** *** Sending *)
Lemma ws_send_object s i props :
  ws s = Some i ->
  ws_send (JSON.stringify (VObj props)) s
  = (inr tt, s, [WsSend i (default "" (JSON.stringify (VObj props)))]).
Proof. intros Hi. unfold ws_send. rewrite bind_gets, Hi. reflexivity. Qed.

Lemma open_socket s : is_open s = true -> exists i, ws s = Some i.
Proof. unfold is_open, ready. destruct (ws s); [eauto | discriminate]. Qed.

(** What [send] does with a message that is no [client_kx]. *)
Lemma send_sealed s i k message :
  ws s = Some i -> is_open s = true -> symmetricKey s = Some k ->
  is_client_kx message = false ->
  send message s
  = (inr tt, set_draws Datatypes.S s, [WsSend i (sealed_text k (draws s) message)]).
Proof.
  intros Hi Ho Hk Hm. unfold send. rewrite bind_gets, Ho, Hm, bind_gets, Hk.
  unfold encryptPayload. rewrite bind_assoc, bind_gets, Hk, bind_assoc, bind_gets.
  rewrite bind_assoc, bind_modify, bind_ret.
  rewrite (ws_send_object _ i) by (destruct s; exact Hi). destruct s; reflexivity.
Qed.

Lemma send_unkeyed s message :
  is_open s = true -> symmetricKey s = None -> is_client_kx message = false ->
  send message s
  = (inl (Error (VStr "Encryption not ready: missing symmetric key")), s, []).
Proof.
  intros Ho Hk Hm. unfold send. rewrite bind_gets, Ho, Hm, bind_gets, Hk. reflexivity.
Qed.

Lemma send_closed s message :
  is_open s = false ->
  send message s = (inl (Error (VStr "WebSocket not connected")), s, []).
Proof. intros Ho. unfold send. rewrite bind_gets, Ho. reflexivity. Qed.

(** *** The body of [fetch] *)


Lemma fetch_body_start p url init s :
  fetch_body p url init s
  = bind (try_catch (bind (send (tunnelRequest (generateRequestId (issued s)) url init))
                       (fun _ => ret true))
            (fun error => bind (settle p (Rejected error)) (fun _ => ret false)))
      (fun sent : bool =>
         if sent then setTimeout (TimeoutRequest (generateRequestId (issued s)) p) 30000
         else ret tt)
      (registered p s).
Proof.
  unfold fetch_body. rewrite bind_gets, bind_modify, bind_modify.
  unfold registered. destruct s; reflexivity.
Qed.

Lemma fetch_body_sent p url init s i k :
  ws s = Some i -> is_open s = true -> symmetricKey s = Some k ->
  fetch_body p url init s
  = (inr tt,
     set_timers (schedule (now s + 30000)
                   (TimeoutRequest (generateRequestId (issued s)) p))
       (set_draws Datatypes.S (registered p s)),
     [WsSend i (sealed_text k (draws s)
                  (tunnelRequest (generateRequestId (issued s)) url init))]).
Proof.
  intros Hi Ho Hk. rewrite fetch_body_start. unfold bind at 1. unfold try_catch.
  unfold bind at 1.
  rewrite (send_sealed (registered p s) i k); [| destruct s; assumption ..| reflexivity].
  cbn [ret]. unfold setTimeout, modify. destruct s; reflexivity.
Qed.

Lemma fetch_body_failed p url init s :
  is_open s && bool_decide (is_Some (symmetricKey s)) = false ->
  fetch_body p url init s
  = (inr tt,
     snd (fst (settle p
                 (Rejected
                    (Error (VStr (if is_open s
                                  then "Encryption not ready: missing symmetric key"
                                  else "WebSocket not connected"))))
                 (registered p s))),
     []).
Proof.
  intros Hc. rewrite fetch_body_start. unfold bind at 1. unfold try_catch.
  unfold bind at 1. destruct (is_open s) eqn:Ho.
  - assert (symmetricKey s = None) as Hk.
    { destruct (symmetricKey s); [|reflexivity]. cbn in Hc.
      try rewrite bool_decide_eq_true_2 in Hc by eauto. discriminate. }
    rewrite (send_unkeyed (registered p s)); [| destruct s; assumption ..| reflexivity].
    reflexivity.
  - rewrite (send_closed (registered p s)) by (destruct s; assumption). reflexivity.
Qed.

Lemma fetch_body_returns p url init s : fst (fst (fetch_body p url init s)) = inr tt.
Proof.
  destruct (is_open s && bool_decide (is_Some (symmetricKey s))) eqn:Hc.
  - apply andb_true_iff in Hc as [Ho Hk]. apply bool_decide_eq_true in Hk as [k Hk].
    destruct (open_socket s Ho) as [i Hi].
    rewrite (fetch_body_sent p url init s i k Hi Ho Hk). reflexivity.
  - rewrite (fetch_body_failed p url init s Hc). reflexivity.
Qed.

Lemma fetch_body_consistent `{!FreshIds B} a xs rem url init s :
  consistent (a :: xs) rem s ->
  consistent xs rem (snd (fst (fetch_body (returned a) url init s))).
Proof.
  intros H. destruct (is_open s && bool_decide (is_Some (symmetricKey s))) eqn:Hc.
  - apply andb_true_iff in Hc as [Ho Hk]. apply bool_decide_eq_true in Hk as [k Hk].
    destruct (open_socket s Ho) as [i Hi].
    rewrite (fetch_body_sent _ url init s i k Hi Ho Hk). cbn [fst snd].
    eapply (consistent_register xs rem s a (now s + 30000)); [assumption | exact H |..];
      try (destruct s; reflexivity).
    intros x Hx. destruct s; cbn in *. apply ClientFacts.In_schedule in Hx. exact Hx.
  - rewrite (fetch_body_failed _ url init s Hc). cbn [fst snd].
    destruct (consistent_register xs rem s a 0 (registered (returned a) s)) as [H1 H2];
      [assumption | exact H | try (destruct s; reflexivity) ..|].
    { intros x Hx. right. destruct s; exact Hx. }
    apply consistent_settle; assumption.
Qed.

(** *** Resuming the suspended calls *)
Lemma bind_returns {A C} (m : M A) (k : A -> M C) s a s1 out :
  m s = (inr a, s1, out) ->
  bind m k s = (fst (fst (k a s1)), snd (fst (k a s1)), out ++ snd (k a s1)).
Proof. intros E. unfold bind. rewrite E. destruct (k a s1) as [[r s2] out2]. reflexivity. Qed.

Lemma bind_ext {A C} (m : M A) (k k' : A -> M C) s :
  (forall a s', k a s' = k' a s') -> bind m k s = bind m k' s.
Proof.
  intros Hk. unfold bind. destruct (m s) as [[[e|a] s1] out]; [reflexivity|].
  rewrite Hk. reflexivity.
Qed.

Lemma for_each_consistent {A} (P : list A -> state -> Prop) (f : A -> M unit) :
  (forall a l s, P (a :: l) s ->
                 P l (snd (fst (f a s))) /\ fst (fst (f a s)) = inr tt) ->
  forall l s, P l s ->
              P [] (snd (fst (for_each l f s))) /\ fst (fst (for_each l f s)) = inr tt.
Proof.
  intros Hf. induction l as [|a l IH]; intros s Hs; [by split|].
  cbn [for_each]. destruct (Hf a l s Hs) as [H1 H2].
  destruct (f a s) as [[r s1] out] eqn:E. cbn [fst snd] in *. subst r.
  rewrite (bind_returns _ _ _ _ _ _ E). cbn [fst snd]. apply IH, H1.
Qed.


Lemma resume_start q o s :
  resume q o s
  = for_each (filter (fun a => awaited a = q) (awaiting s)) (resumed o)
      (set_awaiting (filter (fun a => awaited a <> q)) s).
Proof. unfold resume. rewrite bind_gets, bind_modify. reflexivity. Qed.

Lemma resumed_consistent `{!FreshIds B} o rem a l s :
  consistent (a :: l) rem s ->
  consistent l rem (snd (fst (resumed o a s))) /\ fst (fst (resumed o a s)) = inr tt.
Proof.
  intros H. destruct o as [r|e]; cbn [resumed].
  - split; [apply fetch_body_consistent, H | apply fetch_body_returns].
  - split; [|reflexivity]. destruct (consistent_drop _ _ _ _ H) as [H1 H2].
    apply consistent_settle; assumption.
Qed.

Lemma consistent_taken rem q s :
  consistent [] rem s ->
  consistent (filter (fun a => awaited a = q) (awaiting s)) rem
    (set_awaiting (filter (fun a => awaited a <> q)) s).
Proof.
  intros H. apply (consistent_transfer [] rem s);
    [exact H | destruct s; cbn; lia | destruct s; cbn; lia | destruct s; cbn; eauto
    | destruct s; cbn; eauto | | destruct s; cbn; eauto | intros q' Hq'; left; destruct s; exact Hq'].
  destruct s; cbn. apply Permutation_submseteq.
  apply (filter_app_complement (fun a => awaited a = q)).
Qed.

Lemma resume_consistent `{!FreshIds B} rem q o s :
  consistent [] rem s ->
  consistent [] rem (snd (fst (resume q o s))) /\ fst (fst (resume q o s)) = inr tt.
Proof.
  intros H. rewrite resume_start.
  apply (for_each_consistent (fun l s => consistent l rem s)).
  - intros a l s0 H0. apply resumed_consistent, H0.
  - apply consistent_taken, H.
Qed.

Lemma spare_settle xs q p o s : spare xs q s -> spare xs q (snd (fst (settle p o s))).
Proof. intros Hq. destruct s; exact Hq. Qed.

Lemma settle_connection_consistent `{!FreshIds B} rem q o s :
  consistent [] rem s -> spare [] q s ->
  consistent [] rem (snd (fst (settle_connection q o s))) /\
  fst (fst (settle_connection q o s)) = inr tt.
Proof.
  intros H Hq. unfold settle_connection.
  rewrite (bind_returns _ _ _ tt (snd (fst (settle q o s))) []) by reflexivity.
  cbn [fst snd]. apply resume_consistent, consistent_settle; assumption.
Qed.

(** *** [ensureConnection] *)
Lemma ensureConnection_open s :
  is_open s = true ->
  ensureConnection s
  = (inr (promises s),
     snd (fst (settle (promises s) (Resolved Void) (set_promises Datatypes.S s))), []).
Proof.
  intros Ho. unfold ensureConnection. rewrite bind_gets, Ho. unfold new_promise.
  rewrite !bind_assoc, bind_gets, bind_assoc, bind_modify, bind_ret. reflexivity.
Qed.

Lemma ensureConnection_pending s q :
  is_open s = false -> connectionPromise s = Some q -> ensureConnection s = (inr q, s, []).
Proof.
  intros Ho Hq. unfold ensureConnection. rewrite bind_gets, Ho, bind_gets, Hq. reflexivity.
Qed.

Lemma ensureConnection_new s url :
  is_open s = false -> connectionPromise s = None -> controlUrl (origin s) = Some url ->
  ensureConnection s
  = (inr (promises s),
     set_connectionPromise (fun _ => Some (promises s))
       (set_ws (fun _ => Some (opened s))
          (set_sockets (insert (opened s) (CONNECTING, promises s))
             (set_opened Datatypes.S (set_promises Datatypes.S s)))),
     [NewWebSocket (opened s) url]).
Proof.
  intros Ho Hq Hu. unfold ensureConnection. rewrite bind_gets, Ho, bind_gets, Hq.
  unfold new_promise. rewrite !bind_assoc, bind_gets, bind_assoc, bind_modify, bind_ret.
  unfold bind at 1. unfold try_catch. rewrite bind_gets.
  assert (origin (set_promises Datatypes.S s) = origin s) as -> by (destruct s; reflexivity).
  rewrite Hu. cbn [lift]. rewrite bind_ret, bind_gets, bind_modify, bind_modify, bind_modify.
  cbn [tell]. rewrite bind_modify. destruct s; reflexivity.
Qed.

Lemma ensureConnection_refused s :
  is_open s = false -> connectionPromise s = None -> controlUrl (origin s) = None ->
  ensureConnection s
  = (inr (promises s),
     set_connectionPromise (fun _ => Some (promises s))
       (snd (fst (settle (promises s) (Rejected LibraryError)
                    (set_promises Datatypes.S s)))),
     []).
Proof.
  intros Ho Hq Hu. unfold ensureConnection. rewrite bind_gets, Ho, bind_gets, Hq.
  unfold new_promise. rewrite !bind_assoc, bind_gets, bind_assoc, bind_modify, bind_ret.
  unfold bind at 1. unfold try_catch. rewrite bind_gets.
  assert (origin (set_promises Datatypes.S s) = origin s) as -> by (destruct s; reflexivity).
  rewrite Hu. cbn [lift]. rewrite bind_throw. cbn [settle modify].
  rewrite bind_modify. destruct s; reflexivity.
Qed.


Lemma ensureConnection_returns s : fst (fst (ensureConnection s)) = inr (connection_of s).
Proof.
  unfold connection_of. destruct (is_open s) eqn:Ho.
  - rewrite (ensureConnection_open s Ho). reflexivity.
  - destruct (connectionPromise s) as [q|] eqn:Hq.
    + rewrite (ensureConnection_pending s q Ho Hq). reflexivity.
    + destruct (controlUrl (origin s)) as [url|] eqn:Hu.
      * rewrite (ensureConnection_new s url Ho Hq Hu). reflexivity.
      * rewrite (ensureConnection_refused s Ho Hq Hu). reflexivity.
Qed.

Lemma consistent_fresh_settle xs rem s o :
  consistent xs rem s ->
  consistent xs rem (snd (fst (settle (promises s) o (set_promises Datatypes.S s)))).
Proof.
  intros H. apply consistent_settle.
  - apply (consistent_transfer xs rem s);
      [exact H | destruct s; cbn; lia | destruct s; cbn; lia | destruct s; cbn; eauto
      | destruct s; cbn; eauto | destruct s; reflexivity | destruct s; cbn; eauto
      | intros q' Hq'; left; destruct s; exact Hq'].
  - split; [destruct s; cbn; lia|]. intros a Hin Heq.
    assert (In a (xs ++ awaiting s)) as Hin' by (destruct s; exact Hin).
    destruct (c_awaiting _ _ _ H a Hin') as [Hlt _]. destruct s; cbn in *. lia.
Qed.

Lemma ensureConnection_consistent xs rem s :
  consistent xs rem s -> consistent xs rem (snd (fst (ensureConnection s))).
Proof.
  intros H. destruct (is_open s) eqn:Ho.
  - rewrite (ensureConnection_open s Ho). cbn [fst snd]. apply consistent_fresh_settle, H.
  - destruct (connectionPromise s) as [q|] eqn:Hq.
    + rewrite (ensureConnection_pending s q Ho Hq). exact H.
    + destruct (controlUrl (origin s)) as [url|] eqn:Hu.
      * rewrite (ensureConnection_new s url Ho Hq Hu). cbn [fst snd].
        apply (consistent_socket xs rem s (opened s) CONNECTING); [exact H |..];
          destruct s; reflexivity.
      * rewrite (ensureConnection_refused s Ho Hq Hu). cbn [fst snd].
        eapply consistent_same; [apply (consistent_fresh_settle xs rem s), H |..];
          destruct s; reflexivity.
Qed.



Lemma fetch_start input init s :
  fetch input init s
  = bind ensureConnection
      (fun q => bind (proceed (promises s) q input init) (fun _ => ret (promises s)))
      (set_promises Datatypes.S s).
Proof.
  unfold fetch, new_promise.
  rewrite !bind_assoc, bind_gets, bind_assoc, bind_modify, bind_ret.
  apply bind_ext. intros q s'. unfold proceed. rewrite bind_assoc. reflexivity.
Qed.

Lemma proceed_consistent `{!FreshIds B} rem p q input init s :
  consistent [call p q input init] rem s ->
  consistent [] rem (snd (fst (proceed p q input init s))) /\
  fst (fst (proceed p q input init s)) = inr tt.
Proof.
  intros H. unfold proceed. rewrite bind_gets.
  destruct (settled s !! q) as [[r|e]|] eqn:E.
  - split; [exact (fetch_body_consistent _ [] rem _ _ s H) | apply fetch_body_returns].
  - split; [|reflexivity]. destruct (consistent_drop _ _ _ _ H) as [H1 H2].
    apply consistent_settle; assumption.
  - split; [|reflexivity]. cbn [modify fst snd].
    apply (consistent_transfer [call p q input init] rem s);
      [exact H | destruct s; cbn; lia | destruct s; cbn; lia | destruct s; cbn; eauto
      | destruct s; cbn; eauto | | destruct s; cbn; eauto
      | intros q' Hq'; left; destruct s; exact Hq'].
    destruct s; cbn. apply Permutation_submseteq.
    rewrite Permutation_app_comm. reflexivity.
Qed.

Lemma fetch_consistent `{!FreshIds B} rem input init s :
  consistent [] rem s -> consistent [] rem (snd (fst (fetch input init s))).
Proof.
  intros H. rewrite fetch_start.
  set (s1 := set_promises Datatypes.S s).
  pose proof (ensureConnection_returns s1) as Hr.
  destruct (ensureConnection s1) as [[r s2] out] eqn:E. cbn [fst] in Hr. subst r.
  rewrite (bind_returns _ _ _ _ _ _ E). cbn [fst snd].
  assert (consistent [call (promises s) (connection_of s1) input init] rem s2) as H2.
  { replace s2 with (snd (fst (ensureConnection s1))) by (rewrite E; reflexivity).
    apply ensureConnection_consistent.
    apply (consistent_promise [] rem s); [exact H | reflexivity |..];
      subst s1; destruct s; reflexivity. }
  destruct (proceed_consistent rem _ _ input init s2 H2) as [H3 H4].
  destruct (proceed _ _ input init s2) as [[r s3] out3] eqn:E3. cbn [fst snd] in *.
  subst r. rewrite (bind_returns _ _ _ _ _ _ E3). exact H3.
Qed.

(** *** The timers *)
Lemma on_timeout_effect r q s :
  on_timeout r q s
  = match pendingRequests s !! r with
    | Some _ =>
        (inr tt,
         snd (fst (settle q (Rejected (Error (VStr "Request timeout")))
                     (set_pendingRequests (delete r) s))), [])
    | None => (inr tt, s, [])
    end.
Proof.
  unfold on_timeout. rewrite bind_gets. destruct (pendingRequests s !! r); [|reflexivity].
  rewrite bind_modify. reflexivity.
Qed.

Lemma consistent_forget xs rem r s :
  consistent xs rem s -> consistent xs rem (set_pendingRequests (delete r) s).
Proof.
  intros H. apply (consistent_transfer xs rem s);
    [exact H | destruct s; cbn; lia | destruct s; cbn; lia | | destruct s; cbn; eauto
    | destruct s; reflexivity | destruct s; cbn; eauto
    | intros q' Hq'; left; destruct s; exact Hq'].
  destruct s; cbn. intros r' q Hl. apply lookup_delete_Some in Hl. tauto.
Qed.

Lemma spare_forget xs q r s : spare xs q s -> spare xs q (set_pendingRequests (delete r) s).
Proof. intros Hq. destruct s; exact Hq. Qed.

Lemma on_timeout_consistent xs rem d r q s :
  consistent xs ((d, TimeoutRequest r q) :: rem) s ->
  consistent xs rem (snd (fst (on_timeout r q s))).
Proof.
  intros H. destruct (consistent_fired _ _ _ _ H) as [H1 H2]. cbn [snd] in H2.
  rewrite on_timeout_effect. destruct (pendingRequests s !! r); [|exact H1].
  cbn [fst snd]. apply consistent_settle; [apply consistent_forget, H1 | apply spare_forget, H2].
Qed.


Lemma caught_consistent xs rem t s :
  consistent xs (t :: rem) s ->
  consistent xs rem (snd (fst (caught t s))) /\ fst (fst (caught t s)) = inr tt.
Proof.
  intros H. split.
  - unfold caught. rewrite ClientFacts.try_catch_state by (intros; reflexivity).
    destruct t as [d [r q|]]; cbn [snd fire].
    + apply (on_timeout_consistent xs rem d r q s H).
    + destruct (consistent_fired _ _ _ _ H) as [H1 _].
      pose proof (ensureConnection_returns s) as Hr.
      pose proof (ensureConnection_consistent xs rem s H1) as Hc.
      destruct (ensureConnection s) as [[x s1] out] eqn:E. cbn [fst snd] in *. subst x.
      rewrite (bind_returns _ _ _ _ _ _ E). exact Hc.
  - unfold caught, try_catch. destruct (fire (snd t) s) as [[[e|[]] s1] out]; reflexivity.
Qed.

Lemma tick_start dt s :
  tick dt s
  = for_each (filter (fun e => fst e <= now s + Z.max 0 dt) (timers s)) caught
      (set_timers (filter (fun e => now s + Z.max 0 dt < fst e))
         (set_now (fun t => t + Z.max 0 dt) s)).
Proof.
  unfold tick. rewrite bind_modify, bind_gets, bind_gets, bind_modify.
  destruct s; reflexivity.
Qed.

Lemma tick_consistent dt s :
  consistent [] [] s -> consistent [] [] (snd (fst (tick dt s))).
Proof.
  intros H. rewrite tick_start.
  apply (for_each_consistent (fun l s => consistent [] l s)).
  - intros t l s0 H0. apply caught_consistent, H0.
  - apply (consistent_transfer [] [] s);
      [exact H | destruct s; cbn; lia | destruct s; cbn; lia | destruct s; cbn; eauto
      | | destruct s; reflexivity | destruct s; cbn; eauto
      | intros q' Hq'; left; destruct s; exact Hq'].
    destruct s; cbn. intros d r q Hin.
    apply in_app_or in Hin as [Hin|Hin];
      apply list_elem_of_In, list_elem_of_filter in Hin as [_ Hin];
      by apply list_elem_of_In.
Qed.

(** *** The handlers of the socket *)
Lemma set_ready_consistent xs rem i r s :
  consistent xs rem s -> consistent xs rem (snd (fst (set_ready i r s))).
Proof.
  intros H. apply (consistent_transfer xs rem s);
    [exact H | destruct s; cbn; lia | destruct s; cbn; lia | destruct s; cbn; eauto
    | destruct s; cbn; eauto | destruct s; reflexivity |
    | intros q' Hq'; left; destruct s; exact Hq'].
  destruct s; cbn. intros j r' q Hl.
  destruct (sockets0 !! i) as [[r0 q0]|] eqn:E; [|eauto].
  apply lookup_insert_Some in Hl as [[<- [= <- <-]]|[_ Hl]]; eauto.
Qed.

Lemma onclose_consistent xs rem s :
  consistent xs rem s -> consistent xs rem (snd (fst (onclose s))).
Proof.
  intros H. unfold onclose. rewrite bind_modify. cbn [setTimeout modify fst snd].
  apply (consistent_transfer xs rem s);
    [exact H | destruct s; cbn; lia | destruct s; cbn; lia | destruct s; cbn; eauto
    | | destruct s; reflexivity | destruct s; cbn; eauto
    | intros q' Hq'; left; destruct s; exact Hq'].
  destruct s; cbn. intros d r q Hin. apply in_app_or in Hin as [Hin|Hin].
  - apply in_or_app. by left.
  - apply ClientFacts.In_schedule in Hin as [Hin|Hin]; [discriminate Hin|].
    apply in_or_app. by right.
Qed.


Ltac keep_step :=
  cbv zeta;
  lazymatch goal with
  | |- inv _ (ret _) => apply ClientFacts.ra_inv_ret
  | |- inv _ (throw _) => apply ClientFacts.ra_inv_throw
  | |- inv _ (tell _) => apply ClientFacts.ra_inv_tell
  | |- inv _ (gets _) => apply ClientFacts.ra_inv_gets
  | |- inv _ (lift _) => apply ClientFacts.ra_inv_lift
  | |- inv _ (bind _ _) => apply ClientFacts.ra_inv_bind
  | |- inv _ (try_catch _ _) => apply ClientFacts.ra_inv_try_catch
  | |- inv _ (for_each _ _) => apply ClientFacts.ra_inv_for_each
  | |- inv _ (if ?b then _ else _) => destruct b
  | |- inv _ (match ?x with _ => _ end) => destruct x
  | |- forall _, _ => intro
  end.

Ltac keep_auto := repeat keep_step.

(** A statement that leaves the promises, the requests, the timers, the
    suspended calls and the sockets as they are. *)
Ltac neutral :=
  apply ClientFacts.ra_inv_modify; intros s0 [H0 [r0 E0]]; split;
  [eapply consistent_same; [exact H0 | destruct s0; reflexivity ..]
  | exists r0; destruct s0; exact E0].

Lemma owned_send i q message : inv (owned i q) (send message).
Proof. unfold send, encryptPayload, ws_send. keep_auto. neutral. Qed.

Lemma sockets_settle p o s : sockets (snd (fst (settle p o s))) = sockets s.
Proof. destruct s; reflexivity. Qed.

Lemma sockets_fetch_body p url init s :
  sockets (snd (fst (fetch_body p url init s))) = sockets s.
Proof.
  destruct (is_open s && bool_decide (is_Some (symmetricKey s))) eqn:Hc.
  - apply andb_true_iff in Hc as [Ho Hk]. apply bool_decide_eq_true in Hk as [k Hk].
    destruct (open_socket s Ho) as [i Hi].
    rewrite (fetch_body_sent p url init s i k Hi Ho Hk). destruct s; reflexivity.
  - rewrite (fetch_body_failed p url init s Hc). destruct s; reflexivity.
Qed.

Lemma sockets_resumed o l : forall s,
  sockets (snd (fst (for_each l (resumed o) s))) = sockets s.
Proof.
  induction l as [|a l IH]; intros s; [reflexivity|].
  cbn [for_each].
  assert (fst (fst (resumed o a s)) = inr tt) as Hr.
  { destruct o; cbn [resumed]; [apply fetch_body_returns | reflexivity]. }
  assert (sockets (snd (fst (resumed o a s))) = sockets s) as Hs.
  { destruct o; cbn [resumed]; [apply sockets_fetch_body | apply sockets_settle]. }
  destruct (resumed o a s) as [[x s1] out] eqn:E. cbn [fst snd] in *. subst x.
  rewrite (bind_returns _ _ _ _ _ _ E). cbn [fst snd]. rewrite IH. exact Hs.
Qed.

Lemma sockets_resume q o s : sockets (snd (fst (resume q o s))) = sockets s.
Proof. rewrite resume_start, sockets_resumed. destruct s; reflexivity. Qed.

Lemma owned_settle_connection `{!FreshIds B} i q o : inv (owned i q) (settle_connection q o).
Proof.
  intros s [H [r E]].
  assert (spare [] q s) as Hq.
  { destruct (c_sockets _ _ _ H i r q E) as (H1 & _ & _ & H4). split; assumption. }
  split; [apply settle_connection_consistent; assumption|].
  exists r. unfold settle_connection.
  rewrite (bind_returns _ _ _ tt (snd (fst (settle q o s))) []) by reflexivity.
  cbn [fst snd]. rewrite sockets_resume, sockets_settle. exact E.
Qed.

Lemma owned_server_kx `{!FreshIds B} i q message : inv (owned i q) (server_kx q message).
Proof.
  unfold server_kx, as_string. keep_auto;
    first [ apply owned_send | apply owned_settle_connection | neutral ].
Qed.

Lemma owned_onerror `{!FreshIds B} i q : inv (owned i q) (onerror q).
Proof. unfold onerror. keep_auto; first [apply owned_settle_connection | neutral]. Qed.

Lemma handleTunnelResponse_consistent response s :
  consistent [] [] s -> consistent [] [] (snd (fst (handleTunnelResponse response s))).
Proof.
  intros H. unfold handleTunnelResponse. rewrite bind_gets.
  destruct (prop response "requestId") as [| | | | |r| | |]; try exact H.
  destruct (pendingRequests s !! r) as [p|] eqn:Hp; [|exact H].
  rewrite bind_modify.
  assert (spare [] p s) as Hs.
  { destruct (c_pending _ _ _ H r p Hp) as [Hlt _]. split; [exact Hlt|].
    intros a Hin Heq. destruct (c_awaiting _ _ _ H a Hin) as (_ & _ & Hno & _).
    apply (Hno r). by rewrite Heq. }
  pose proof (consistent_forget [] [] r s H) as H1.
  pose proof (spare_forget [] p r s Hs) as Hs1.
  destruct (truthy (prop response "error")); [apply consistent_settle; assumption|].
  destruct (new_Response _ _ _ _) as [x|]; cbn [lift].
  - rewrite bind_ret. apply consistent_settle; assumption.
  - rewrite bind_throw. exact H1.
Qed.

Lemma sockets_handleTunnelResponse response s :
  sockets (snd (fst (handleTunnelResponse response s))) = sockets s.
Proof.
  unfold handleTunnelResponse. rewrite bind_gets.
  destruct (prop response "requestId") as [| | | | |r| | |]; try reflexivity.
  destruct (pendingRequests s !! r); [|reflexivity]. rewrite bind_modify.
  destruct (truthy _); [destruct s; reflexivity|].
  destruct (new_Response _ _ _ _); cbn [lift]; [rewrite bind_ret | rewrite bind_throw];
    destruct s; reflexivity.
Qed.

Lemma owned_deliver i q decrypted : inv (owned i q) (deliver decrypted).
Proof.
  unfold deliver, handleWebSocketTunnelEvent, handleWebSocketTunnelMessage. keep_auto.
  intros s [H [r E]]. split; [apply handleTunnelResponse_consistent, H|].
  exists r. rewrite sockets_handleTunnelResponse. exact E.
Qed.

Lemma owned_decryptEnvelope i q envelope : inv (owned i q) (decryptEnvelope envelope).
Proof. intros s H. rewrite ClientFacts.decryptEnvelope_pure. exact H. Qed.

Lemma owned_onmessage `{!FreshIds B} i q dat : inv (owned i q) (onmessage q dat).
Proof.
  unfold onmessage. keep_auto;
    first [ apply owned_server_kx | apply owned_decryptEnvelope | apply owned_deliver ].
Qed.

(** *** Every state that the client reaches *)
Lemma consistent_exec {A} (m : M A) s :
  consistent [] [] (snd (fst (m s))) -> consistent [] [] (fst (exec m s)).
Proof. intros H. rewrite ClientFacts.fst_exec. exact H. Qed.

Lemma consistent_frame (f : state -> state) s :
  consistent [] [] s ->
  promises (f s) = promises s -> issued (f s) = issued s ->
  pendingRequests (f s) = pendingRequests s -> timers (f s) = timers s ->
  awaiting (f s) = awaiting s -> sockets (f s) = sockets s -> settled (f s) = settled s ->
  consistent [] [] (f s).
Proof. intros; eapply consistent_same; eassumption. Qed.

Lemma consistent_step `{!FreshIds B} s e :
  consistent [] [] s -> consistent [] [] (step s e).
Proof.
  intros H. unfold step. apply consistent_exec.
  destruct e as [|input init|message|c|c|i|i|i|i dat|dt]; cbn [handler].
  - pose proof (ensureConnection_returns s) as Hr.
    pose proof (ensureConnection_consistent [] [] s H) as Hc.
    destruct (ensureConnection s) as [[x s1] out] eqn:E. cbn [fst snd] in *. subst x.
    rewrite (bind_returns _ _ _ _ _ _ E). exact Hc.
  - pose proof (fetch_consistent [] input init s H) as Hc.
    unfold bind. destruct (fetch input init s) as [[[x|x] s1] out]; exact Hc.
  - assert (inv (consistent [] []) (send message)) as Hs; [|apply Hs, H].
    unfold send, encryptPayload, ws_send. keep_auto.
    apply ClientFacts.ra_inv_modify. intros s0 H0.
    eapply consistent_same; [exact H0 | destruct s0; reflexivity ..].
  - apply consistent_frame; [exact H | destruct s; reflexivity ..].
  - apply consistent_frame; [exact H | destruct s; reflexivity ..].
  - apply set_ready_consistent, H.
  - rewrite (bind_returns _ _ _ tt (snd (fst (set_ready i CLOSED s))) []) by reflexivity.
    cbn [fst snd]. pose proof (set_ready_consistent [] [] i CLOSED s H) as H1.
    unfold on_socket. rewrite bind_gets.
    destruct (sockets _ !! i) as [[r q]|]; [apply onclose_consistent, H1 | exact H1].
  - unfold on_socket. rewrite bind_gets.
    destruct (sockets s !! i) as [[r q]|] eqn:E; [|exact H].
    apply (owned_onerror i q s). split; [exact H | eauto].
  - unfold on_socket. rewrite bind_gets.
    destruct (sockets s !! i) as [[r q]|] eqn:E; [|exact H].
    apply (owned_onmessage i q dat s). split; [exact H | eauto].
  - apply tick_consistent, H.
Qed.

Lemma consistent_initial o : consistent [] [] (initial o).
Proof.
  split; cbn; intros;
    repeat match goal with
           | H : ∅ !! _ = Some _ |- _ => rewrite lookup_empty in H; discriminate H
           | H : False |- _ => destruct H
           end;
    constructor.
Qed.

Lemma consistent_run `{!FreshIds B} trace : forall s,
  consistent [] [] s -> consistent [] [] (run s trace).
Proof.
  induction trace as [|e trace IH]; intros s H; [exact H|].
  cbn. apply IH, consistent_step, H.
Qed.

Lemma reachable_consistent `{!FreshIds B} s : reachable s -> consistent [] [] s.
Proof. intros (o & trace & ->). apply consistent_run, consistent_initial. Qed.

Lemma reachable_step s e : reachable s -> reachable (step s e).
Proof.
  intros (o & trace & ->). exists o, (trace ++ [e]). unfold run.
  rewrite fold_left_app. reflexivity.
Qed.

Lemma reachable_run s trace : reachable s -> reachable (run s trace).
Proof.
  intros (o & t0 & ->). exists o, (t0 ++ trace). unfold run.
  rewrite fold_left_app. reflexivity.
Qed.

(** *** A request in flight *)
Lemma in_flight_Inv `{!FreshIds B} s rid p due :
  consistent [] [] s -> in_flight rid p due s ->
  exists n0, rid = generateRequestId n0 /\ Inv rid n0 p due [] s.
Proof.
  intros H (Hp & Hs & Hnow & Htimer).
  destruct (c_pending _ _ _ H rid p Hp) as [Hlt (n0 & Hn0 & ->)].
  exists n0. split; [reflexivity|]. split.
  - exact Hn0.
  - exact Hlt.
  - intros r q Hl Hne Heq. subst q. apply Hne. exact (c_pending_inj _ _ _ H _ _ _ Hl Hp).
  - intros a Hin Heq. destruct (c_awaiting _ _ _ H a Hin) as (_ & _ & Hno & _).
    apply (Hno (generateRequestId n0)). by rewrite Heq.
  - intros i r q Hl Heq. destruct (c_sockets _ _ _ H i r q Hl) as (_ & Hno & _).
    apply (Hno (generateRequestId n0)). by rewrite Heq.
  - intros [d t] Hin. destruct t as [r q|]; [|by right].
    destruct (decide (r = generateRequestId n0 \/ q = p)) as [Heq|Hne].
    + left. destruct (c_timers_inj _ _ _ H d due r (generateRequestId n0) q p Hin Htimer Heq)
        as (-> & -> & ->). reflexivity.
    + right. cbn. split; intros ->; apply Hne; [by left | by right].
  - intros t [].
  - right. repeat split; try assumption. right. by split.
Qed.

Lemma in_flight_times_out `{!FreshIds B} s rid p due trace :
  reachable s -> in_flight rid p due s ->
  unanswered rid s trace = true -> due <= now s + elapsed trace ->
  timed_out rid p (run s trace).
Proof.
  intros Hr Hf Hu Hdue. pose proof (reachable_consistent s Hr) as H.
  destruct (in_flight_Inv s rid p due H Hf) as (n0 & -> & Hinv).
  pose proof (ClientFacts.Inv_run n0 p due trace s Hu Hinv) as Hfinal.
  destruct (inv_state _ _ _ _ _ _ Hfinal) as [Hout|(_ & _ & [[]|[Hlt _]])]; [exact Hout|].
  rewrite ClientFacts.now_run in Hlt. lia.
Qed.

(** *** A call of [fetch] on the open socket *)
Lemma proceed_resolved p q input init s r :
  settled s !! q = Some (Resolved r) ->
  proceed p q input init s = fetch_body p (url_of input) init s.
Proof. intros Hq. unfold proceed. rewrite bind_gets, Hq. reflexivity. Qed.


Lemma triple_eta {A} (x : (exn + A) * state * list effect) :
  (fst (fst x), snd (fst x), [] ++ snd x) = x.
Proof. destruct x as [[r s] out]. reflexivity. Qed.

Lemma fetch_open s input init :
  consistent [] [] s -> is_open s = true ->
  fetch input init s
  = bind (fetch_body (promises s) (url_of input) init) (fun _ => ret (promises s))
      (called s).
Proof.
  intros H Ho. rewrite fetch_start.
  rewrite (bind_returns _ _ _ _ _ _
             (ensureConnection_open (set_promises Datatypes.S s)
                ltac:(destruct s; exact Ho))).
  rewrite triple_eta.
  assert (settled s !! Datatypes.S (promises s) = None) as Hn.
  { destruct (settled s !! Datatypes.S (promises s)) eqn:E; [|reflexivity].
    apply (c_settled _ _ _ H) in E. lia. }
  assert (snd (fst (settle (promises (set_promises Datatypes.S s)) (Resolved Void)
                      (set_promises Datatypes.S (set_promises Datatypes.S s))))
          = called s) as ->.
  { unfold called. destruct s; reflexivity. }
  assert (promises (set_promises Datatypes.S s) = Datatypes.S (promises s)) as ->
    by (destruct s; reflexivity).
  assert (settled (called s) !! Datatypes.S (promises s) = Some (Resolved Void)) as Hq.
  { unfold called. destruct s; cbn in *. rewrite Hn. apply lookup_insert_eq. }
  unfold bind. rewrite (proceed_resolved _ _ _ _ _ _ Hq). reflexivity.
Qed.

Lemma called_fields s :
  ws (called s) = ws s /\ is_open (called s) = is_open s /\
  symmetricKey (called s) = symmetricKey s /\ draws (called s) = draws s /\
  issued (called s) = issued s /\ now (called s) = now s /\
  timers (called s) = timers s /\ pendingRequests (called s) = pendingRequests s /\
  awaiting (called s) = awaiting s.
Proof. unfold called. destruct s. repeat split. Qed.

Lemma settled_called s p :
  consistent [] [] s -> (p <= promises s)%nat -> settled s !! p = None ->
  settled (called s) !! p = None.
Proof.
  intros H Hp Hs. unfold called. destruct s; cbn in *.
  destruct (settled0 !! Datatypes.S promises0); [exact Hs|].
  rewrite lookup_insert_ne by lia. exact Hs.
Qed.

Lemma fresh_unsettled s : consistent [] [] s -> settled s !! promises s = None.
Proof.
  intros H. destruct (settled s !! promises s) eqn:E; [|reflexivity].
  apply (c_settled _ _ _ H) in E. lia.
Qed.

(** The request goes out at once, and is in flight. *)
Lemma fetch_sends s i k input init :
  consistent [] [] s -> ws s = Some i -> is_open s = true -> symmetricKey s = Some k ->
  snd (exec (handler (CallFetch input init)) s)
  = [WsSend i (sealed_text k (draws s)
                 (tunnelRequest (generateRequestId (issued s)) (url_of input) init))] /\
  in_flight (generateRequestId (issued s)) (promises s) (now s + 30000)
    (step s (CallFetch input init)).
Proof.
  intros H Hi Ho Hk. destruct (called_fields s) as (E1 & E2 & E3 & E4 & E5 & E6 & E7 & E8 & E9).
  unfold step, exec. cbn [handler].
  assert (bind (fetch input init) (fun _ => ret tt) s
          = bind (fetch_body (promises s) (url_of input) init) (fun _ => ret tt) (called s))
    as ->.
  { unfold bind at 1. rewrite (fetch_open s input init H Ho). unfold bind.
    destruct (fetch_body _ _ _ _) as [[[e|[]] s1] out]; cbn [ret];
      rewrite ?List.app_nil_r; reflexivity. }
  rewrite (bind_returns _ _ _ _ _ _
             (fetch_body_sent (promises s) (url_of input) init (called s) i k
                ltac:(congruence) ltac:(congruence) ltac:(congruence))).
  cbn [fst snd ret]. rewrite E4, E5, E6. split; [reflexivity|].
  pose proof (settled_called s (promises s) H ltac:(lia) (fresh_unsettled s H)) as Hs.
  unfold in_flight, registered.
  destruct (called s) as [? ? ? ? ? ? ? ? ? ? ? ? ? ? ? ? ?]; cbn in *.
  subst. split; [apply lookup_insert_eq|]. split; [exact Hs|]. split; [lia|].
  apply ClientFacts.In_schedule. by left.
Qed.


(** *** The handshake resumes the calls that wait for it *)
Lemma in_flight_fetch_body a xs url init s i k rid p due :
  FreshIds B ->
  consistent (a :: xs) [] s -> ws s = Some i -> is_open s = true -> symmetricKey s = Some k ->
  in_flight rid p due s ->
  in_flight rid p due (snd (fst (fetch_body (returned a) url init s))).
Proof.
  intros HF H Hi Ho Hk (Hp & Hs & Hnow & Ht).
  rewrite (fetch_body_sent _ url init s i k Hi Ho Hk). cbn [fst snd].
  destruct (c_pending _ _ _ H rid p Hp) as [_ (n & Hn & ->)].
  assert (generateRequestId n <> generateRequestId (issued s)) as Hne.
  { intros Heq. apply generateRequestId_inj in Heq. lia. }
  unfold in_flight, registered. destruct s; cbn in *.
  split; [rewrite lookup_insert_ne by congruence; exact Hp|].
  split; [exact Hs|]. split; [exact Hnow|]. apply ClientFacts.In_schedule. by right.
Qed.

Lemma fetch_body_in_flight a xs url init s i k :
  consistent (a :: xs) [] s -> ws s = Some i -> is_open s = true -> symmetricKey s = Some k ->
  in_flight (generateRequestId (issued s)) (returned a) (now s + 30000)
    (snd (fst (fetch_body (returned a) url init s))).
Proof.
  intros H Hi Ho Hk. rewrite (fetch_body_sent _ url init s i k Hi Ho Hk). cbn [fst snd].
  destruct (c_awaiting _ _ _ H a (or_introl eq_refl)) as (_ & Hs & _).
  unfold in_flight, registered. destruct s; cbn in *.
  split; [apply lookup_insert_eq|]. split; [exact Hs|]. split; [lia|].
  apply ClientFacts.In_schedule. by left.
Qed.

Lemma resumed_sent `{!FreshIds B} i k t l : forall s,
  consistent l [] s -> ws s = Some i -> is_open s = true -> symmetricKey s = Some k ->
  now s = t ->
  fst (fst (for_each l (resumed (Resolved Void)) s)) = inr tt /\
  (forall a, In a l ->
     exists n m,
       In (WsSend i (sealed_text k m
                       (tunnelRequest (generateRequestId n) (input_url a) (init_of a))))
          (snd (for_each l (resumed (Resolved Void)) s)) /\
       in_flight (generateRequestId n) (returned a) (t + 30000)
         (snd (fst (for_each l (resumed (Resolved Void)) s)))) /\
  (forall rid p due,
     in_flight rid p due s ->
     in_flight rid p due (snd (fst (for_each l (resumed (Resolved Void)) s)))).
Proof.
  induction l as [|a l IH]; intros s H Hi Ho Hk Hnow.
  { cbn. split; [reflexivity|]. split; [intros a []|]. intros rid p due Hf. exact Hf. }
  cbn [for_each resumed].
  pose proof (fetch_body_sent (returned a) (input_url a) (init_of a) s i k Hi Ho Hk) as E.
  pose proof (fetch_body_consistent a l [] (input_url a) (init_of a) s H) as H1.
  pose proof (fetch_body_in_flight a l (input_url a) (init_of a) s i k H Hi Ho Hk) as Hnew.
  assert (forall rid p due, in_flight rid p due s ->
            in_flight rid p due
              (snd (fst (fetch_body (returned a) (input_url a) (init_of a) s)))) as Hold.
  { intros rid p due Hf. eapply in_flight_fetch_body; eassumption. }
  rewrite E in H1, Hnew, Hold. cbn [fst snd] in H1, Hnew, Hold.
  rewrite (bind_returns _ _ _ _ _ _ E). cbn [fst snd].
  set (s1 := set_timers _ _) in *.
  assert (ws s1 = Some i) as Hi1 by (subst s1; destruct s; exact Hi).
  assert (is_open s1 = true) as Ho1 by (subst s1; destruct s; exact Ho).
  assert (symmetricKey s1 = Some k) as Hk1 by (subst s1; destruct s; exact Hk).
  assert (now s1 = t) as Hnow1 by (subst s1; destruct s; exact Hnow).
  destruct (IH s1 H1 Hi1 Ho1 Hk1 Hnow1) as (R1 & R2 & R3).
  split; [exact R1|]. split.
  - intros a' [<-|Hin].
    + exists (issued s), (draws s). split; [by left|]. apply R3. rewrite <- Hnow. exact Hnew.
    + destruct (R2 a' Hin) as (n & m & Hsent & Hf). exists n, m. split; [by right | exact Hf].
  - intros rid p due Hf. apply R3, Hold, Hf.
Qed.

Lemma send_client_kx s i key serverPub :
  ws s = Some i -> is_open s = true ->
  send (client_kx key serverPub) s
  = (inr tt, s, [WsSend i (client_kx_text key serverPub)]).
Proof.
  intros Hi Ho. unfold send. rewrite bind_gets, Ho.
  assert (is_client_kx (client_kx key serverPub) = true) as -> by reflexivity.
  unfold client_kx_text, client_kx. apply ws_send_object, Hi.
Qed.

Lemma server_kx_open s i q message pk serverPub :
  ws s = Some i -> is_open s = true ->
  prop message "x25519PublicKey" = VStr pk -> from_base64 pk = Some serverPub ->
  fst (fst (settle_connection q (Resolved Void) (handshaken serverPub s))) = inr tt ->
  server_kx q message s
  = (inr tt, snd (fst (settle_connection q (Resolved Void) (handshaken serverPub s))),
     WsSend i (client_kx_text (crypto_secretbox_keygen (generated s)) serverPub)
       :: snd (settle_connection q (Resolved Void) (handshaken serverPub s))).
Proof.
  intros Hi Ho Hpk Hb Hr. unfold server_kx, try_catch.
  rewrite Hpk. cbn [as_string]. rewrite bind_ret, Hb. cbn [lift].
  rewrite bind_ret, bind_gets, bind_modify. cbv zeta.
  rewrite bind_modify, bind_modify.
  change (VObj [("type", VStr "client_kx");
                ("sealedSymmetricKey",
                  VStr (to_base64 (crypto_box_seal (crypto_secretbox_keygen (generated s))
                                     serverPub)))])
    with (client_kx (crypto_secretbox_keygen (generated s)) serverPub).
  erewrite bind_returns by (apply (send_client_kx _ i); destruct s; assumption).
  rewrite bind_modify.
  replace (set_connectionPromise _ _) with (handshaken serverPub s)
    by (destruct s; reflexivity).
  cbn [fst snd]. rewrite Hr. reflexivity.
Qed.

Lemma open_known s i q : ws s = Some i -> sockets s !! i = Some (OPEN, q) -> is_open s = true.
Proof. intros Hi Hs. unfold is_open, ready. rewrite Hi, Hs. reflexivity. Qed.

Lemma onmessage_server_kx s i q dat message pk serverPub :
  ws s = Some i -> sockets s !! i = Some (OPEN, q) ->
  JSON.parse dat = Some message -> get_prop message "type" = Some (VStr "server_kx") ->
  prop message "x25519PublicKey" = VStr pk -> from_base64 pk = Some serverPub ->
  fst (fst (settle_connection q (Resolved Void) (handshaken serverPub s))) = inr tt ->
  handler (WsMessage i dat) s
  = (inr tt, snd (fst (settle_connection q (Resolved Void) (handshaken serverPub s))),
     WsSend i (client_kx_text (crypto_secretbox_keygen (generated s)) serverPub)
       :: snd (settle_connection q (Resolved Void) (handshaken serverPub s))).
Proof.
  intros Hi Hs Hparse Htype Hpk Hb Hr. cbn [handler]. unfold on_socket.
  rewrite bind_gets, Hs. unfold onmessage, try_catch.
  rewrite Hparse. cbn [lift]. rewrite bind_ret, Htype. cbn [lift]. rewrite bind_ret.
  change (is_type "server_kx" (VStr "server_kx")) with true. cbv iota.
  rewrite (server_kx_open s i q message pk serverPub Hi (open_known s i q Hi Hs) Hpk Hb Hr).
  reflexivity.
Qed.

(** A call that waits for the connection goes out when the handshake
    completes, under the key just made, and is in flight from then on. *)
Lemma handshake_sends `{!FreshIds B} s i q dat message pk serverPub a :
  consistent [] [] s ->
  ws s = Some i -> sockets s !! i = Some (OPEN, q) ->
  JSON.parse dat = Some message -> get_prop message "type" = Some (VStr "server_kx") ->
  prop message "x25519PublicKey" = VStr pk -> from_base64 pk = Some serverPub ->
  In a (awaiting s) -> awaited a = q ->
  exists n m,
    In (WsSend i (sealed_text (crypto_secretbox_keygen (generated s)) m
                    (tunnelRequest (generateRequestId n) (input_url a) (init_of a))))
       (snd (exec (handler (WsMessage i dat)) s)) /\
    in_flight (generateRequestId n) (returned a) (now s + 30000)
      (step s (WsMessage i dat)).
Proof.
  intros H Hi Hs Hparse Htype Hpk Hb Hin Hq.
  pose proof (open_known s i q Hi Hs) as Ho.
  set (key := crypto_secretbox_keygen (generated s)).
  set (s1 := snd (fst (settle q (Resolved Void) (handshaken serverPub s)))).
  set (l := filter (fun a => awaited a = q) (awaiting s1)).
  set (s2 := set_awaiting (filter (fun a => awaited a <> q)) s1).
  assert (settle_connection q (Resolved Void) (handshaken serverPub s)
          = for_each l (resumed (Resolved Void)) s2) as E.
  { unfold settle_connection.
    rewrite (bind_returns _ _ _ tt s1 []) by reflexivity.
    rewrite triple_eta, resume_start. reflexivity. }
  assert (consistent [] [] s1) as H1.
  { subst s1. apply consistent_settle.
    - eapply consistent_same; [exact H | destruct s; reflexivity ..].
    - destruct (c_sockets _ _ _ H i OPEN q Hs) as (Hlt & _ & _ & Hno).
      split; [destruct s; exact Hlt | destruct s; exact Hno]. }
  assert (consistent l [] s2) as H2 by (apply consistent_taken, H1).
  assert (ws s2 = Some i) as Hi2 by (destruct s; exact Hi).
  assert (is_open s2 = true) as Ho2 by (destruct s; exact Ho).
  assert (symmetricKey s2 = Some key) as Hk2 by (destruct s; reflexivity).
  assert (now s2 = now s) as Hnow2 by (destruct s; reflexivity).
  destruct (resumed_sent i key (now s) l s2 H2 Hi2 Ho2 Hk2 Hnow2) as (R1 & R2 & _).
  assert (In a l) as Hl.
  { subst l. apply list_elem_of_In, list_elem_of_filter. split; [exact Hq|].
    apply list_elem_of_In. destruct s; exact Hin. }
  destruct (R2 a Hl) as (n & m & Hsent & Hf). exists n, m.
  unfold step, exec.
  rewrite (onmessage_server_kx s i q dat message pk serverPub Hi Hs Hparse Htype Hpk Hb)
    by (rewrite E; exact R1).
  rewrite E. cbn [fst snd]. split; [by right | exact Hf].
Qed.

(** *** The close of the socket *)
Lemma close_known s i r q :
  sockets s !! i = Some (r, q) ->
  handler (WsClose i) s = (inr tt, closed_socket i q s, []).
Proof.
  intros E. unfold handler, set_ready, on_socket, onclose, setTimeout, closed_socket, bind,
    modify, gets. destruct s; cbn in *. rewrite E. cbn. rewrite lookup_insert_eq. reflexivity.
Qed.

Lemma close_unknown s i :
  sockets s !! i = None -> handler (WsClose i) s = (inr tt, s, []).
Proof.
  intros E. unfold handler, set_ready, on_socket, onclose, setTimeout, bind, modify, gets.
  destruct s; cbn in *. rewrite E. cbn. rewrite E. reflexivity.
Qed.

(** [onclose] settles no promise and touches neither the waiters nor the
    suspended calls; it clears [connectionPromise] and sets the timer of
    the reconnect. *)
Lemma close_keeps_requests s i :
  pendingRequests (step s (WsClose i)) = pendingRequests s /\
  settled (step s (WsClose i)) = settled s /\
  awaiting (step s (WsClose i)) = awaiting s /\
  now (step s (WsClose i)) = now s /\
  snd (exec (handler (WsClose i)) s) = [] /\
  (forall x, In x (timers s) -> In x (timers (step s (WsClose i)))) /\
  (is_Some (sockets s !! i) ->
   connectionPromise (step s (WsClose i)) = None /\
   In (now s + 1000, Reconnect) (timers (step s (WsClose i)))).
Proof.
  unfold step, exec. destruct (sockets s !! i) as [[r q]|] eqn:E.
  - rewrite (close_known s i r q E). unfold closed_socket. destruct s; cbn.
    repeat split; try (intros; apply ClientFacts.In_schedule; tauto).
  - rewrite (close_unknown s i E). cbn [fst snd].
    repeat split; try tauto; destruct H as [x Hx]; discriminate Hx.
Qed.

Lemma close_keeps_in_flight s i rid p due :
  in_flight rid p due s -> in_flight rid p due (step s (WsClose i)).
Proof.
  intros (Hp & Hs & Hnow & Ht).
  destruct (close_keeps_requests s i) as (E1 & E2 & _ & E4 & _ & E6 & _).
  unfold in_flight. rewrite E1, E2, E4. auto.
Qed.

Lemma close_keeps_parked s i p q :
  parked p q s -> parked p q (step s (WsClose i)).
Proof.
  intros (Hs & a & Hin & Hp & Hq).
  destruct (close_keeps_requests s i) as (_ & E2 & E3 & _).
  unfold parked. rewrite E2, E3. eauto.
Qed.


(** The text of a body that is present and no string. *)
Lemma body_text (body : value) :
  is_string body = false -> truthy body = true ->
  exists text, JSON.stringify body = Some text /\ VStr text <> body.
Proof.
  intros Hs Ht. destruct body; try discriminate; cbn [JSON.stringify];
    eexists; (split; [reflexivity | discriminate]).
Qed.

Lemma body_of_text (init : RequestInit) text :
  is_string (init_body init) = false -> truthy (init_body init) = true ->
  JSON.stringify (init_body init) = Some text ->
  body_of (Some init) = VStr text.
Proof.
  intros Hs Ht Hj. unfold body_of. rewrite Ht.
  destruct (init_body init); try discriminate; rewrite Hj; reflexivity.
Qed.

(** C10.  When [fetch] is called with a body that is present and no
    string, what the client writes to the control socket is the sealed
    [http_request] whose [body] is the text [JSON.stringify(init.body)]:
    at once when the socket is open and the key is installed, and when the
    handshake completes for a call that waited for it.  That text is never
    the body itself, and for an object, an array or a typed array it
    starts with a brace or a bracket, which is no character of base64. *)
Theorem fetch_body_is_json `{!FreshIds B} (s : state) (input : fetch_input)
    (init : RequestInit) :
  reachable s ->
  is_string (init_body init) = false ->
  truthy (init_body init) = true ->
  exists text,
    JSON.stringify (init_body init) = Some text /\
    VStr text <> init_body init /\
    (is_object (init_body init) = true ->
     exists c t, text = String c t /\ base64_alphabet c = false) /\
    (forall requestId url,
        prop (tunnelRequest requestId url (Some init)) "body" = VStr text) /\
    (forall i k,
        ws s = Some i -> is_open s = true -> symmetricKey s = Some k ->
        snd (exec (handler (CallFetch input (Some init))) s)
        = [WsSend i (sealed_text k (draws s)
                       (tunnelRequest (generateRequestId (issued s)) (url_of input)
                          (Some init)))]) /\
    (forall i q dat message pk serverPub a,
        ws s = Some i -> sockets s !! i = Some (OPEN, q) ->
        JSON.parse dat = Some message ->
        get_prop message "type" = Some (VStr "server_kx") ->
        prop message "x25519PublicKey" = VStr pk -> from_base64 pk = Some serverPub ->
        In a (awaiting s) -> awaited a = q -> init_of a = Some init ->
        exists n m,
          In (WsSend i (sealed_text (crypto_secretbox_keygen (generated s)) m
                          (tunnelRequest (generateRequestId n) (input_url a) (Some init))))
             (snd (exec (handler (WsMessage i dat)) s))).
Proof.
  intros Hr Hs Ht. pose proof (reachable_consistent s Hr) as H.
  destruct (body_text _ Hs Ht) as (text & Hj & Hne). exists text.
  split; [exact Hj|]. split; [exact Hne|]. split; [|split; [|split]].
  - intros Ho. destruct (ClientFacts.object_text _ Ho) as (c & t & Hj' & Hc).
    exists c, t. split; [congruence | exact Hc].
  - intros requestId url. unfold prop, tunnelRequest, get_prop. cbn [assoc String.eqb].
    change (default VUndefined (Some ?x)) with x. apply body_of_text; assumption.
  - intros i k Hi Ho Hk. apply (fetch_sends s i k input (Some init) H Hi Ho Hk).
  - intros i q dat message pk serverPub a Hi Hq Hparse Htype Hpk Hb Hin Ha Hinit.
    destruct (handshake_sends s i q dat message pk serverPub a H Hi Hq Hparse Htype Hpk Hb
                Hin Ha) as (n & m & Hsent & _).
    exists n, m. rewrite <- Hinit. exact Hsent.
Qed.

End Facts.
End ClientRuns.

(** ** The sample libraries keep the laws *)
Module DemoFacts.
Import Demo.

Lemma unbox_box (m n k : bytes) : unbox (box m n k) n k = Some m.
Proof.
  unfold unbox, box. rewrite List.app_assoc.
  rewrite take_app_length, drop_app_length.
  rewrite bool_decide_eq_true_2; reflexivity.
Qed.

#[export] Instance sodium_laws : SodiumLaws sodium.
Proof.
  split.
  - intros m n k. apply unbox_box.
  - intros b. cbn. f_equal. apply list_byte_of_string_of_list_byte.
  - intros s. cbn. f_equal. apply string_of_list_byte_of_string.
Qed.

Lemma string_of_uint_inj (u v : Decimal.uint) :
  NilEmpty.string_of_uint u = NilEmpty.string_of_uint v -> u = v.
Proof.
  intros E. apply (f_equal NilEmpty.uint_of_string) in E.
  rewrite !NilEmpty.usu in E. congruence.
Qed.

#[export] Instance fresh_ids : Client.FreshIds browser.
Proof.
  split. intros m n E. cbn in E.
  apply string_of_uint_inj in E. apply DecimalNat.Unsigned.to_uint_inj, E.
Qed.
End DemoFacts.

(** ** Both ends of the tunnel *)
Module TunnelFacts.
Section Facts.
Context {S : Sodium} {C : Cbor} {G : Server.TypeGuards} {H : Server.Host}
        {R : Client.Responses} {B : Client.Browser}.

(** C3, as the code has it.  When the control socket closes, the relay
    hands every tracked sub-connection of that socket a close with code
    1006 and reason [tunnel closed], and the connection leaves the map when
    no close listener of the host throws.  On the client the close writes
    nothing, settles no promise and leaves the map of pending requests and
    the suspended calls as they are; it clears [connectionPromise] and
    sets the timer of the reconnect one second later.  A request in flight
    stays in flight and fails by its own timer, with [Request timeout],
    when no response arrives before it is due; a call that still waits for
    the connection stays suspended. *)
Theorem control_close_flushes_subconnections `{!Client.FreshIds B}
    (r : Server.state) (ws : Server.socket) (dat : bytes) (c : Client.state) (i : nat) :
  let c' := Client.step c (Client.WsClose i) in
  Client.reachable c ->
  (forall cid conn,
      JsMap.get cid (Server.webSocketConnections r) = Some conn ->
      Server.controlWs conn = ws ->
      In (Server.Deliver
            (Server.DClose (Server.mockWs conn) (Some 1006) (Some "tunnel closed")))
         (snd (Server.step r (Server.Emit ws "close" dat))) /\
      (Server.quiet_close ->
       JsMap.get cid
         (Server.webSocketConnections (fst (Server.step r (Server.Emit ws "close" dat))))
       = None)) /\
  (snd (Client.exec (Client.handler (Client.WsClose i)) c) = [] /\
   Client.pendingRequests c' = Client.pendingRequests c /\
   Client.settled c' = Client.settled c /\
   Client.awaiting c' = Client.awaiting c /\
   (is_Some (Client.sockets c !! i) ->
    Client.connectionPromise c' = None /\
    In (Client.now c + 1000, Client.Reconnect) (Client.timers c'))) /\
  (forall requestId p due,
      Client.in_flight requestId p due c ->
      Client.in_flight requestId p due c' /\
      forall trace,
        Client.unanswered requestId c' trace = true ->
        due <= Client.now c' + Client.elapsed trace ->
        Client.pendingRequests (Client.run c' trace) !! requestId = None /\
        Client.settled (Client.run c' trace) !! p
        = Some (Client.Rejected (Client.Error (VStr "Request timeout")))) /\
  (forall p q, Client.parked p q c -> Client.parked p q c').
Proof.
  intros c' Hr. split; [|split; [|split]].
  - intros cid conn Hget Hws. exact (RelayFacts.close_flushes r ws dat cid conn Hget Hws).
  - destruct (ClientRuns.close_keeps_requests c i) as (E1 & E2 & E3 & _ & E5 & _ & E7).
    repeat split; try assumption; apply E7; assumption.
  - intros requestId p due Hf.
    pose proof (ClientRuns.close_keeps_in_flight c i requestId p due Hf) as Hf'.
    split; [exact Hf'|]. intros trace Hu Hd.
    exact (ClientRuns.in_flight_times_out c' requestId p due trace
             (ClientRuns.reachable_step c (Client.WsClose i) Hr) Hf' Hu Hd).
  - intros p q Hp. apply ClientRuns.close_keeps_parked, Hp.
Qed.

(** C5, as the code has it.  On a socket with a key, when the app throws
    an [Error] while it handles a tunneled request, or the response emits
    an error, the relay sends an [http_response] with the request id,
    status 500 and [error] set to the message.  On the client, an
    [http_response] whose [error] is truthy (a string that is not empty)
    rejects the waiter registered under its request id, removes it from
    the map, and settles no other promise. *)
Theorem application_error_reaches_its_waiter
    (r : Server.state) (ws : Server.socket) (k : bytes)
    (req : Server.RAEncryptedHTTPRequest)
    (c : Client.state) (response : value) (requestId : string) (p : nat) :
  (Server.symmetricKeyBySocket r !! ws = Some k ->
   (forall message,
       Server.raised (snd (Server.deliver (Server.host r) (Server.DRequest req)))
       = Some (Server.ThrownError message) ->
       exists out n,
         snd (Server.exec (Server.handleTunnelHttpRequest ws req) r)
         = out ++ [Server.Send ws
                     (Server.frame k n
                        (Server.errorResponse (Server.requestId req) message))]) /\
   (forall rid message,
       snd (Server.step r (Server.ResEmit ws rid (Server.ResError message)))
       = [Server.Send ws (Server.frame k (Server.draws r)
                            (Server.errorResponse rid message))]) /\
   (forall rid message,
       get_prop (Server.errorResponse rid message) "requestId" = Some (VStr rid) /\
       get_prop (Server.errorResponse rid message) "status" = Some (VNum 500) /\
       get_prop (Server.errorResponse rid message) "error" = Some (VStr message))) /\
  (Client.prop response "requestId" = VStr requestId ->
   Client.pendingRequests c !! requestId = Some p ->
   Client.settled c !! p = None ->
   truthy (Client.prop response "error") = true ->
   let c' := fst (Client.exec (Client.handleTunnelResponse response) c) in
   Client.settled c' !! p
   = Some (Client.Rejected (Client.Error (Client.prop response "error"))) /\
   Client.pendingRequests c' = delete requestId (Client.pendingRequests c) /\
   (forall q, q <> p -> Client.settled c' !! q = Client.settled c !! q)).
Proof.
  split.
  - intros Hk. split; [|split].
    + intros message Hr.
      destruct (RelayFacts.app_error_reported r ws k req message Hk Hr) as [out E].
      exists out. eexists. exact E.
    + intros rid message. exact (RelayFacts.res_error_reported r ws k rid message Hk).
    + intros rid message. repeat split.
  - intros Hid Hp Hs Ht.
    exact (ClientFacts.response_error_rejects c response requestId p Hid Hp Hs Ht).
Qed.

(** C9, as the code has it.  On the client, a payload that JSON writes
    and reads back as it is (no [undefined], no typed array, no repeated
    property name) comes back from [decryptEnvelope] of [encryptPayload]
    under the same key.  On the relay, a payload that the CBOR codec
    restores comes back from [decryptEnvelopeForSocket] of
    [encryptForSocket] for the same socket key. *)
Theorem envelope_round_trip `{!SodiumLaws S} (payload : value) (k : bytes)
    (c : Client.state) (r : Server.state) (ws : Server.socket) :
  (Client.symmetricKey c = Some k ->
   JSON.plain payload = true ->
   exists envelope c1,
     Client.encryptPayload payload c = (inr envelope, c1, []) /\
     forall c2, Client.symmetricKey c2 = Some k ->
                Client.decryptEnvelope envelope c2 = (inr payload, c2, [])) /\
  (Server.symmetricKeyBySocket r !! ws = Some k ->
   decode (encode payload) = Some payload ->
   exists envelope r1,
     Server.encryptForSocket ws payload r = (inr envelope, r1, []) /\
     forall r2, Server.symmetricKeyBySocket r2 !! ws = Some k ->
                Server.decryptEnvelopeForSocket ws envelope r2 = (inr payload, r2, [])).
Proof.
  split.
  - intros Hk Hp. exact (ClientFacts.client_round_trip c k payload Hk Hp).
  - intros Hk Hc.
    exact (RelayFacts.relay_round_trip r ws k payload secretbox_open_easy Hc Hk).
Qed.
End Facts.
End TunnelFacts.

(** ** The statements on the sample relay and client *)
Module Scenarios.
Import Demo DemoFacts.

(** The first [client_kx] on socket 1 installs the key; the second leaves
    the relay as it is. *)
Lemma key_installed_once_sample :
  Server.symmetricKeyBySocket
    (fst (Server.step relay (Server.Emit 1%nat "message" client_kx_frame))) !! 1%nat
  = Some key /\
  Server.step keyed (Server.Emit 1%nat "message" client_kx_frame)
  = (keyed, [Server.Console "client_kx received after key already set; ignoring"]) /\
  Server.symmetricKeyBySocket
    (fst (Server.run keyed
            [Server.Emit 1%nat "message" client_kx_frame;
             Server.Emit 1%nat "message" (sealed_frame 0 (ws_client_connect "c1"))]))
  !! 1%nat = Some key.
Proof.
  assert (decode client_kx_frame = Some client_kx_message) as Hd
    by (vm_compute; reflexivity).
  assert (Server.isControlChannelKXConfirm client_kx_message
          = Some {| Server.sealedSymmetricKey :=
                      to_base64 (crypto_box_seal key (Server.x25519PublicKey relay)) |})
    as Hk by (vm_compute; reflexivity).
  split; [|split].
  - destruct (RelayFacts.key_installed_once relay 1%nat _ _ _ Hd Hk) as (Hfirst & _ & _).
    apply (Hfirst (crypto_box_seal key (Server.x25519PublicKey relay)) key);
      vm_compute; reflexivity.
  - destruct (RelayFacts.key_installed_once keyed 1%nat _ _ _ Hd Hk) as (_ & Hnext & _).
    apply (Hnext key). vm_compute; reflexivity.
  - destruct (RelayFacts.key_installed_once keyed 1%nat _ _ _ Hd Hk) as (_ & _ & Hkeep).
    apply Hkeep; [vm_compute; reflexivity|].
    repeat constructor; intros [dat E]; discriminate E.
Defined.

(** A plaintext [ws_message] is dropped before the handshake and after
    it. *)
Lemma plaintext_never_dispatched_sample :
  Server.step relay (Server.Emit 1%nat "message" (encode (ws_message "c1" "hi")))
  = (relay, [Server.Console "Dropping message before handshake completion"]) /\
  exists msg,
    Server.step keyed (Server.Emit 1%nat "message" (encode (ws_message "c1" "hi")))
    = (keyed, [Server.Console msg]).
Proof.
  assert (decode (encode (ws_message "c1" "hi")) = Some (ws_message "c1" "hi")) as Hd
    by (vm_compute; reflexivity).
  split.
  - destruct (RelayFacts.plaintext_never_dispatched relay 1%nat _ _ Hd) as [_ Hbefore].
    apply Hbefore; vm_compute; reflexivity.
  - destruct (RelayFacts.plaintext_never_dispatched keyed 1%nat _ _ Hd) as [Hafter _].
    apply (Hafter key); vm_compute; reflexivity.
Defined.

Lemma reachable_sample (trace : list Client.event) : Client.reachable (Client.run ra trace).
Proof. exists "http://localhost:3001", trace. reflexivity. Qed.

Lemma in_flight_sample : Client.in_flight "0" 1 30000 fetching.
Proof.
  unfold Client.in_flight. split; [vm_compute; reflexivity|].
  split; [vm_compute; reflexivity|]. split; [vm_compute; reflexivity|].
  vm_compute. left. reflexivity.
Qed.

(** The close of the control socket flushes [c1] on the relay; on the
    client it leaves the fetch in flight, which its own timer rejects
    thirty seconds after it was sent. *)
Lemma control_close_flushes_subconnections_sample :
  In (Server.Deliver
        (Server.DClose {| Server.mock_id := 0; Server.mock_connectionId := "c1";
                          Server.mock_controlWs := 1%nat |}
           (Some 1006) (Some "tunnel closed")))
     (snd (Server.step serving (Server.Emit 1%nat "close" []))) /\
  JsMap.get "c1"
    (Server.webSocketConnections (fst (Server.step serving (Server.Emit 1%nat "close" []))))
  = None /\
  Client.pendingRequests (Client.step fetching (Client.WsClose 0))
  = Client.pendingRequests fetching /\
  Client.connectionPromise (Client.step fetching (Client.WsClose 0)) = None /\
  In (Client.now fetching + 1000, Client.Reconnect)
     (Client.timers (Client.step fetching (Client.WsClose 0))) /\
  Client.in_flight "0" 1 30000 (Client.step fetching (Client.WsClose 0)) /\
  Client.settled
    (Client.run (Client.step fetching (Client.WsClose 0))
       [Client.Tick 1000; Client.Tick 29000]) !! 1%nat
  = Some (Client.Rejected (Client.Error (VStr "Request timeout"))).
Proof.
  destruct (TunnelFacts.control_close_flushes_subconnections serving 1%nat [] fetching 0
              (reachable_sample
                 [Client.CallEnsureConnection; Client.WsOpen 0;
                  Client.WsMessage 0 server_kx_text;
                  Client.CallFetch (Client.InputString "/uptime") None]))
    as (Hrelay & (_ & Hpending & _ & _ & Hclient) & Hflight & _).
  destruct (Hrelay "c1"
              {| Server.mockWs := {| Server.mock_id := 0; Server.mock_connectionId := "c1";
                                     Server.mock_controlWs := 1%nat |};
                 Server.controlWs := 1%nat |}) as [Hclose Hgone];
    [vm_compute; reflexivity | reflexivity |].
  destruct Hclient as [Hpromise Htimer]; [vm_compute; eexists; reflexivity|].
  destruct (Hflight "0" 1%nat 30000 in_flight_sample) as [Hstill Hout].
  destruct (Hout [Client.Tick 1000; Client.Tick 29000]) as [_ Hrejected];
    [vm_compute; reflexivity | vm_compute; discriminate |].
  split; [exact Hclose|]. split; [apply Hgone; intros h mock c r; reflexivity|].
  split; [exact Hpending|]. split; [exact Hpromise|]. split; [exact Htimer|].
  split; [exact Hstill | exact Hrejected].
Defined.

(** The fetch in flight stays registered and unsettled when the control
    socket closes: no error of a lost connection reaches it, and it fails
    thirty seconds after it was sent, by its own timer.  A call made
    before the handshake, which still waits for the connection when the
    socket closes, is not settled at all, also after the reconnect. *)
Lemma control_close_leaves_fetch_pending :
  Client.pendingRequests (Client.step fetching (Client.WsClose 0)) !! "0" = Some 1%nat /\
  Client.settled (Client.step fetching (Client.WsClose 0)) !! 1%nat = None /\
  Client.settled (Client.run fetching [Client.WsClose 0; Client.Tick 29999]) !! 1%nat
  = None /\
  Client.settled (Client.run fetching [Client.WsClose 0; Client.Tick 30000]) !! 1%nat
  = Some (Client.Rejected (Client.Error (VStr "Request timeout"))) /\
  Client.settled (Client.run waiting_call [Client.WsClose 0; Client.Tick 60000]) !! 0%nat
  = None /\
  Client.pendingRequests (Client.run waiting_call [Client.WsClose 0; Client.Tick 60000])
  = ∅.
Proof. vm_compute. repeat split. Qed.



(** The app throws on [/boom]: the relay answers with a 500 that carries
    the message, and the client rejects the fetch that waits for it, and
    nothing else. *)
Lemma application_error_reaches_its_waiter_sample :
  (exists out n,
      snd (Server.exec (Server.handleTunnelHttpRequest 1%nat (request_of "0" "/boom")) keyed)
      = out ++ [Server.Send 1%nat (Server.frame key n (Server.errorResponse "0" "boom"))]) /\
  Client.settled
    (fst (Client.exec (Client.handleTunnelResponse (Server.errorResponse "0" "boom"))
            fetching)) !! 1%nat
  = Some (Client.Rejected (Client.Error (VStr "boom"))) /\
  Client.pendingRequests
    (fst (Client.exec (Client.handleTunnelResponse (Server.errorResponse "0" "boom"))
            fetching))
  = delete "0" (Client.pendingRequests fetching).
Proof.
  destruct (TunnelFacts.application_error_reaches_its_waiter keyed 1%nat key
              (request_of "0" "/boom") fetching (Server.errorResponse "0" "boom") "0" 1%nat)
    as [Hrelay Hclient].
  destruct Hrelay as (Hthrown & _ & _); [vm_compute; reflexivity|].
  destruct Hclient as (Hrejected & Hremoved & _);
    [vm_compute; reflexivity | vm_compute; reflexivity | vm_compute; reflexivity
    | reflexivity |].
  split; [apply (Hthrown "boom"); vm_compute; reflexivity|].
  split; [exact Hrejected | exact Hremoved].
Defined.

(** The app throws [new Error()] on [/void]: the relay answers with a 500
    whose [error] is the empty message, and the client resolves the fetch
    with a response of status 500 instead of rejecting it. *)
Lemma empty_error_message_resolves :
  snd (Server.exec (Server.handleTunnelHttpRequest 1%nat (request_of "0" "/void")) keyed)
  = [Server.Deliver (Server.DRequest (request_of "0" "/void"));
     Server.Send 1%nat (Server.frame key 0 (Server.errorResponse "0" ""))] /\
  get_prop (Server.errorResponse "0" "") "error" = Some (VStr "") /\
  Client.settled
    (fst (Client.exec (Client.handleTunnelResponse (Server.errorResponse "0" ""))
            fetching)) !! 1%nat
  = Some (Client.Resolved
            (Client.Fetched
               (VObj [("body", VStr ""); ("status", VNum 500);
                      ("statusText", VStr "Internal Server Error");
                      ("headers", VObj [])]))).
Proof. vm_compute. repeat split. Qed.

(** [/__ra__] and [/__ra__?v=1] reach the control channel, [/chat] is
    destroyed. *)
Lemma upgrade_routes_by_prefix_sample :
  Server.step relay (Server.Upgrade (Some "/__ra__") 7%nat)
  = (relay, [Server.Accept 7%nat;
             Server.Send 7%nat (encode (Server.serverKxMessage relay))]) /\
  Server.upgrade (Some "/__ra__?v=1") = Server.HandleUpgrade /\
  Server.step relay (Server.Upgrade (Some "/chat") 7%nat) = (relay, [Server.Destroy 7%nat]) /\
  Server.step relay (Server.Upgrade None 7%nat) = (relay, [Server.Destroy 7%nat]).
Proof.
  split; [|split; [|split]].
  - apply (RelayFacts.upgrade_routes_by_prefix relay (Some "/__ra__") 7%nat). reflexivity.
  - apply (RelayFacts.upgrade_routes_by_prefix relay (Some "/__ra__?v=1") 7%nat).
    reflexivity.
  - apply (RelayFacts.upgrade_routes_by_prefix relay (Some "/chat") 7%nat). reflexivity.
  - apply (RelayFacts.upgrade_routes_by_prefix relay None 7%nat). reflexivity.
Defined.

(** An upgrade to [/__ra__evil], which is not the control path, is handed
    to the control channel all the same. *)
Lemma upgrade_accepts_longer_path :
  Some "/__ra__evil" <> Some "/__ra__" /\
  Server.upgrade (Some "/__ra__evil") = Server.HandleUpgrade /\
  Server.step relay (Server.Upgrade (Some "/__ra__evil") 7%nat)
  = (relay, [Server.Accept 7%nat;
             Server.Send 7%nat (encode (Server.serverKxMessage relay))]).
Proof. split; [discriminate|]. split; reflexivity. Qed.



(** A text message of a sub-connection comes back as it was sent, on the
    client and on the relay. *)
Lemma envelope_round_trip_sample :
  (exists envelope c1,
      Client.encryptPayload (ws_message "c1" "hi") connected = (inr envelope, c1, []) /\
      Client.decryptEnvelope envelope connected = (inr (ws_message "c1" "hi"), connected, [])) /\
  (exists envelope r1,
      Server.encryptForSocket 1%nat (ws_message "c1" "hi") keyed = (inr envelope, r1, []) /\
      Server.decryptEnvelopeForSocket 1%nat envelope keyed
      = (inr (ws_message "c1" "hi"), keyed, [])).
Proof.
  destruct (TunnelFacts.envelope_round_trip (ws_message "c1" "hi") key connected keyed 1%nat)
    as [Hclient Hrelay].
  split.
  - destruct Hclient as (envelope & c1 & Hseal & Hopen);
      [vm_compute; reflexivity | vm_compute; reflexivity |].
    exists envelope, c1. split; [exact Hseal|]. apply Hopen. vm_compute; reflexivity.
  - destruct Hrelay as (envelope & r1 & Hseal & Hopen);
      [vm_compute; reflexivity | vm_compute; reflexivity |].
    exists envelope, r1. split; [exact Hseal|]. apply Hopen. vm_compute; reflexivity.
Defined.

(** A binary frame does not come back from the client's envelope: its
    bytes return as an object keyed by index. *)
Lemma binary_payload_not_restored :
  exists envelope c1,
    Client.symmetricKey connected = Some key /\
    Client.encryptPayload binary_message connected = (inr envelope, c1, []) /\
    Client.decryptEnvelope envelope connected
    = (inr (VObj [("type", VStr "ws_message"); ("connectionId", VStr "c1");
                  ("data", VObj [("0", VNum 1); ("1", VNum 2)]);
                  ("dataType", VStr "arraybuffer")]), connected, []) /\
    Client.decryptEnvelope envelope connected <> (inr binary_message, connected, []).
Proof.
  eexists _, _. split; [vm_compute; reflexivity|].
  split; [vm_compute; reflexivity|].
  split; [vm_compute; reflexivity|].
  vm_compute. intros E. discriminate E.
Qed.

(** An array body goes out, sealed, in the [http_request] whose [body] is
    its JSON text. *)
Lemma fetch_body_is_json_sample :
  Client.prop (Client.tunnelRequest "0" "/upload" (Some upload)) "body" = VStr "[1,2]" /\
  snd (Client.exec (Client.handler (Client.CallFetch (Client.InputString "/upload")
                                      (Some upload))) connected)
  = [Client.WsSend 0
       (Client.sealed_text key 0 (Client.tunnelRequest "0" "/upload" (Some upload)))].
Proof.
  destruct (ClientRuns.fetch_body_is_json connected (Client.InputString "/upload") upload
              (reachable_sample
                 [Client.CallEnsureConnection; Client.WsOpen 0;
                  Client.WsMessage 0 server_kx_text]))
    as (text & Htext & _ & _ & Hbody & Hsent & _); [reflexivity | reflexivity |].
  assert (text = "[1,2]") as -> by (vm_compute in Htext; congruence).
  split; [apply Hbody|].
  apply (Hsent 0%nat key); vm_compute; reflexivity.
Defined.
End Scenarios.
